(** * Anchor-based semantic scoring engine: embedding and verification

    The development follows the TypeScript sources of the replication
    package:

    - [scale-anchors.ts]      anchor templates and [resolveAnchors];
    - [embedding-service.ts]  cosine similarity, normalisation, softmax,
                              rating reduction ([VoyageEmbeddingService]);
    - [cross-validation.ts]   [mulberry32], [shuffle], [evaluate],
                              [findBestTemp], [runLODO], [runBootstrap];
    - [ablation-experiment-v2.ts]  entropy-based confidence.

    Numbers.  A JavaScript [number] is a binary64 value: a real number of
    the binary64 format, one of the two infinities, or NaN (the two zeros
    are identified).  Addition, subtraction, multiplication, division and
    the square root are correctly rounded: the result is the real result
    rounded to the nearest binary64 number, ties to even, and it is an
    infinity when the rounded value exceeds the largest binary64 number
    (module [Double]).  A decimal literal of the source denotes the nearest
    binary64 number ([JS.lit]).  [Math.exp] and [Math.log2] are left to the
    implementation by the language standard; they are taken from a library
    [Libm], of which the statements assume at most the accuracy recorded in
    [LibmSpec].  Negation, absolute value, comparison, [Math.max],
    [Math.min], [Math.floor] and [Math.round] are exact.

    Counters, array lengths and indices are modelled by [Z] and [nat] (an
    array has fewer than 2^32 elements, so these are binary64 numbers).
    The state of the seeded generator is an integer-valued number, kept as
    an integer and rounded to binary64 after each addition.  The split and
    percentile indices [Math.floor(length * 0.7)], [Math.floor(repeats *
    0.025)] are computed on primitive floats, which makes the generator,
    the shuffle and the fold assignments executable. *)

From Stdlib Require Import ZArith QArith Qround Reals Lra Lia Psatz.
From Stdlib Require Import String Ascii Bool List Permutation.
From Stdlib Require PrimFloat FloatOps Uint63.
Import ListNotations.

Set Implicit Arguments.

(* ================================================================== *)
(** * Part I.  Definitions                                             *)
(* ================================================================== *)

(** ** Binary64 rounding *)

Module Double.

Local Open Scope R_scope.

(** The largest integer not above [x]. *)
Definition floorZ (x : R) : Z := (up x - 1)%Z.

(** [2^e] for an integer [e]. *)
Definition bpow (e : Z) : R := exp (IZR e * ln 2).

(** The exponent [e] with [2^(e-1) <= |x| < 2^e]. *)
Definition mag (x : R) : Z := (floorZ (ln (Rabs x) / ln 2) + 1)%Z.

(** The exponent of the last place of the binary64 numbers around [x]: 53
    significant bits, and the fixed exponent -1074 of the subnormal
    numbers below [2^-1022]. *)
Definition cexp (x : R) : Z := Z.max (mag x - 53) (-1074).

Definition ulp (x : R) : R := bpow (cexp x).

(** The nearest integer, a tie going to the even one. *)
Definition rne (y : R) : Z :=
  let f := floorZ y in
  if Rlt_dec (y - IZR f) (/ 2) then f
  else if Rlt_dec (/ 2) (y - IZR f) then (f + 1)%Z
  else if Z.even f then f else (f + 1)%Z.

(** [x] rounded to the nearest number with 53 significant bits and an
    exponent of at least -1074. *)
Definition round (x : R) : R := IZR (rne (x / ulp x)) * ulp x.

(** The largest binary64 number, [(2^53 - 1) * 2^971]. *)
Definition MAX : R := IZR (2 ^ 53 - 1) * bpow 971.

(** The binary64 numbers, with no bound on the exponent from above. *)
Definition format (f : R) : Prop :=
  exists m e : Z, f = IZR m * bpow e /\ (Z.abs m < 2 ^ 53)%Z /\ (-1074 <= e)%Z.

(** The relative error of one rounding is at most [eps = 2^-53], and the
    absolute error in the subnormal range at most [eta = 2^-1075]. *)
Definition eps : R := bpow (-53).
Definition eta : R := bpow (-1075).

(** An integer rounded to the nearest binary64 number, computed on
    integers: up to [2^53] in magnitude every integer is a binary64
    number, beyond that the significand keeps 53 bits. *)
Definition roundZ (z : Z) : Z :=
  let a := Z.abs z in
  if (a <? 2 ^ 53)%Z then z
  else
    let e := (Z.log2 a - 52)%Z in
    let q := Z.shiftr a e in
    let r := (a - Z.shiftl q e)%Z in
    let half := Z.shiftl 1 (e - 1) in
    let q' :=
      if (r <? half)%Z then q
      else if (half <? r)%Z then (q + 1)%Z
      else if Z.even q then q else (q + 1)%Z in
    (Z.sgn z * Z.shiftl q' e)%Z.

(** The loop [for (x of xs) acc = acc + x] on real values, each sum
    rounded. *)
Definition sum (xs : list R) (acc : R) : R :=
  fold_left (fun acc x => round (acc + x)) xs acc.

End Double.

(** ** JavaScript numbers *)

Module JS.

Inductive number : Type :=
| Fin (r : R)
| PosInf
| NegInf
| NaN.

Definition of_Z (z : Z) : number := Fin (IZR z).
Definition of_nat (n : nat) : number := Fin (INR n).

Definition Rpos_dec (r : R) : bool := if Rlt_dec 0 r then true else false.
Definition Rzero_dec (r : R) : bool := if Req_dec_T r 0 then true else false.

(** A value beyond the largest binary64 number is an infinity. *)
Definition overflow (y : R) : number :=
  if Rlt_dec Double.MAX y then PosInf
  else if Rlt_dec y (- Double.MAX) then NegInf
  else Fin y.

(** The number that holds the real result [x] of an operation. *)
Definition rnd (x : R) : number := overflow (Double.round x).

(** A decimal literal of the source. *)
Definition lit (x : R) : number := rnd x.

Definition isFinite (a : number) : bool :=
  match a with Fin _ => true | _ => false end.

Definition neg (a : number) : number :=
  match a with
  | Fin x => Fin (- x)
  | PosInf => NegInf
  | NegInf => PosInf
  | NaN => NaN
  end.

Definition add (a b : number) : number :=
  match a, b with
  | NaN, _ | _, NaN => NaN
  | Fin x, Fin y => rnd (x + y)
  | PosInf, NegInf | NegInf, PosInf => NaN
  | PosInf, _ | _, PosInf => PosInf
  | NegInf, _ | _, NegInf => NegInf
  end.

Definition sub (a b : number) : number := add a (neg b).

(** Sign of an infinite result: [s] for a positive factor, the opposite for
    a negative one, NaN for zero. *)
Definition signed_inf (s : number) (x : R) : number :=
  if Rzero_dec x then NaN else if Rpos_dec x then s else neg s.

Definition mul (a b : number) : number :=
  match a, b with
  | NaN, _ | _, NaN => NaN
  | Fin x, Fin y => rnd (x * y)
  | Fin x, PosInf | PosInf, Fin x => signed_inf PosInf x
  | Fin x, NegInf | NegInf, Fin x => signed_inf NegInf x
  | PosInf, PosInf | NegInf, NegInf => PosInf
  | PosInf, NegInf | NegInf, PosInf => NegInf
  end.

(** Division; a zero divisor counts as [+0]. *)
Definition div (a b : number) : number :=
  match a, b with
  | NaN, _ | _, NaN => NaN
  | Fin x, Fin y =>
      if Rzero_dec y then signed_inf PosInf x else rnd (x / y)
  | Fin _, (PosInf | NegInf) => Fin 0
  | PosInf, Fin y => if Rzero_dec y then PosInf else signed_inf PosInf y
  | NegInf, Fin y => if Rzero_dec y then NegInf else signed_inf NegInf y
  | (PosInf | NegInf), (PosInf | NegInf) => NaN
  end.

(** [a < b]; false as soon as one side is NaN. *)
Definition lt (a b : number) : bool :=
  match a, b with
  | Fin x, Fin y => if Rlt_dec x y then true else false
  | NegInf, (Fin _ | PosInf) => true
  | Fin _, PosInf => true
  | _, _ => false
  end.

(** [a === b] on numbers; NaN differs from itself. *)
Definition strict_eq (a b : number) : bool :=
  match a, b with
  | Fin x, Fin y => if Req_dec_T x y then true else false
  | PosInf, PosInf | NegInf, NegInf => true
  | _, _ => false
  end.

Definition gt (a b : number) : bool := lt b a.
Definition le (a b : number) : bool := lt a b || strict_eq a b.

(** [x ** 2]. *)
Definition square (a : number) : number := mul a a.

(** Reading [a[i]] from an array of numbers and using it in arithmetic: an
    index past the end yields [undefined], which arithmetic turns into NaN. *)
Definition get (a : list number) (i : nat) : number := nth i a NaN.

End JS.

Export JS.

Declare Scope js_scope.
Delimit Scope js_scope with js.
Bind Scope js_scope with number.
Notation "a + b" := (JS.add a b) : js_scope.
Notation "a - b" := (JS.sub a b) : js_scope.
Notation "a * b" := (JS.mul a b) : js_scope.
Notation "a / b" := (JS.div a b) : js_scope.
Notation "- a" := (JS.neg a) : js_scope.
Notation "a < b" := (JS.lt a b) : js_scope.
Notation "a > b" := (JS.gt a b) : js_scope.
Notation "a <= b" := (JS.le a b) : js_scope.
Notation "a === b" := (JS.strict_eq a b) (at level 70, no associativity) : js_scope.
Notation "a .[ i ]" := (JS.get a i) (at level 1, left associativity, format "a .[ i ]") : js_scope.

(** ** The elementary functions

    The language standard leaves the values of [Math.exp] and [Math.log2]
    to the implementation, apart from the special cases ([Math.exp] of a
    zero is 1, of minus infinity [+0]; [Math.log2] of 1 is [+0]).  The
    functions on real arguments come from a library. *)

Class Libm : Type := {
  libm_exp : R -> R;
  libm_log2 : R -> R
}.

(** What the statements assume of the library, where they assume
    anything: the exponential of a non-positive argument and the binary
    logarithm of a positive one are off by at most one unit in the last
    place (a relative error of [2^-52], and [2^-1074] where the result is
    subnormal), and the exponential is never negative. *)
Record LibmSpec (libm : Libm) : Prop := {
  libm_exp_zero : libm_exp 0 = 1%R;
  libm_exp_nonneg : forall x : R, (0 <= libm_exp x)%R;
  libm_exp_accurate :
    forall x : R, (x <= 0)%R ->
      (Rabs (libm_exp x - exp x) <= Double.bpow (-52) * exp x + Double.bpow (-1074))%R;
  libm_log2_one : libm_log2 1 = 0%R;
  libm_log2_accurate :
    forall x : R, (0 < x)%R ->
      (Rabs (libm_log2 x - ln x / ln 2)
       <= Double.bpow (-52) * Rabs (ln x / ln 2) + Double.bpow (-1074))%R
}.

(** A library whose results are correctly rounded. *)
Definition correctlyRounded : Libm :=
  {| libm_exp := fun x => Double.round (exp x);
     libm_log2 := fun x => Double.round (ln x / ln 2) |}.

(** ** The [Math] object *)

Module Math.

Local Open Scope R_scope.

Definition sqrt (a : number) : number :=
  match a with
  | Fin x => if Rlt_dec x 0 then NaN else JS.rnd (R_sqrt.sqrt x)
  | PosInf => PosInf
  | NegInf | NaN => NaN
  end.

Definition exp {libm : Libm} (a : number) : number :=
  match a with
  | Fin x => JS.overflow (libm_exp x)
  | PosInf => PosInf
  | NegInf => Fin 0
  | NaN => NaN
  end.

Definition log2 {libm : Libm} (a : number) : number :=
  match a with
  | Fin x =>
      if Rlt_dec x 0 then NaN
      else if Rzero_dec x then NegInf
      else JS.overflow (libm_log2 x)
  | PosInf => PosInf
  | NegInf | NaN => NaN
  end.

Definition abs (a : number) : number :=
  match a with
  | Fin x => Fin (Rabs x)
  | PosInf | NegInf => PosInf
  | NaN => NaN
  end.

(** The largest integer not above [x]. *)
Definition floorR (x : R) : Z := (up x - 1)%Z.

(** [Math.round] rounds to the nearest integer, a half upwards. *)
Definition roundR (x : R) : Z := floorR (x + / 2).

Definition floor (a : number) : number :=
  match a with
  | Fin x => Fin (IZR (floorR x))
  | other => other
  end.

Definition round (a : number) : number :=
  match a with
  | Fin x => Fin (IZR (roundR x))
  | other => other
  end.

Definition max2 (a b : number) : number :=
  match a, b with
  | NaN, _ | _, NaN => NaN
  | _, _ => if JS.lt a b then b else a
  end.

Definition min2 (a b : number) : number :=
  match a, b with
  | NaN, _ | _, NaN => NaN
  | _, _ => if JS.lt b a then b else a
  end.

(** [Math.max(...xs)] and [Math.min(...xs)]: minus and plus infinity for no
    argument, NaN as soon as one argument is NaN. *)
Definition max (xs : list number) : number := fold_left max2 xs NegInf.
Definition min (xs : list number) : number := fold_left min2 xs PosInf.

End Math.

(* ------------------------------------------------------------------ *)
(** ** [scale-anchors.ts] *)

Module ScaleAnchors.

Local Open Scope string_scope.
Local Open Scope Z_scope.

(** *** Strings

    Strings are byte strings; case conversion and trimming act on the ASCII
    range, which is the range of every label and keyword of the tables
    below. *)

Definition lowerChar (c : ascii) : ascii :=
  let n := nat_of_ascii c in
  if (65 <=? n)%nat && (n <=? 90)%nat then ascii_of_nat (n + 32) else c.

Fixpoint toLowerCase (s : string) : string :=
  match s with
  | EmptyString => EmptyString
  | String c s' => String (lowerChar c) (toLowerCase s')
  end.

Definition isSpace (c : ascii) : bool :=
  let n := nat_of_ascii c in
  (n =? 32)%nat || ((9 <=? n)%nat && (n <=? 13)%nat).

Fixpoint trimStart (s : string) : string :=
  match s with
  | String c s' => if isSpace c then trimStart s' else s
  | EmptyString => EmptyString
  end.

Fixpoint trimEnd (s : string) : string :=
  match s with
  | EmptyString => EmptyString
  | String c s' =>
      match trimEnd s' with
      | EmptyString => if isSpace c then EmptyString else String c EmptyString
      | rest => String c rest
      end
  end.

Definition trim (s : string) : string := trimEnd (trimStart s).

Fixpoint startsWith (s p : string) : bool :=
  match p, s with
  | EmptyString, _ => true
  | String c p', String d s' => Ascii.eqb c d && startsWith s' p'
  | String _ _, EmptyString => false
  end.

(** [s.includes(p)] *)
Fixpoint includes (s p : string) : bool :=
  startsWith s p ||
  match s with
  | EmptyString => false
  | String _ s' => includes s' p
  end.

Fixpoint dropChars (n : nat) (s : string) : string :=
  match n, s with
  | O, _ => s
  | S n', String _ s' => dropChars n' s'
  | S _, EmptyString => EmptyString
  end.

(** [s.replace(/^(very |extremely )/, empty)]: drop a leading intensifier. *)
Definition stripIntensifier (s : string) : string :=
  if startsWith s "very " then dropChars 5 s
  else if startsWith s "extremely " then dropChars 10 s
  else s.

(** *** Types *)

Inductive QuestionType : Type :=
| likert | nps | multiple_choice | ranking | open_ended
| matrix | slider | image_rating | image_choice | image_comparison.

Definition is_nps (t : QuestionType) : bool :=
  match t with nps => true | _ => false end.

Record ScaleAnchorLabels : Type := { low : string; high : string }.

(** The fields of [SurveyQuestion] that [resolveAnchors] reads.  Scale
    bounds are integers. *)
Record SurveyQuestion : Type := {
  id : string;
  type : QuestionType;
  text : string;
  scaleMin : option Z;
  scaleMax : option Z;
  scaleAnchors : option ScaleAnchorLabels
}.

Record ScaleAnchorSet : Type := {
  semantic : string;
  anchors : list string;
  set_scaleMin : Z;
  set_scaleMax : Z
}.

Record AnchorTemplate : Type := {
  anchors5 : list string;
  anchors7 : option (list string);
  anchors11 : option (list string)
}.

(** *** Predefined anchor templates *)

Definition TEMPLATES : list (string * AnchorTemplate) :=
  [
    ("agreement",
     {| anchors5 :=
      [ "Completely wrong. I strongly disagree, this doesn't match reality at all and I reject this statement.";
        "I don't think so. I disagree with this, there are problems and it doesn't seem right to me.";
        "Not sure either way. I could see arguments for and against, I don't have a strong opinion on this.";
        "I think so, mostly. I agree that this is about right, with maybe a few minor exceptions.";
        "Absolutely right. I completely agree, this is exactly correct and perfectly describes the situation." ];
        anchors7 := Some
      [ "I strongly disagree. This is completely contrary to my views.";
        "I disagree. I don't think this is accurate.";
        "I slightly disagree. I have some reservations about this.";
        "I neither agree nor disagree. I'm neutral on this.";
        "I slightly agree. I'm somewhat inclined to agree.";
        "I agree. I think this is mostly correct.";
        "I strongly agree. This is absolutely right." ];
        anchors11 := None |});
    ("satisfaction",
     {| anchors5 :=
      [ "Terrible. I was frustrated and angry the entire time, nothing worked right and I regret using this.";
        "Not great. I ran into problems and it was harder than it should have been, below what I expected.";
        "It was okay. Nothing special, not bad but not good either. Pretty average and forgettable.";
        "Pretty good. Things went smoothly for the most part, just a couple of small things that could be better.";
        "Excellent. Everything was smooth, fast, and easy. I'm really impressed and delighted with the result." ];
        anchors7 := None;
        anchors11 := None |});
    ("likelihood",
     {| anchors5 :=
      [ "No, I definitely won't. I had a bad experience and I have no intention of doing this again. I'll go elsewhere.";
        "Probably not. It wasn't great and I have better options available. I'd need a strong reason to come back.";
        "Maybe, maybe not. It depends on the circumstances and what's available. I don't feel strongly either way.";
        "Yeah, I probably will. It was decent enough and fairly convenient. I'd come back if the opportunity arises.";
        "Absolutely, I definitely will. I had a great experience and I'm already looking forward to doing this again soon." ];
        anchors7 := None;
        anchors11 := None |});
    ("ease",
     {| anchors5 :=
      [ "Incredibly frustrating. I kept getting stuck and couldn't figure out what to do next. It felt like fighting the system every step of the way.";
        "Kind of a hassle. I ran into a couple of confusing parts and had to stop and think more than I should have. Not the smoothest experience.";
        "It was fine, I guess. Not particularly hard but not effortless either. I got through it without too much trouble.";
        "Pretty straightforward. I figured things out quickly and only paused once or twice. Most of it just made sense right away.";
        "Couldn't have been simpler. Everything was obvious and intuitive, I breezed through the whole thing without a second thought." ];
        anchors7 := None;
        anchors11 := None |});
    ("importance",
     {| anchors5 :=
      [ "Couldn't care less about this. It has zero impact on my life and I wouldn't even notice if it disappeared tomorrow.";
        "It's on my radar but barely. There are way bigger things I worry about, this is pretty low on my priority list.";
        "It matters somewhat. I'd pay attention to it but it's not something that keeps me up at night or changes my decisions.";
        "This is a big deal to me. I think about it regularly and it genuinely affects my choices and how I go about things.";
        "This is absolutely essential. I can't imagine doing without it, it's one of the most important things in my life right now." ];
        anchors7 := None;
        anchors11 := None |});
    ("familiarity",
     {| anchors5 :=
      [ "Never heard of it. This is completely new to me, I have no idea what it is or what it does. Drawing a total blank.";
        "I've seen the name around but that's about it. I couldn't really tell you much about it beyond the most surface-level stuff.";
        "I know the basics. I've come across it enough to have a general sense of what it's about, but I'm no expert by any means.";
        "I know it pretty well. I've used it or dealt with it enough times that I'm comfortable with it and could explain it to someone.";
        "I know this inside and out. I use it all the time, I could talk about it in detail, and people come to me with questions about it." ];
        anchors7 := None;
        anchors11 := None |});
    ("appeal",
     {| anchors5 :=
      [ "Hard pass. Nothing about this interests me at all. I scrolled right past it and wouldn't give it a second look.";
        "Eh, it's okay I guess. There's maybe one small thing that caught my eye, but overall it's not really for me.";
        "It's interesting enough. I can see why people would like it, and I might check it out if the timing was right.";
        "Yeah, this is really appealing. I'm drawn to it and I'd actively look into it more. It's got my attention for sure.";
        "I absolutely love this. I'm excited just thinking about it, this is exactly my kind of thing and I want it now." ];
        anchors7 := None;
        anchors11 := None |});
    ("value",
     {| anchors5 :=
      [ "Total rip-off. I feel cheated paying this much for what you actually get. Completely overpriced and not worth a fraction of the cost.";
        "Not great value. It feels a bit expensive for what it is. I'd expect more features or better quality at this price point.";
        "Fair enough for the price. You get what you pay for, nothing more and nothing less. It's reasonable but not a bargain.";
        "Good value for the money. I feel like I'm getting a solid deal here. The quality and features justify the price and then some.";
        "Incredible deal. I can't believe how much you get for this price. It's an absolute steal and I'd happily pay more for it." ];
        anchors7 := None;
        anchors11 := None |});
    ("trust",
     {| anchors5 :=
      [ "I don't trust this one bit. Something feels off and I'd be very careful sharing any personal information or relying on it for anything important.";
        "I'm a little skeptical. There are some red flags that make me uneasy. I'd proceed with caution and double-check things independently.";
        "I'm on the fence. I don't have a strong reason to trust or distrust it. I'd give it a chance but I'm keeping my guard up.";
        "I trust it for the most part. It seems reliable and legitimate. I'd feel comfortable using it without worrying too much.";
        "I trust this completely. It has a solid track record and I'd feel totally comfortable recommending it and relying on it for important things." ];
        anchors7 := None;
        anchors11 := None |});
    ("quality",
     {| anchors5 :=
      [ "Terrible quality. It feels cheap, flimsy, and poorly made. I'm honestly surprised this passed any kind of quality check. Not acceptable at all.";
        "Below average quality. There are some noticeable issues like rough edges or inconsistent finish. It works but you can tell corners were cut.";
        "Decent quality overall. Nothing wrong with it but nothing that wows me either. It does what it's supposed to do, standard stuff.";
        "Really good quality. Well-made, solid feel, and clearly some thought went into the details. I'm impressed with the craftsmanship.";
        "Outstanding quality. Premium feel in every way, this is clearly best-in-class. The attention to detail and materials are top-notch." ];
        anchors7 := None;
        anchors11 := None |});
    ("frequency",
     {| anchors5 :=
      [ "Never, not once. This just isn't something that's part of my routine at all. I can't remember the last time I did this, if ever.";
        "Hardly ever. Maybe once in a blue moon if the stars align. It's rare enough that it barely registers as something I do.";
        "Every now and then. I do it occasionally when the situation calls for it, but it's not a regular habit. Maybe a few times a month.";
        "Pretty regularly. It's part of my routine at this point. I do it multiple times a week and it feels natural and habitual.";
        "All the time, practically every day. I can't imagine not doing this, it's completely woven into my daily life at this point." ];
        anchors7 := None;
        anchors11 := None |});
    ("uniqueness",
     {| anchors5 :=
      [ "Nothing special about this at all. It's basically a copy of what's already out there. I've seen this exact same thing a dozen times before.";
        "Mostly the same as other options. There might be a small twist here or there but nothing that really sets it apart in a meaningful way.";
        "It has some distinctive qualities. A few things about it feel fresh or different, though the core concept isn't entirely new.";
        "This really stands out from the crowd. It has a clear identity and does things differently enough that I'd remember it and point it out to others.";
        "Truly one of a kind. I've never seen anything quite like this before. It's so original and different that it feels like it created its own category." ];
        anchors7 := None;
        anchors11 := None |});
    ("relevance",
     {| anchors5 :=
      [ "This has nothing to do with me. It's completely off-base for my situation and I can't see any connection to what I actually need.";
        "Tangentially related at best. There's a loose connection but it doesn't really address what I'm looking for in any meaningful way.";
        "Somewhat relevant. Parts of it apply to my situation and I can see some usefulness, but it's not exactly what I had in mind.";
        "Very relevant to what I need. It closely aligns with my situation and addresses most of the things I'm actually looking for.";
        "Spot on, exactly what I was looking for. This fits my needs perfectly and I feel like it was made specifically for my situation." ];
        anchors7 := None;
        anchors11 := None |});
    ("impression",
     {| anchors5 :=
      [ "Awful first impression. Everything about it rubs me the wrong way and I came away feeling really negative. Not a fan at all.";
        "Not a great impression. A few things turned me off and I have some real concerns. I'd need convincing to give it another chance.";
        "My impression is neutral. I don't feel strongly one way or the other. It didn't wow me but it didn't put me off either.";
        "Good impression overall. I came away feeling positive and optimistic about it. There's a lot to like and I'm interested to see more.";
        "Absolutely fantastic impression. I'm blown away by everything I've seen. This exceeded all my expectations and I'm genuinely enthusiastic." ];
        anchors7 := None;
        anchors11 := None |});
    ("purchase_intent",
     {| anchors5 :=
      [ "No chance I'm buying this. It's not for me at all and I'd never spend my money on it. I'd walk right past it every time.";
        "Probably not going to buy it. I'm not very interested and there are better ways I could spend my money. It'd take a lot to convince me.";
        "I might buy it, I might not. I'm on the fence. If the price was right or someone recommended it, I could see myself picking it up.";
        "Yeah, I'd probably buy this. It looks good and fits what I'm looking for. I can see myself pulling the trigger on this pretty soon.";
        "I'm buying this for sure. Take my money right now. This is exactly what I've been looking for and I don't need any more convincing." ];
        anchors7 := None;
        anchors11 := None |});
    ("nps",
     {| anchors5 :=
      [];
        anchors7 := None;
        anchors11 := Some
      [ "I would never recommend this. Terrible experience. Score: 0 out of 10.";
        "I would strongly advise against this. Very poor experience. Score: 1 out of 10.";
        "I am very unlikely to recommend this. Poor experience. Score: 2 out of 10.";
        "I would probably not recommend this. Below average experience. Score: 3 out of 10.";
        "I would hesitate to recommend this. Mediocre experience. Score: 4 out of 10.";
        "I am neutral about recommending this. Average experience. Score: 5 out of 10.";
        "I might recommend this in some cases. Slightly above average. Score: 6 out of 10.";
        "I would likely recommend this. Good experience overall. Score: 7 out of 10.";
        "I would recommend this. Very good experience. Score: 8 out of 10.";
        "I would strongly recommend this. Excellent experience. Score: 9 out of 10.";
        "I would enthusiastically recommend this to everyone. Outstanding. Score: 10 out of 10." ] |})
  ].

(** *** Label to semantic lookup *)

Definition LABEL_TO_SEMANTIC : list (string * string) :=
  [ ("very dissatisfied", "satisfaction");
    ("very satisfied", "satisfaction");
    ("extremely dissatisfied", "satisfaction");
    ("extremely satisfied", "satisfaction");
    ("strongly disagree", "agreement");
    ("strongly agree", "agreement");
    ("very unlikely", "likelihood");
    ("very likely", "likelihood");
    ("extremely unlikely", "likelihood");
    ("extremely likely", "likelihood");
    ("not at all likely", "likelihood");
    ("very difficult", "ease");
    ("very easy", "ease");
    ("not important", "importance");
    ("not important at all", "importance");
    ("very important", "importance");
    ("extremely important", "importance");
    ("not at all familiar", "familiarity");
    ("extremely familiar", "familiarity");
    ("not at all appealing", "appeal");
    ("extremely appealing", "appeal");
    ("not appealing", "appeal");
    ("very appealing", "appeal");
    ("very poor value", "value");
    ("excellent value", "value");
    ("not at all", "trust");
    ("completely", "trust");
    ("very poor", "quality");
    ("excellent", "quality");
    ("very negative", "impression");
    ("very positive", "impression");
    ("definitely would not", "purchase_intent");
    ("definitely would", "purchase_intent");
    ("not at all unique", "uniqueness");
    ("extremely unique", "uniqueness");
    ("not at all relevant", "relevance");
    ("extremely relevant", "relevance") ].

(** *** Property reads on the two tables

    [table[key]] reads an own key of the object literal or, failing that, a
    member inherited from [Object.prototype].  The keys used here are lower
    case, and the only inherited names in lower case are [constructor] and
    [__proto__]; both hold an object, which is truthy.  The only later use of
    such a value is as a key of [TEMPLATES], where it is converted to the
    string given below (no key of [TEMPLATES]). *)

Fixpoint own {A : Type} (table : list (string * A)) (key : string) : option A :=
  match table with
  | [] => None
  | (k, v) :: rest => if String.eqb k key then Some v else own rest key
  end.

Definition inherited (key : string) : option string :=
  if String.eqb key "constructor" then Some "function Object() { [native code] }"
  else if String.eqb key "__proto__" then Some "[object Object]"
  else None.

(** [table[key]] for the label table.  Every value it can yield is a
    non-empty string or an object, so [if (value)] tests presence. *)
Definition read (table : list (string * string)) (key : string) : option string :=
  match own table key with
  | Some v => Some v
  | None => inherited key
  end.

(** *** Internal helpers *)

Definition detectSemanticFromLabels (low high : string) : option string :=
  let lowNorm := trim (toLowerCase low) in
  let highNorm := trim (toLowerCase high) in
  (* Check low label *)
  match read LABEL_TO_SEMANTIC lowNorm with
  | Some fromLow => Some fromLow
  | None =>
      (* Check high label *)
      match read LABEL_TO_SEMANTIC highNorm with
      | Some fromHigh => Some fromHigh
      | None =>
          (* Partial match: the first entry whose key occurs in a label *)
          match
            find (fun entry =>
                    includes lowNorm (fst entry) || includes highNorm (fst entry))
                 LABEL_TO_SEMANTIC
          with
          | Some (_, semantic) => Some semantic
          | None => None
          end
      end
  end.

Definition inferSemanticFromText (text : string) : option string :=
  let lower := toLowerCase text in
  if includes lower "satisfi" then Some "satisfaction"
  else if includes lower "agree" || includes lower "disagree" then Some "agreement"
  else if includes lower "likely" || includes lower "likelihood"
          || includes lower "probability" then Some "likelihood"
  else if includes lower "easy" || includes lower "difficult"
          || includes lower "ease" then Some "ease"
  else if includes lower "important" || includes lower "importance" then Some "importance"
  else if includes lower "familiar" then Some "familiarity"
  else if includes lower "appeal" then Some "appeal"
  else if includes lower "value" && includes lower "money" then Some "value"
  else if includes lower "trust" then Some "trust"
  else if includes lower "quality" then Some "quality"
  else if includes lower "unique" || includes lower "different" then Some "uniqueness"
  else if includes lower "relevant" || includes lower "relevance" then Some "relevance"
  else if includes lower "impression" || includes lower "overall" then Some "impression"
  else if includes lower "purchase" || includes lower "buy" then Some "purchase_intent"
  else if includes lower "recommend" then Some "nps"
  else if includes lower "often" || includes lower "frequently"
          || includes lower "how often" then Some "frequency"
  else None.

(** [source5[k]]; every call below passes a five-element source and an
    index between 0 and 4. *)
Definition pick (source5 : list string) (k : Z) : string :=
  nth (Z.to_nat k) source5 EmptyString.

(** Interpolate anchor statements from a 5-point template to arbitrary
    size: point [i] takes the source statement of index
    [round(i / (targetSize - 1) * 4)]. *)
Definition interpolateFromTemplate (source5 : list string) (targetSize : Z) : list string :=
  if targetSize =? 5 then source5
  else if targetSize <=? 1 then [pick source5 2]
  else
    map (fun i : nat =>
           let ratio := (inject_Z (Z.of_nat i) / inject_Z (targetSize - 1))%Q in
           let srcIdx := (ratio * 4)%Q in
           let nearestIdx := Qfloor (srcIdx + (1 # 2))%Q in
           pick source5 nearestIdx)
        (seq 0 (Z.to_nat targetSize)).

Definition getAnchorsForSize (semantic : string) (size : Z) : option (list string) :=
  match own TEMPLATES semantic with
  | None => None
  | Some template =>
      match (if size =? 11 then anchors11 template else None) with
      | Some a11 => Some a11
      | None =>
          match (if size =? 7 then anchors7 template else None) with
          | Some a7 => Some a7
          | None =>
              if (size =? 5) && (length (anchors5 template) =? 5)%nat
              then Some (anchors5 template)
              else if (length (anchors5 template) =? 5)%nat && (0 <? size)
              then Some (interpolateFromTemplate (anchors5 template) size)
              else None
          end
      end
  end.

Definition Qltb (a b : Q) : bool := negb (Qle_bool b a).

(** Generate anchor statements by interpolating between custom low/high
    labels. *)
Definition interpolateAnchors (low high : string) (size : Z) : list string :=
  if size <=? 1 then [low ++ ". " ++ high ++ "."]
  else if size =? 2 then [low ++ "."; high ++ "."]
  else
    map (fun i : nat =>
           let ratio := (inject_Z (Z.of_nat i) / inject_Z (size - 1))%Q in
           if Qltb ratio (2 # 10) then
             low ++ ". I feel very " ++ stripIntensifier (toLowerCase low) ++ "."
           else if Qltb ratio (4 # 10) then
             "Leaning toward " ++ toLowerCase low ++ ". I somewhat feel this way."
           else if Qltb ratio (6 # 10) then
             "Neither " ++ toLowerCase low ++ " nor " ++ toLowerCase high ++ ". I feel neutral."
           else if Qltb ratio (8 # 10) then
             "Leaning toward " ++ toLowerCase high ++ ". I somewhat feel this way."
           else
             high ++ ". I feel very " ++ stripIntensifier (toLowerCase high) ++ ".")
        (seq 0 (Z.to_nat size)).

(** *** Public API *)

Definition npsTemplate : list string :=
  match own TEMPLATES "nps" with
  | Some t => match anchors11 t with Some a => a | None => [] end
  | None => []
  end.

Definition agreement5 : list string :=
  match own TEMPLATES "agreement" with
  | Some t => anchors5 t
  | None => []
  end.

(** Resolve anchor statements for a survey question. *)
Definition resolveAnchors (question : SurveyQuestion) : ScaleAnchorSet :=
  let scaleMin :=
    match scaleMin question with
    | Some m => m
    | None => if is_nps (type question) then 0 else 1
    end in
  let scaleMax :=
    match scaleMax question with
    | Some m => m
    | None => if is_nps (type question) then 10 else 5
    end in
  let scaleSize := scaleMax - scaleMin + 1 in
  (* Tier 1: NPS always uses NPS template *)
  if is_nps (type question) then
    {| semantic := "nps"; anchors := npsTemplate;
       set_scaleMin := 0; set_scaleMax := 10 |}
  else
    match scaleAnchors question with
    | Some labels =>
        (* Tier 2: label-based resolution from scaleAnchors *)
        let custom :=
          (* Tier 3: interpolation fallback from custom labels *)
          {| semantic := "custom";
             anchors := interpolateAnchors (low labels) (high labels) scaleSize;
             set_scaleMin := scaleMin; set_scaleMax := scaleMax |} in
        match detectSemanticFromLabels (low labels) (high labels) with
        | Some semantic =>
            match own TEMPLATES semantic with
            | Some _ =>
                match getAnchorsForSize semantic scaleSize with
                | Some anchors =>
                    {| semantic := semantic; anchors := anchors;
                       set_scaleMin := scaleMin; set_scaleMax := scaleMax |}
                | None => custom
                end
            | None => custom
            end
        | None => custom
        end
    | None =>
        let default :=
          (* Default: agreement scale *)
          {| semantic := "agreement";
             anchors :=
               match getAnchorsForSize "agreement" scaleSize with
               | Some defaultAnchors => defaultAnchors
               | None => agreement5
               end;
             set_scaleMin := scaleMin; set_scaleMax := scaleMax |} in
        (* Try to infer semantic from question text *)
        match inferSemanticFromText (text question) with
        | Some inferred =>
            match own TEMPLATES inferred with
            | Some _ =>
                match getAnchorsForSize inferred scaleSize with
                | Some anchors =>
                    {| semantic := inferred; anchors := anchors;
                       set_scaleMin := scaleMin; set_scaleMax := scaleMax |}
                | None => default
                end
            | None => default
            end
        | None => default
        end
    end.

(** A scale definition is valid when its bounds, after the defaults of
    [resolveAnchors], satisfy [max > min], and the recommendation kind has
    its fixed 0-10 bounds. *)
Definition effectiveMin (q : SurveyQuestion) : Z :=
  match scaleMin q with Some m => m | None => if is_nps (type q) then 0 else 1 end.

Definition effectiveMax (q : SurveyQuestion) : Z :=
  match scaleMax q with Some m => m | None => if is_nps (type q) then 10 else 5 end.

Definition valid_scale (q : SurveyQuestion) : Prop :=
  effectiveMin q < effectiveMax q /\
  (type q = nps -> effectiveMin q = 0 /\ effectiveMax q = 10).

(** The optional 7- and 11-point lists of a template have 7 and 11
    statements. *)
Definition template_ok (t : AnchorTemplate) : bool :=
  match anchors7 t with Some a => (length a =? 7)%nat | None => true end
  && match anchors11 t with Some a => (length a =? 11)%nat | None => true end.

(** A question of the calibration scripts. *)
Definition SATISFACTION_Q : SurveyQuestion :=
  {| id := "sat"; type := likert;
     text := "How satisfied are you with the checkout experience?";
     scaleMin := Some 1; scaleMax := Some 5;
     scaleAnchors := Some {| low := "Very dissatisfied"; high := "Very satisfied" |} |}.

End ScaleAnchors.

(* ------------------------------------------------------------------ *)
(** ** Completions

    A call either returns a value or throws.  [TypeError] and [Error] are
    what the code can raise (a method call on [null] or [undefined], an
    explicit [throw new Error]); [InvalidInput] and [InsufficientData] are
    the two error kinds of the specification. *)

Inductive exn : Type :=
| TypeError (message : string)
| Error (message : string)
| InvalidInput
| InsufficientData.

Inductive completion (A : Type) : Type :=
| Normal (a : A)
| Throw (e : exn).

Arguments Normal {A} a.
Arguments Throw {A} e.

Definition bind {A B : Type} (c : completion A) (k : A -> completion B) : completion B :=
  match c with
  | Normal a => k a
  | Throw e => Throw e
  end.

Declare Scope completion_scope.
Delimit Scope completion_scope with completion.
Notation "x <- c ;; k" := (bind c (fun x => k))
  (at level 61, c at next level, right associativity) : completion_scope.
Notation "' pat <- c ;; k" := (bind c (fun x => match x with pat => k end))
  (at level 61, pat pattern, c at next level, right associativity) : completion_scope.

(** [for (const x of xs) { acc = body(acc, x) }] with a body that may throw. *)
Fixpoint foldM {A B : Type} (body : B -> A -> completion B) (xs : list A) (acc : B)
  : completion B :=
  match xs with
  | [] => Normal acc
  | x :: rest => bind (body acc x) (foldM body rest)
  end.

Definition is_TypeError (e : exn) : Prop := exists message, e = TypeError message.

(* ------------------------------------------------------------------ *)
(** ** [embedding-service.ts] *)

Module EmbeddingService.

Local Open Scope js_scope.

Notation "0" := (Fin 0) : js_scope.
Notation "1" := (Fin 1) : js_scope.
Notation "100" := (Fin 100) : js_scope.

Inductive SimilarityNormalization : Type := none | minmax | zscore.

Definition is_none (method : SimilarityNormalization) : bool :=
  match method with none => true | _ => false end.

Inductive InputType : Type := document | query.

Record EmbeddingMappingResult : Type := {
  rating : number;
  distribution : list number;
  confidence : number;
  rawSimilarities : list number
}.

(** [xs.reduce((a, b) => a + b, 0)] *)
Definition sum (xs : list number) : number := fold_left JS.add xs 0.

(** Cosine similarity between two vectors: dot(a,b) / (||a|| * ||b||).
    The loop runs over the indices of [a]. *)
Definition cosineSimilarity (a b : list number) : number :=
  let '(dot, normA, normB) :=
    fold_left
      (fun '(dot, normA, normB) i =>
         (dot + a.[i] * b.[i], normA + a.[i] * a.[i], normB + b.[i] * b.[i]))
      (seq 0 (length a)) (0, 0, 0) in
  let denom := Math.sqrt normA * Math.sqrt normB in
  if denom === 0 then 0 else dot / denom.

(** Cosine similarities between a response vector and each anchor vector. *)
Definition computeSimilarities (responseVec : list number) (anchorVecs : list (list number))
  : list number :=
  map (fun anchor => cosineSimilarity responseVec anchor) anchorVecs.

(** Normalize raw cosine similarities before softmax. *)
Definition normalizeSimilarities (similarities : list number) (method : SimilarityNormalization)
  : list number :=
  let n := JS.of_nat (length similarities) in
  if is_none method || (length similarities <=? 1)%nat then similarities
  else
    match method with
    | minmax =>
        let min := Math.min similarities in
        let max := Math.max similarities in
        let range := max - min in
        if range === 0 then map (fun _ => 1 / n) similarities
        else map (fun s => (s - min) / range) similarities
    | zscore =>
        let mean := sum similarities / n in
        let variance :=
          fold_left (fun sum s => sum + JS.square (s - mean)) similarities 0 / n in
        let std := Math.sqrt variance in
        if std === 0 then map (fun _ => 1 / n) similarities
        else map (fun s => (s - mean) / std) similarities
    | none => similarities
    end.

(** Convert cosine similarities to a probability distribution via softmax. *)
Definition similaritiesToDistribution {libm : Libm}
  (similarities : list number) (temperature : number)
  (normalization : SimilarityNormalization) : list number :=
  (* Normalize first *)
  let normalized := normalizeSimilarities similarities normalization in
  (* Apply temperature scaling *)
  let scaled := map (fun s => s / temperature) normalized in
  (* Softmax with numerical stability (subtract max) *)
  let maxVal := Math.max scaled in
  let exps := map (fun s => Math.exp (s - maxVal)) scaled in
  let sumExps := sum exps in
  map (fun e => e / sumExps) exps.

(** Convert a probability distribution to a single rating (weighted mean,
    rounded). *)
Definition distributionToRating (distribution : list number) (scaleMin : number) : number :=
  let weightedSum :=
    fold_left
      (fun weightedSum i => weightedSum + distribution.[i] * (scaleMin + JS.of_nat i))
      (seq 0 (length distribution)) 0 in
  Math.round weightedSum.

(** [Math.min(Math.max(rating, scaleMin), scaleMax)], the clamp applied to
    a rating in [mapResponseToScale] and in [evaluate]. *)
Definition clamp (rating scaleMin scaleMax : number) : number :=
  Math.min [Math.max [rating; scaleMin]; scaleMax].

(** In-memory anchor cache: a [Map] from cache key to anchor vectors. *)
Definition AnchorCache : Type := list (string * list (list number)).

Fixpoint cache_get (cache : AnchorCache) (key : string) : option (list (list number)) :=
  match cache with
  | [] => None
  | (k, v) :: rest => if String.eqb k key then Some v else cache_get rest key
  end.

Fixpoint cache_set (cache : AnchorCache) (key : string) (v : list (list number)) : AnchorCache :=
  match cache with
  | [] => [(key, v)]
  | (k, w) :: rest =>
      if String.eqb k key then (k, v) :: rest else (k, w) :: cache_set rest key v
  end.

(** The state of a [VoyageEmbeddingService] object. *)
Record VoyageEmbeddingService : Type := {
  apiKey : string;
  anchorCache : AnchorCache
}.

Section Service.

Local Open Scope completion_scope.

Context {libm : Libm}.

(** The embedding provider: [embed(texts, inputType)] returns one vector
    per text or throws on a provider error. *)
Variable embed : list string -> InputType -> completion (list (list number)).

(** [normalizedEntropy] of [./statistics], which is not part of the
    sources at hand. *)
Variable normalizedEntropy : list number -> number.

(** Get or compute anchor embeddings with in-memory caching. *)
Definition getOrComputeAnchorEmbeddings
  (this : VoyageEmbeddingService) (cacheKey : string) (anchorTexts : list string)
  : completion (list (list number) * VoyageEmbeddingService) :=
  match cache_get (anchorCache this) cacheKey with
  | Some cached => Normal (cached, this)
  | None =>
      embeddings <- embed anchorTexts document ;;
      Normal (embeddings,
              {| apiKey := apiKey this;
                 anchorCache := cache_set (anchorCache this) cacheKey embeddings |})
  end.

(** Full pipeline: map a text response to a scale rating using embeddings.
    The result comes with the service in its state after the call. *)
Definition mapResponseToScale
  (this : VoyageEmbeddingService)
  (text : string) (anchorTexts : list string) (anchorCacheKey : string)
  (scaleMin scaleMax temperature : number)
  (normalization : SimilarityNormalization)
  : completion (EmbeddingMappingResult * VoyageEmbeddingService) :=
  (* Get anchor embeddings (cached after first call for this scale type) *)
  '(anchorVecs, this') <-
     getOrComputeAnchorEmbeddings this anchorCacheKey anchorTexts ;;
  (* Embed the response text; [[responseVec]] takes the first vector *)
  vecs <- embed [text] query ;;
  (* Compute raw similarities; reading [length] of a missing response
     vector throws as soon as there is an anchor to compare with *)
  similarities <-
    match vecs, anchorVecs with
    | responseVec :: _, _ => Normal (computeSimilarities responseVec anchorVecs)
    | [], [] => Normal []
    | [], _ :: _ => Throw (TypeError "Cannot read properties of undefined (reading 'length')")
    end ;;
  (* Convert to distribution (normalize + softmax) *)
  let distribution := similaritiesToDistribution similarities temperature normalization in
  (* Compute rating *)
  let rating := distributionToRating distribution scaleMin in
  (* Clamp to valid range *)
  let clampedRating := clamp rating scaleMin scaleMax in
  (* Confidence: 1 - normalized entropy *)
  let confidence :=
    (Math.round ((1 - normalizedEntropy distribution) * 100) / 100)%js in
  Normal ({| rating := clampedRating;
             distribution := distribution;
             confidence := confidence;
             rawSimilarities := similarities |},
          this').

End Service.

(** The similarity scorer of the specification: [computeSimilarities]
    followed by [similaritiesToDistribution].  Neither method has a [throw]
    statement, and reads past the end of an array yield [undefined], so the
    call completes normally on every pair of arrays of numbers. *)
Definition score {libm : Libm}
  (responseVec : list number) (anchorVecs : list (list number))
  (temperature : number) (normalization : SimilarityNormalization)
  : completion (list number) :=
  Normal (similaritiesToDistribution
            (computeSimilarities responseVec anchorVecs) temperature normalization).

End EmbeddingService.

(* ------------------------------------------------------------------ *)
(** ** [ablation-experiment-v2.ts]: entropy-based confidence *)

Module Ablation.

Import EmbeddingService.
Local Open Scope js_scope.

(** [-dist.reduce((h, p) => p > 0 ? h + p * Math.log2(p) : h, 0)] *)
Definition entropy {libm : Libm} (dist : list number) : number :=
  - fold_left (fun h p => if p > 0 then h + p * Math.log2 p else h) dist 0.

Definition maxEntropy {libm : Libm} (dist : list number) : number :=
  Math.log2 (JS.of_nat (length dist)).

Definition confidence {libm : Libm} (dist : list number) : number :=
  if maxEntropy dist > 0
  then Math.round ((1 - entropy dist / maxEntropy dist) * 100) / 100
  else 0.

(** One pass of the scoring loop: similarities to distribution, rating,
    clamped rating and confidence. *)
Definition scoreCase {libm : Libm}
  (sims : list number) (scaleMin scaleMax temperature : number)
  (normalization : SimilarityNormalization) : number * list number * number :=
  let dist := similaritiesToDistribution sims temperature normalization in
  let rating := distributionToRating dist scaleMin in
  let clamped := clamp rating scaleMin scaleMax in
  (clamped, dist, confidence dist).

End Ablation.

(* ------------------------------------------------------------------ *)
(** ** Binary64 products of a count and a decimal constant *)

Module Binary64.

Import PrimFloat.

(** The integer part of a non-negative binary64 value. *)
Definition float_floor (f : PrimFloat.float) : Z :=
  match FloatOps.Prim2SF f with
  | SpecFloat.S754_finite false m e =>
      if (0 <=? e)%Z then Z.shiftl (Zpos m) e else Z.shiftr (Zpos m) (- e)
  | _ => 0%Z
  end.

(** [Math.floor(n * c)] for a count [n] and a binary64 constant [c]. *)
Definition floor_scaled (n : nat) (c : PrimFloat.float) : nat :=
  Z.to_nat (float_floor (PrimFloat.mul (PrimFloat.of_uint63 (Uint63.of_Z (Z.of_nat n))) c)).

(** The binary64 values of the literals [0.7], [0.025] and [0.975]. *)
Definition c0_7 : float := 0x1.6666666666666p-1%float.
Definition c0_025 : float := 0x1.999999999999ap-6%float.
Definition c0_975 : float := 0x1.f333333333333p-1%float.

End Binary64.

(* ------------------------------------------------------------------ *)
(** ** [cross-validation.ts] *)

Module CrossValidation.

Import EmbeddingService.

(** *** Simple seeded PRNG (Mulberry32) *)

Local Open Scope Z_scope.

Definition ToInt32 (x : Z) : Z := (x + 2 ^ 31) mod 2 ^ 32 - 2 ^ 31.
Definition ToUint32 (x : Z) : Z := x mod 2 ^ 32.

(** [Math.imul(a, b)], [a ^ b], [a | b] and [a >>> n] on numbers holding
    integers. *)
Definition imul (a b : Z) : Z := ToInt32 (ToInt32 a * ToInt32 b).
Definition xor (a b : Z) : Z := Z.lxor (ToInt32 a) (ToInt32 b).
Definition or (a b : Z) : Z := Z.lor (ToInt32 a) (ToInt32 b).
Definition ushr (a n : Z) : Z := Z.shiftr (ToUint32 a) n.

(** The generator returned by [mulberry32(seed)] is a closure over the
    mutable [seed]; its state is that variable, an integer-valued number.
    [seed += 0x6d2b79f5] is an addition of numbers: the sum is rounded to
    binary64, which changes it once it exceeds 2^53. *)
Definition rng_state : Type := Z.

Definition mulberry32 (seed : Z) : rng_state := seed.

(** One call of the generator: the 32-bit numerator of the result (the
    result is this value divided by 4294967296) and the next state. *)
Definition rng (seed : rng_state) : Z * rng_state :=
  let seed := Double.roundZ (seed + 0x6d2b79f5) in
  let t := seed in
  let t := imul (xor t (ushr t 15)) (or t 1) in
  let t := xor t (t + imul (xor t (ushr t 7)) (or t 61)) in
  (ushr (xor t (ushr t 14)) 0, seed).

(** [Math.floor(rng() * (i + 1))]: the division of the numerator by 2^32
    is exact, the product is rounded to binary64 (it is exact for an index
    below 2^21). *)
Definition randomIndex (numerator : Z) (i : nat) : nat :=
  Z.to_nat (Double.roundZ (numerator * (Z.of_nat i + 1)) / 4294967296).

Fixpoint update {T : Type} (l : list T) (i : nat) (x : T) : list T :=
  match l, i with
  | [], _ => []
  | _ :: rest, O => x :: rest
  | y :: rest, S i' => y :: update rest i' x
  end.

(** [[a[i], a[j]] = [a[j], a[i]]] *)
Definition swap {T : Type} (a : list T) (i j : nat) : list T :=
  match nth_error a i, nth_error a j with
  | Some ai, Some aj => update (update a i aj) j ai
  | _, _ => a
  end.

(** Fisher-Yates shuffle of a copy of [arr], for [i] from the last index
    down to 1. *)
Definition shuffle {T : Type} (arr : list T) (state : rng_state) : list T * rng_state :=
  fold_left
    (fun '(shuffled, state) i =>
       let '(r, state') := rng state in
       let j := randomIndex r i in
       (swap shuffled i j, state'))
    (rev (seq 1 (length arr - 1)))
    (arr, state).

Local Close Scope Z_scope.

(** The train/test split of each bootstrap repeat: shuffle, then cut at
    [Math.floor(length * 0.7)], the generator state being carried from one
    repeat to the next. *)
Fixpoint foldAssignments {T : Type} (repeats : nat) (cases : list T) (state : rng_state)
  : list (list T * list T) :=
  match repeats with
  | O => []
  | S repeats' =>
      let '(shuffled, state') := shuffle cases state in
      let splitIdx := Binary64.floor_scaled (length shuffled) Binary64.c0_7 in
      (firstn splitIdx shuffled, skipn splitIdx shuffled)
        :: foldAssignments repeats' cases state'
  end.

(** *** Test cases *)

Record TestCase : Type := {
  label : string;
  domain : string;
  text : string;
  expected : number
}.

(** A test case with its precomputed raw similarities (the field
    [anchorVecs] stores similarities, not vectors) and scale bounds. *)
Record EmbeddedTestCase : Type := {
  testCase :> TestCase;
  anchorVecs : list number;
  scaleMin : number;
  scaleMax : number
}.

Record EvalResult : Type := {
  exact : Z;
  withinOne : Z;
  mae : number;
  total : nat;
  exactPct : number;
  withinOnePct : number
}.

Record LODOResult : Type := {
  heldOutDomain : string;
  calibratedTemp : number;
  trainResult : EvalResult;
  testResult : EvalResult
}.

Record BootstrapResult : Type := {
  exactPcts : list number;
  withinOnePcts : list number;
  maes : list number;
  temps : list number
}.

(** What one bootstrap repeat computes. *)
Record BootstrapRepeat : Type := {
  train : list EmbeddedTestCase;
  test : list EmbeddedTestCase;
  temp : number;
  repeatResult : EvalResult
}.

(** The lines of the table printed by [runBootstrap]: mean, standard
    deviation and the two ends of the percentile interval. *)
Record MetricSummary : Type := {
  metricMean : number;
  metricStd : number;
  intervalLow : number;
  intervalHigh : number
}.

Record BootstrapReport : Type := {
  exactSummary : MetricSummary;
  withinOneSummary : MetricSummary;
  maeSummary : MetricSummary;
  tempSummary : MetricSummary
}.

(** [getDomains()]: the distinct domains in order of first occurrence. *)
Fixpoint distinct (seen : list string) (xs : list string) : list string :=
  match xs with
  | [] => []
  | x :: rest =>
      if existsb (String.eqb x) seen then distinct seen rest
      else x :: distinct (x :: seen) rest
  end.

Definition getDomains (TEST_CASES : list TestCase) : list string :=
  distinct [] (map domain TEST_CASES).

(** [[...xs].sort((a, b) => a - b)] as a stable insertion sort; a NaN
    comparison counts as zero. *)
Fixpoint insert (x : number) (sorted : list number) : list number :=
  match sorted with
  | [] => [x]
  | y :: rest => if (x - y > Fin 0)%js then y :: insert x rest else x :: y :: rest
  end.

Definition sort (xs : list number) : list number := fold_right insert [] xs.

Local Open Scope js_scope.

Definition mean (arr : list number) : number := sum arr / JS.of_nat (length arr).

Definition std (arr : list number) : number :=
  let m := mean arr in
  Math.sqrt (fold_left (fun s v => s + JS.square (v - m)) arr 0 / JS.of_nat (length arr)).

Local Close Scope js_scope.

(** *** Configuration in the source *)

Definition NORMALIZATION : SimilarityNormalization := minmax.
Definition CANDIDATE_TEMPS_source : list number :=
  map JS.lit [0.05; 0.1; 0.15; 0.2; 0.25; 0.3; 0.4; 0.5]%R.
Definition BOOTSTRAP_REPEATS_source : nat := 100.
Definition BOOTSTRAP_TRAIN_RATIO : PrimFloat.float := Binary64.c0_7.
Definition SEED_source : Z := 42.

(** The constants [0.025] and [0.975] of the percentile indices. *)
Definition PERCENTILE_LOW : PrimFloat.float := Binary64.c0_025.
Definition PERCENTILE_HIGH : PrimFloat.float := Binary64.c0_975.

(** Two sample cases on a 1-5 scale: five well separated similarities
    with gold rating 5, and five equal similarities with gold rating 3. *)
Definition sampleCases : list EmbeddedTestCase :=
  [ {| testCase := {| label := "SAT-5"; domain := "satisfaction";
                      text := "Excellent checkout experience!"; expected := Fin 5 |};
       anchorVecs := map JS.lit [0.60; 0.65; 0.70; 0.75; 0.90]%R;
       scaleMin := Fin 1; scaleMax := Fin 5 |};
    {| testCase := {| label := "LIK-3"; domain := "likelihood";
                      text := "Maybe. It depends."; expected := Fin 3 |};
       anchorVecs := map JS.lit [0.7; 0.7; 0.7; 0.7; 0.7]%R;
       scaleMin := Fin 1; scaleMax := Fin 5 |} ].

(** A service object with an empty anchor cache. *)
Definition sampleService : VoyageEmbeddingService :=
  {| apiKey := "VOYAGE_API_KEY"; anchorCache := [] |}.

(** A labelled set with a single domain, and the result of evaluating no
    case at all. *)
Definition singleDomainCases : list EmbeddedTestCase := firstn 1 sampleCases.

Definition emptyResult : EvalResult :=
  {| exact := 0; withinOne := 0; mae := NaN; total := 0;
     exactPct := NaN; withinOnePct := NaN |}.

Section Calibration.

Local Open Scope completion_scope.

Context {libm : Libm}.

(** The candidate temperatures, the number of repeats and the seed are
    module constants in the source; the definitions below take them as
    parameters. *)
Variable CANDIDATE_TEMPS : list number.
Variable BOOTSTRAP_REPEATS : nat.
Variable SEED : Z.

(** The labelled cases of [ground-truth-v2.ts]. *)
Variable TEST_CASES : list TestCase.

(** The value of [getEmbeddingService()]: [null] when no API key is set. *)
Variable embeddingService : option VoyageEmbeddingService.

(** [service.method(...)] on a possibly null service. *)
Definition deref (service : option VoyageEmbeddingService)
  : completion VoyageEmbeddingService :=
  match service with
  | Some s => Normal s
  | None => Throw (TypeError "Cannot read properties of null")
  end.

Definition evaluate (cases : list EmbeddedTestCase) (temperature : number)
  : completion EvalResult :=
  let service := embeddingService in
  '(exact, withinOne, totalError) <-
     foldM
       (fun '(exact, withinOne, totalError) tc =>
          _ <- deref service ;;
          let dist := similaritiesToDistribution (anchorVecs tc) temperature NORMALIZATION in
          let rating := distributionToRating dist (scaleMin tc) in
          let clamped := clamp rating (scaleMin tc) (scaleMax tc) in
          let err := Math.abs (clamped - expected tc)%js in
          Normal (if (err === Fin 0)%js then (exact + 1)%Z else exact,
                  if (err <= Fin 1)%js then (withinOne + 1)%Z else withinOne,
                  (totalError + err)%js))
       cases (0%Z, 0%Z, Fin 0) ;;
  let n := JS.of_nat (length cases) in
  Normal {| exact := exact;
            withinOne := withinOne;
            mae := (totalError / n)%js;
            total := length cases;
            exactPct := Math.round ((JS.of_Z exact / n) * Fin 100)%js;
            withinOnePct := Math.round ((JS.of_Z withinOne / n) * Fin 100)%js |}.

(** The test of the selection loop: more exact matches, or as many and a
    smaller mean absolute error. *)
Definition improves (result bestResult : EvalResult) : bool :=
  (exact result >? exact bestResult)%Z
  || ((exact result =? exact bestResult)%Z && (mae result < mae bestResult)%js).

(** The body of the loop over the remaining candidates. *)
Definition selectionStep (trainCases : list EmbeddedTestCase)
  (best : number * EvalResult) (temp : number) : completion (number * EvalResult) :=
  let '(bestTemp, bestResult) := best in
  result <- evaluate trainCases temp ;;
  if improves result bestResult then Normal (temp, result)
  else Normal (bestTemp, bestResult).

Definition findBestTemp (trainCases : list EmbeddedTestCase)
  : completion (number * EvalResult) :=
  let bestTemp := JS.get CANDIDATE_TEMPS 0 in
  bestResult <- evaluate trainCases bestTemp ;;
  foldM (selectionStep trainCases) (tl CANDIDATE_TEMPS) (bestTemp, bestResult).

(** *** Leave-one-domain-out CV *)

(** One fold: calibrate on the other domains, evaluate on the held-out
    one, push the result. *)
Definition lodoStep (embedded : list EmbeddedTestCase)
  (results : list LODOResult) (holdout : string) : completion (list LODOResult) :=
  let trainCases :=
    filter (fun tc : EmbeddedTestCase => negb (String.eqb (domain tc) holdout)) embedded in
  let testCases :=
    filter (fun tc : EmbeddedTestCase => String.eqb (domain tc) holdout) embedded in
  '(temp, trainResult) <- findBestTemp trainCases ;;
  testResult <- evaluate testCases temp ;;
  Normal (results ++ [{| heldOutDomain := holdout;
                         calibratedTemp := temp;
                         trainResult := trainResult;
                         testResult := testResult |}]).

Definition runLODO (embedded : list EmbeddedTestCase) : completion (list LODOResult) :=
  let domains := getDomains TEST_CASES in
  foldM (lodoStep embedded) domains [].

(** *** Bootstrap 70/30 CV *)

(** The body of the bootstrap loop, threading the generator state. *)
Definition bootstrapRepeat (embedded : list EmbeddedTestCase) (state : rng_state)
  : completion (BootstrapRepeat * rng_state) :=
  let '(shuffled, state') := shuffle embedded state in
  let splitIdx := Binary64.floor_scaled (length shuffled) BOOTSTRAP_TRAIN_RATIO in
  let train := firstn splitIdx shuffled in
  let test := skipn splitIdx shuffled in
  '(temp, _) <- findBestTemp train ;;
  testResult <- evaluate test temp ;;
  Normal ({| train := train; test := test; temp := temp; repeatResult := testResult |},
          state').

Fixpoint bootstrapLoop (repeats : nat) (embedded : list EmbeddedTestCase) (state : rng_state)
  : completion (list BootstrapRepeat) :=
  match repeats with
  | O => Normal []
  | S repeats' =>
      '(r, state') <- bootstrapRepeat embedded state ;;
      rest <- bootstrapLoop repeats' embedded state' ;;
      Normal (r :: rest)
  end.

Definition summary (arr : list number) : MetricSummary :=
  let sorted := sort arr in
  let lo := Binary64.floor_scaled BOOTSTRAP_REPEATS PERCENTILE_LOW in
  let hi := Binary64.floor_scaled BOOTSTRAP_REPEATS PERCENTILE_HIGH in
  {| metricMean := mean arr;
     metricStd := std arr;
     intervalLow := JS.get sorted lo;
     intervalHigh := JS.get sorted hi |}.

(** [runBootstrap]: the repeats in order, the four arrays it returns and
    the table of intervals it prints. *)
Definition runBootstrap (embedded : list EmbeddedTestCase)
  : completion (list BootstrapRepeat * BootstrapResult * BootstrapReport) :=
  let rng := mulberry32 SEED in
  repeats <- bootstrapLoop BOOTSTRAP_REPEATS embedded rng ;;
  let exactPcts := map (fun r => exactPct (repeatResult r)) repeats in
  let withinOnePcts := map (fun r => withinOnePct (repeatResult r)) repeats in
  let maes := map (fun r => mae (repeatResult r)) repeats in
  let temps := map temp repeats in
  Normal (repeats,
          {| exactPcts := exactPcts; withinOnePcts := withinOnePcts;
             maes := maes; temps := temps |},
          {| exactSummary := summary exactPcts;
             withinOneSummary := summary withinOnePcts;
             maeSummary := summary maes;
             tempSummary := summary temps |}).

End Calibration.

(** *** What an evaluation reports

    The quantities of the specification, case by case: the absolute error
    of the clamped rating of a case, whether the rating is the expected
    one, and the mean of the errors as the loop accumulates it. *)

Definition caseError {libm : Libm} (temperature : number) (tc : EmbeddedTestCase) : number :=
  let dist := similaritiesToDistribution (anchorVecs tc) temperature NORMALIZATION in
  let rating := distributionToRating dist (scaleMin tc) in
  Math.abs (clamp rating (scaleMin tc) (scaleMax tc) - expected tc)%js.

Definition isExact {libm : Libm} (temperature : number) (tc : EmbeddedTestCase) : bool :=
  (caseError temperature tc === Fin 0)%js.

Definition isWithinOne {libm : Libm} (temperature : number) (tc : EmbeddedTestCase) : bool :=
  (caseError temperature tc <= Fin 1)%js.

Definition count {T : Type} (p : T -> bool) (l : list T) : nat := length (filter p l).

Definition meanError {libm : Libm} (temperature : number) (cases : list EmbeddedTestCase)
  : number :=
  (sum (map (caseError temperature) cases) / JS.of_nat (length cases))%js.

Definition percentage (k n : nat) : number :=
  Math.round ((JS.of_nat k / JS.of_nat n) * Fin 100)%js.

End CrossValidation.

(* ------------------------------------------------------------------ *)
(** ** Real-valued description of the scorer

    What the scorer computes on arrays of real values, written on [R].
    [distributionR] follows the code operation by operation; [softmax] is
    the textbook formula of the specification. *)

Module Ideal.

Import EmbeddingService.
Local Open Scope R_scope.

Definition sumR (xs : list R) : R := fold_left Rplus xs 0.

(** Largest and smallest element of a list ([0] for the empty list, which
    no statement below relies on). *)
Definition maxR (xs : list R) : R :=
  match xs with
  | [] => 0
  | x :: rest => fold_left Rmax rest x
  end.

Definition minR (xs : list R) : R :=
  match xs with
  | [] => 0
  | x :: rest => fold_left Rmin rest x
  end.

Definition meanR (xs : list R) : R := sumR xs / INR (length xs).

Definition varianceR (xs : list R) : R :=
  sumR (map (fun s => (s - meanR xs) * (s - meanR xs)) xs) / INR (length xs).

Definition normalizeR (xs : list R) (method : SimilarityNormalization) : list R :=
  if is_none method || (length xs <=? 1)%nat then xs
  else
    match method with
    | minmax =>
        let range := maxR xs - minR xs in
        if Req_dec_T range 0 then map (fun _ => 1 / INR (length xs)) xs
        else map (fun s => (s - minR xs) / range) xs
    | zscore =>
        let std := sqrt (varianceR xs) in
        if Req_dec_T std 0 then map (fun _ => 1 / INR (length xs)) xs
        else map (fun s => (s - meanR xs) / std) xs
    | none => xs
    end.

(** Every mode maps a similarity [s] to [normalizeFn xs method s], and the
    map is affine with slope [normalizeWeight xs method]: the identity
    (slope 1) without normalization or for at most one similarity, a
    constant (slope 0) when the similarities are all equal, and a rescaling
    by the range or by the standard deviation otherwise. *)
Definition normalizeFn (xs : list R) (method : SimilarityNormalization) : R -> R :=
  if is_none method || (length xs <=? 1)%nat then fun s => s
  else
    match method with
    | minmax =>
        let range := maxR xs - minR xs in
        if Req_dec_T range 0 then fun _ => 1 / INR (length xs)
        else fun s => (s - minR xs) / range
    | zscore =>
        let std := sqrt (varianceR xs) in
        if Req_dec_T std 0 then fun _ => 1 / INR (length xs)
        else fun s => (s - meanR xs) / std
    | none => fun s => s
    end.

Definition normalizeWeight (xs : list R) (method : SimilarityNormalization) : R :=
  if is_none method || (length xs <=? 1)%nat then 1
  else
    match method with
    | minmax =>
        let range := maxR xs - minR xs in
        if Req_dec_T range 0 then 0 else / range
    | zscore =>
        let std := sqrt (varianceR xs) in
        if Req_dec_T std 0 then 0 else / std
    | none => 1
    end.

Definition distributionR (xs : list R) (t : R) (method : SimilarityNormalization) : list R :=
  let scaled := map (fun s => s / t) (normalizeR xs method) in
  let exps := map (fun s => exp (s - maxR scaled)) scaled in
  map (fun e => e / sumR exps) exps.

(** Softmax with temperature [t]: entry [i] is
    [exp (x_i / t) / sum_j exp (x_j / t)]. *)
Definition softmax (t : R) (xs : list R) : list R :=
  map (fun x => exp (x / t) / sumR (map (fun y => exp (y / t)) xs)) xs.

(** Expected value of a distribution over the scale points [lo], [lo + 1],
    ...: the sum of [d_i * (lo + i)]. *)
Fixpoint expectedValue (d : list R) (lo : R) : R :=
  match d with
  | [] => 0
  | p :: rest => p * lo + expectedValue rest (lo + 1)
  end.

(** A probability distribution: non-negative entries that sum to one. *)
Definition is_distribution (d : list R) : Prop :=
  Forall (fun p => 0 <= p) d /\ sumR d = 1.

(** Number of entries equal to [m], and to the largest entry. *)
Definition count_eq (m : R) (xs : list R) : nat :=
  length (filter (fun x => if Req_dec_T x m then true else false) xs).

Definition count_max (xs : list R) : nat := count_eq (maxR xs) xs.

(** The limit of the distribution for small temperatures: the mass is
    shared equally by the entries of largest similarity. *)
Definition sharpLimit (xs : list R) (i : nat) : R :=
  if Req_dec_T (nth i xs 0) (maxR xs) then 1 / INR (count_max xs) else 0.

(** One-hot distribution on the first entry of largest similarity. *)
Fixpoint firstMax (xs : list R) (m : R) : nat :=
  match xs with
  | [] => 0
  | x :: rest => if Req_dec_T x m then 0 else S (firstMax rest m)
  end.

Definition oneHot (xs : list R) (i : nat) : R :=
  if Nat.eqb i (firstMax xs (maxR xs)) then 1 else 0.

(** [f t] tends to [l] when [t] tends to infinity, and when [t] tends to
    [0] from above. *)
Definition tends_at_infinity (f : R -> R) (l : R) : Prop :=
  forall eps, 0 < eps -> exists T, 0 < T /\ forall t, T < t -> Rabs (f t - l) < eps.

Definition tends_at_zero (f : R -> R) (l : R) : Prop :=
  forall eps, 0 < eps -> exists delta, 0 < delta /\
    forall t, 0 < t -> t < delta -> Rabs (f t - l) < eps.

(** A distribution split between the two ends of a three-point scale. *)
Definition splitDistribution : list R := [/ 2; 0; / 2].

(** The similarities of the two concrete scenarios of the specification. *)
Definition scenarioSims : list R := [0.60; 0.65; 0.70; 0.75; 0.90].
Definition equalSims : list R := [0.7; 0.7; 0.7; 0.7; 0.7].

(** Entry [i] of a list of numbers holding real values ([0] elsewhere). *)
Definition entry (d : list number) (i : nat) : R :=
  match nth_error d i with
  | Some (Fin p) => p
  | _ => 0
  end.

(** The binary64 numbers 0.55, 0.4 and 0.04999999999999993. *)
Definition halfwayDistribution : list R :=
  [IZR 4953959590107546 * Double.bpow (-53);
   IZR 7205759403792794 * Double.bpow (-54);
   IZR 7205759403792784 * Double.bpow (-57)].

(** The value [e] that the code computes for [Math.exp(s - maxVal)], for a
    scaled similarity [s] and the largest one [M]: between 0 and 2, exactly
    1 for the largest similarity itself, and off by at most the rounding of
    the difference and of the exponential. *)
Definition shifted (M s e : R) : Prop :=
  0 <= e <= 2 /\ (s = M -> e = 1) /\
  Rabs (e - exp (s - M)) <= Double.bpow (-51) + Double.eps * Rabs (s - M).

End Ideal.

(** ** Min-max normalization on real values, each operation rounded *)

Module Rounded.

Import Ideal.
Local Open Scope R_scope.

(** What [normalizeSimilarities(xs, "minmax")] computes for two or more
    real similarities that are not too large. *)
Definition normalizeMinmax (xs : list R) : list R :=
  let range := Double.round (maxR xs - minR xs) in
  if Req_dec_T range 0 then map (fun _ => Double.round (1 / INR (length xs))) xs
  else map (fun s => Double.round (Double.round (s - minR xs) / range)) xs.

End Rounded.

(* ================================================================== *)
(** * Part II.  Properties                                             *)
(* ================================================================== *)

(** ** Anchor resolution *)

Section AnchorResolution.

Import ScaleAnchors.
Local Open Scope string_scope.
Local Open Scope Z_scope.

Lemma templates_ok : forallb (fun e => template_ok (snd e)) TEMPLATES = true.
Proof. vm_compute. reflexivity. Qed.

Lemma own_In (A : Type) (table : list (string * A)) key v :
  own table key = Some v -> In (key, v) table.
Proof.
  induction table as [|[k w] rest IH]; simpl; [discriminate|].
  destruct (String.eqb k key) eqn:E.
  - intros [= ->]. apply String.eqb_eq in E. subst. now left.
  - intros H. right. auto.
Qed.

Lemma own_template_ok key t : own TEMPLATES key = Some t -> template_ok t = true.
Proof.
  intros H. apply own_In in H.
  pose proof templates_ok as Hall. rewrite forallb_forall in Hall.
  exact (Hall _ H).
Qed.

Lemma interpolateFromTemplate_length source5 size :
  2 <= size -> length source5 = 5%nat ->
  length (interpolateFromTemplate source5 size) = Z.to_nat size.
Proof.
  intros Hsize Hlen. unfold interpolateFromTemplate.
  destruct (Z.eqb_spec size 5) as [->|_]; [now rewrite Hlen|].
  destruct (Z.leb_spec size 1); [lia|].
  now rewrite length_map, length_seq.
Qed.

Lemma getAnchorsForSize_length sem size l :
  2 <= size -> getAnchorsForSize sem size = Some l -> length l = Z.to_nat size.
Proof.
  intros Hsize. unfold getAnchorsForSize.
  destruct (own TEMPLATES sem) as [t|] eqn:Ht; [|discriminate].
  apply own_template_ok in Ht. unfold template_ok in Ht.
  apply andb_prop in Ht as [H7 H11].
  destruct (Z.eqb_spec size 11) as [->|_].
  - destruct (anchors11 t) as [a|].
    + intros [= <-]. apply Nat.eqb_eq in H11. now rewrite H11.
    + simpl.
      destruct (length (anchors5 t) =? 5)%nat eqn:E5; simpl; [|discriminate].
      intros [= <-]. apply Nat.eqb_eq in E5.
      now apply interpolateFromTemplate_length.
  - destruct (Z.eqb_spec size 7) as [->|_].
    + destruct (anchors7 t) as [a|].
      * intros [= <-]. apply Nat.eqb_eq in H7. now rewrite H7.
      * simpl.
        destruct (length (anchors5 t) =? 5)%nat eqn:E5; simpl; [|discriminate].
        intros [= <-]. apply Nat.eqb_eq in E5.
        now apply interpolateFromTemplate_length.
    + destruct (Z.eqb_spec size 5) as [->|_]; simpl.
      * destruct (length (anchors5 t) =? 5)%nat eqn:E5; simpl; [|discriminate].
        intros [= <-]. apply Nat.eqb_eq in E5. now rewrite E5.
      * destruct (length (anchors5 t) =? 5)%nat eqn:E5; simpl; [|discriminate].
        destruct (Z.ltb_spec 0 size); [|lia].
        intros [= <-]. apply Nat.eqb_eq in E5.
        now apply interpolateFromTemplate_length.
Qed.

Lemma interpolateAnchors_length lo hi size :
  2 <= size -> length (interpolateAnchors lo hi size) = Z.to_nat size.
Proof.
  intros Hsize. unfold interpolateAnchors.
  destruct (Z.leb_spec size 1); [lia|].
  destruct (Z.eqb_spec size 2) as [->|_]; [reflexivity|].
  now rewrite length_map, length_seq.
Qed.

Lemma agreement5_length : length agreement5 = 5%nat.
Proof. reflexivity. Qed.

Lemma npsTemplate_length : length npsTemplate = 11%nat.
Proof. reflexivity. Qed.

(** The agreement family has an anchor list for every positive size, so
    the last fallback of [resolveAnchors] is never taken. *)
Lemma agreement_always size :
  0 < size -> getAnchorsForSize "agreement" size <> None.
Proof.
  intros Hsize. unfold getAnchorsForSize.
  change (own TEMPLATES "agreement") with
    (Some (snd (nth 0 TEMPLATES (EmptyString, Build_AnchorTemplate [] None None)))).
  cbn [snd nth TEMPLATES anchors11 anchors7 anchors5].
  destruct (size =? 11); [destruct (size =? 7)|destruct (size =? 7)];
    try discriminate;
    destruct (size =? 5); simpl; try discriminate;
    destruct (Z.ltb_spec 0 size); try discriminate; lia.
Qed.

(** The anchor list has as many statements as the returned bounds span,
    for every question with more than one scale point. *)
Lemma resolveAnchors_length_returned q :
  effectiveMin q < effectiveMax q ->
  Z.of_nat (length (anchors (resolveAnchors q)))
  = set_scaleMax (resolveAnchors q) - set_scaleMin (resolveAnchors q) + 1.
Proof.
  intros Hlt. unfold resolveAnchors.
  fold (effectiveMin q). fold (effectiveMax q).
  set (size := effectiveMax q - effectiveMin q + 1).
  assert (Hsize : 2 <= size) by (unfold size; lia).
  destruct (is_nps (type q)); [reflexivity|].
  destruct (scaleAnchors q) as [labels|].
  - assert (Hcustom :
      Z.of_nat (length (interpolateAnchors (low labels) (high labels) size)) = size).
    { rewrite interpolateAnchors_length by exact Hsize. lia. }
    destruct (detectSemanticFromLabels (low labels) (high labels)) as [sem|];
      [|cbn [anchors set_scaleMin set_scaleMax]; fold size; lia].
    destruct (own TEMPLATES sem);
      [|cbn [anchors set_scaleMin set_scaleMax]; fold size; lia].
    destruct (getAnchorsForSize sem size) as [l|] eqn:E;
      [|cbn [anchors set_scaleMin set_scaleMax]; fold size; lia].
    cbn [anchors set_scaleMin set_scaleMax].
    rewrite (getAnchorsForSize_length _ Hsize E). fold size. lia.
  - assert (Hdefault :
      Z.of_nat (length match getAnchorsForSize "agreement" size with
                       | Some a => a
                       | None => agreement5
                       end) = size).
    { destruct (getAnchorsForSize "agreement" size) as [l|] eqn:E.
      - rewrite (getAnchorsForSize_length _ Hsize E). lia.
      - exfalso. apply (@agreement_always size); [lia|exact E]. }
    destruct (inferSemanticFromText (text q)) as [sem|];
      [|cbn [anchors set_scaleMin set_scaleMax]; fold size; lia].
    destruct (own TEMPLATES sem);
      [|cbn [anchors set_scaleMin set_scaleMax]; fold size; lia].
    destruct (getAnchorsForSize sem size) as [l|] eqn:E;
      [|cbn [anchors set_scaleMin set_scaleMax]; fold size; lia].
    cbn [anchors set_scaleMin set_scaleMax].
    rewrite (getAnchorsForSize_length _ Hsize E). fold size. lia.
Qed.

Lemma resolveAnchors_bounds q :
  valid_scale q ->
  set_scaleMin (resolveAnchors q) = effectiveMin q /\
  set_scaleMax (resolveAnchors q) = effectiveMax q.
Proof.
  intros [_ Hnps]. unfold resolveAnchors.
  fold (effectiveMin q). fold (effectiveMax q).
  destruct (is_nps (type q)) eqn:Enps.
  - assert (Ety : type q = nps) by (destruct (type q); try discriminate; reflexivity).
    destruct (Hnps Ety) as [-> ->]. now split.
  - destruct (scaleAnchors q) as [labels|].
    + destruct (detectSemanticFromLabels (low labels) (high labels)) as [sem|];
        [|now split].
      destruct (own TEMPLATES sem); [|now split].
      destruct (getAnchorsForSize sem _); now split.
    + destruct (inferSemanticFromText (text q)) as [sem|]; [|now split].
      destruct (own TEMPLATES sem); [|now split].
      destruct (getAnchorsForSize sem _); now split.
Qed.

(** C3.  For every valid scale definition, [resolveAnchors] returns an
    anchor set (it is a total function) whose anchor list has
    [max - min + 1] statements. *)
Theorem resolveAnchors_length (q : SurveyQuestion) :
  valid_scale q ->
  exists set : ScaleAnchorSet,
    resolveAnchors q = set /\
    Z.of_nat (length (anchors set)) = effectiveMax q - effectiveMin q + 1.
Proof.
  intros Hvalid. exists (resolveAnchors q). split; [reflexivity|].
  destruct (resolveAnchors_bounds Hvalid) as [Hmin Hmax].
  rewrite resolveAnchors_length_returned by apply Hvalid.
  now rewrite Hmin, Hmax.
Qed.

Lemma resolveAnchors_length_witness :
  valid_scale SATISFACTION_Q /\
  exists set : ScaleAnchorSet,
    resolveAnchors SATISFACTION_Q = set /\
    Z.of_nat (length (anchors set)) = 5.
Proof.
  assert (H : valid_scale SATISFACTION_Q).
  { split; [reflexivity|discriminate]. }
  split; [exact H|]. exact (resolveAnchors_length H).
Defined.

Example resolve_satisfaction :
  semantic (resolveAnchors SATISFACTION_Q) = "satisfaction" /\
  nth 2 (anchors (resolveAnchors SATISFACTION_Q)) EmptyString
  = "It was okay. Nothing special, not bad but not good either. Pretty average and forgettable.".
Proof. split; reflexivity. Qed.

(** A 9-point question without labels whose text mentions a
    recommendation: the 11-point ladder does not fit, so the agreement
    family is resampled at the indices 0 1 1 2 2 3 3 4 4. *)
Example resolve_nine_points :
  let q := {| id := "q9"; type := likert; text := "Would you recommend us?";
              scaleMin := Some 1; scaleMax := Some 9; scaleAnchors := None |} in
  semantic (resolveAnchors q) = "agreement" /\
  anchors (resolveAnchors q)
  = map (fun k => nth k agreement5 EmptyString) [0; 1; 1; 2; 2; 3; 3; 4; 4]%nat.
Proof. split; reflexivity. Qed.

(** Labels of no known family on a 6-point scale are interpolated. *)
Example resolve_custom :
  let q := {| id := "q6"; type := likert; text := "How was it?";
              scaleMin := Some 1; scaleMax := Some 6;
              scaleAnchors := Some {| low := "Bad"; high := "Extremely Good" |} |} in
  semantic (resolveAnchors q) = "custom" /\
  anchors (resolveAnchors q)
  = [ "Bad. I feel very bad.";
      "Leaning toward bad. I somewhat feel this way.";
      "Neither bad nor extremely good. I feel neutral.";
      "Leaning toward extremely good. I somewhat feel this way.";
      "Extremely Good. I feel very good.";
      "Extremely Good. I feel very good." ].
Proof. split; reflexivity. Qed.

(** A recommendation question keeps its eleven anchors whatever bounds it
    carries. *)
Lemma resolveAnchors_nps_fixed q :
  type q = nps -> length (anchors (resolveAnchors q)) = 11%nat.
Proof. intros H. unfold resolveAnchors. now rewrite H. Qed.

End AnchorResolution.

(** ** Arithmetic on numbers that hold real values *)

Section FiniteNumbers.

Local Open Scope R_scope.

Lemma max2_fin a b : Math.max2 (Fin a) (Fin b) = Fin (Rmax a b).
Proof.
  unfold Math.max2, JS.lt, Rmax.
  destruct (Rlt_dec a b), (Rle_dec a b); try reflexivity; try lra.
  f_equal. lra.
Qed.

Lemma min2_fin a b : Math.min2 (Fin a) (Fin b) = Fin (Rmin a b).
Proof.
  unfold Math.min2, JS.lt, Rmin.
  destruct (Rlt_dec b a), (Rle_dec a b); try reflexivity; lra.
Qed.

Lemma fold_max2_fin l x :
  fold_left Math.max2 (map Fin l) (Fin x) = Fin (fold_left Rmax l x).
Proof.
  revert x. induction l as [|y l IH]; intros x; cbn [fold_left map]; [reflexivity|].
  rewrite max2_fin. apply IH.
Qed.

Lemma fold_min2_fin l x :
  fold_left Math.min2 (map Fin l) (Fin x) = Fin (fold_left Rmin l x).
Proof.
  revert x. induction l as [|y l IH]; intros x; cbn [fold_left map]; [reflexivity|].
  rewrite min2_fin. apply IH.
Qed.

Lemma max_fin l : l <> [] -> Math.max (map Fin l) = Fin (Ideal.maxR l).
Proof.
  destruct l as [|x l]; [congruence|]. intros _.
  unfold Math.max. cbn [fold_left map]. apply fold_max2_fin.
Qed.

Lemma min_fin l : l <> [] -> Math.min (map Fin l) = Fin (Ideal.minR l).
Proof.
  destruct l as [|x l]; [congruence|]. intros _.
  unfold Math.min. cbn [fold_left map]. apply fold_min2_fin.
Qed.

(** [Math.floor] and [Math.round] on reals. *)
Lemma floorR_spec x z : IZR z <= x -> x < IZR z + 1 -> Math.floorR x = z.
Proof.
  intros Hlo Hhi. unfold Math.floorR.
  assert (H : (z + 1)%Z = up x).
  { apply up_tech; [exact Hlo|]. rewrite plus_IZR. exact Hhi. }
  lia.
Qed.

Lemma floorR_bounds x : IZR (Math.floorR x) <= x < IZR (Math.floorR x) + 1.
Proof.
  unfold Math.floorR. rewrite minus_IZR.
  destruct (archimed x) as [H1 H2]. split; lra.
Qed.

Lemma roundR_IZR z : Math.roundR (IZR z) = z.
Proof. unfold Math.roundR. apply floorR_spec; lra. Qed.

Lemma roundR_between x (lo hi : Z) :
  IZR lo <= x -> x <= IZR hi -> (lo <= Math.roundR x <= hi)%Z.
Proof.
  intros Hlo Hhi. unfold Math.roundR.
  destruct (floorR_bounds (x + / 2)) as [H1 H2].
  split.
  - apply Z.lt_succ_r. apply lt_IZR. rewrite succ_IZR. lra.
  - apply Z.lt_succ_r. apply lt_IZR. rewrite succ_IZR. lra.
Qed.

End FiniteNumbers.

(** ** Sums, maxima and minima of lists of reals *)

Section RealLists.

Import Ideal.
Local Open Scope R_scope.

Lemma fold_Rplus_acc l a : fold_left Rplus l a = a + fold_left Rplus l 0.
Proof.
  revert a. induction l as [|x l IH]; intros a; simpl; [lra|].
  rewrite (IH (a + x)), (IH (0 + x)). lra.
Qed.

Lemma sumR_nil : sumR [] = 0.
Proof. reflexivity. Qed.

Lemma sumR_cons x l : sumR (x :: l) = x + sumR l.
Proof. unfold sumR. simpl. rewrite fold_Rplus_acc. lra. Qed.

Lemma sumR_app l1 l2 : sumR (l1 ++ l2) = sumR l1 + sumR l2.
Proof.
  induction l1 as [|x l1 IH]; simpl.
  - rewrite sumR_nil. lra.
  - rewrite !sumR_cons, IH. lra.
Qed.

Lemma sumR_map_scale (f : R -> R) c l :
  sumR (map (fun x => f x * c) l) = sumR (map f l) * c.
Proof.
  induction l as [|x l IH]; simpl.
  - rewrite sumR_nil. lra.
  - rewrite !sumR_cons, IH. lra.
Qed.

Lemma sumR_map_div c l : sumR (map (fun e => e / c) l) = sumR l / c.
Proof.
  induction l as [|x l IH]; simpl.
  - rewrite sumR_nil. unfold Rdiv. lra.
  - rewrite !sumR_cons, IH. unfold Rdiv. lra.
Qed.

Lemma sumR_nonneg l : Forall (fun x => 0 <= x) l -> 0 <= sumR l.
Proof.
  induction 1 as [|x l Hx _ IH]; [rewrite sumR_nil; lra|].
  rewrite sumR_cons. lra.
Qed.

Lemma sumR_pos l : l <> [] -> Forall (fun x => 0 < x) l -> 0 < sumR l.
Proof.
  intros Hne Hall. destruct Hall as [|x l Hx Hl]; [congruence|].
  rewrite sumR_cons.
  assert (0 <= sumR l).
  { apply sumR_nonneg. eapply Forall_impl; [|exact Hl]. simpl. intros; lra. }
  lra.
Qed.

(** Termwise comparison of two sums over the same index list. *)
Lemma sumR_map_le (A : Type) (f g : A -> R) (l : list A) :
  (forall a, In a l -> f a <= g a) -> sumR (map f l) <= sumR (map g l).
Proof.
  induction l as [|a l IH]; intros H; simpl.
  - rewrite sumR_nil. lra.
  - rewrite !sumR_cons.
    assert (f a <= g a) by (apply H; now left).
    assert (sumR (map f l) <= sumR (map g l)) by (apply IH; intros; apply H; now right).
    lra.
Qed.

Lemma sumR_map_ext (A : Type) (f g : A -> R) (l : list A) :
  (forall a, In a l -> f a = g a) -> sumR (map f l) = sumR (map g l).
Proof.
  intros H. f_equal. apply map_ext_in. exact H.
Qed.

Lemma fold_Rmax_ge l x : x <= fold_left Rmax l x.
Proof.
  revert x. induction l as [|y l IH]; intros x; simpl; [lra|].
  pose proof (IH (Rmax x y)). pose proof (Rmax_l x y). lra.
Qed.

Lemma fold_Rmax_In_ge l x y : In y l -> y <= fold_left Rmax l x.
Proof.
  revert x. induction l as [|z l IH]; intros x; simpl; [tauto|].
  intros [->|Hin]; [|now apply IH].
  pose proof (fold_Rmax_ge l (Rmax x y)). pose proof (Rmax_r x y). lra.
Qed.

Lemma fold_Rmax_In l x : fold_left Rmax l x = x \/ In (fold_left Rmax l x) l.
Proof.
  revert x. induction l as [|z l IH]; intros x; simpl; [now left|].
  destruct (IH (Rmax x z)) as [H|H]; [|now right; right].
  rewrite H. unfold Rmax. destruct (Rle_dec x z); [right; now left|now left].
Qed.

Lemma fold_Rmin_le l x : fold_left Rmin l x <= x.
Proof.
  revert x. induction l as [|y l IH]; intros x; simpl; [lra|].
  pose proof (IH (Rmin x y)). pose proof (Rmin_l x y). lra.
Qed.

Lemma fold_Rmin_In_le l x y : In y l -> fold_left Rmin l x <= y.
Proof.
  revert x. induction l as [|z l IH]; intros x; simpl; [tauto|].
  intros [->|Hin]; [|now apply IH].
  pose proof (fold_Rmin_le l (Rmin x y)). pose proof (Rmin_r x y). lra.
Qed.

Lemma fold_Rmin_In l x : fold_left Rmin l x = x \/ In (fold_left Rmin l x) l.
Proof.
  revert x. induction l as [|z l IH]; intros x; simpl; [now left|].
  destruct (IH (Rmin x z)) as [H|H]; [|now right; right].
  rewrite H. unfold Rmin. destruct (Rle_dec x z); [now left|right; now left].
Qed.

Lemma maxR_ge l y : In y l -> y <= maxR l.
Proof.
  destruct l as [|x l]; [contradiction|]. simpl.
  intros [->|H]; [apply fold_Rmax_ge|now apply fold_Rmax_In_ge].
Qed.

Lemma maxR_In l : l <> [] -> In (maxR l) l.
Proof.
  destruct l as [|x l]; [congruence|]. intros _. simpl.
  destruct (fold_Rmax_In l x) as [H|H]; [left; now rewrite H|now right].
Qed.

Lemma minR_le l y : In y l -> minR l <= y.
Proof.
  destruct l as [|x l]; [contradiction|]. simpl.
  intros [->|H]; [apply fold_Rmin_le|now apply fold_Rmin_In_le].
Qed.

Lemma minR_In l : l <> [] -> In (minR l) l.
Proof.
  destruct l as [|x l]; [congruence|]. intros _. simpl.
  destruct (fold_Rmin_In l x) as [H|H]; [left; now rewrite H|now right].
Qed.

(** The largest element is characterised by being an upper bound that
    belongs to the list. *)
Lemma maxR_unique l m : In m l -> (forall y, In y l -> y <= m) -> maxR l = m.
Proof.
  intros Hin Hub.
  assert (Hne : l <> []) by (destruct l; [contradiction|discriminate]).
  pose proof (maxR_In Hne). pose proof (maxR_ge l m Hin).
  pose proof (Hub _ H). lra.
Qed.

Lemma minR_unique l m : In m l -> (forall y, In y l -> m <= y) -> minR l = m.
Proof.
  intros Hin Hlb.
  assert (Hne : l <> []) by (destruct l; [contradiction|discriminate]).
  pose proof (minR_In Hne). pose proof (minR_le l m Hin).
  pose proof (Hlb _ H). lra.
Qed.

Lemma minR_le_maxR l : l <> [] -> minR l <= maxR l.
Proof.
  intros Hne. pose proof (minR_In Hne) as H. now apply maxR_ge.
Qed.

End RealLists.

(** ** The softmax formula on real values *)

Section SoftmaxFormula.

Import EmbeddingService Ideal.
Local Open Scope R_scope.

Lemma INR_length_pos (A : Type) (l : list A) : l <> [] -> 0 < INR (length l).
Proof.
  destruct l; [congruence|]. intros _. apply lt_0_INR. simpl. lia.
Qed.

Lemma varianceR_nonneg l : 0 <= varianceR l.
Proof.
  unfold varianceR. destruct l as [|x l].
  - simpl. rewrite sumR_nil. unfold Rdiv. rewrite Rmult_0_l. lra.
  - apply Rmult_le_pos.
    + apply sumR_nonneg. apply Forall_forall. intros y Hy.
      apply in_map_iff in Hy as [s [<- _]]. apply Rle_0_sqr.
    + left. apply Rinv_0_lt_compat. apply INR_length_pos. discriminate.
Qed.

Lemma normalizeR_length xs method : length (normalizeR xs method) = length xs.
Proof.
  unfold normalizeR.
  destruct (is_none method || (length xs <=? 1)%nat); [reflexivity|].
  destruct method; [reflexivity| |].
  - destruct (Req_dec_T _ 0); now rewrite length_map.
  - destruct (Req_dec_T _ 0); now rewrite length_map.
Qed.

Lemma exps_positive (l : list R) m :
  Forall (fun x => 0 < x) (map (fun s => exp (s - m)) l).
Proof.
  apply Forall_forall. intros x Hx. apply in_map_iff in Hx as [s [<- _]].
  apply exp_pos.
Qed.

Lemma distributionR_length xs t method :
  length (distributionR xs t method) = length xs.
Proof.
  unfold distributionR. now rewrite !length_map, normalizeR_length.
Qed.

(** The shifted exponentials of the code give the softmax formula. *)
Lemma distributionR_softmax xs t method :
  distributionR xs t method = softmax t (normalizeR xs method).
Proof.
  unfold distributionR, softmax.
  set (n := normalizeR xs method).
  set (m := maxR (map (fun s => s / t) n)).
  rewrite !map_map.
  assert (Hsum :
    sumR (map (fun x => exp (x / t - m)) n)
    = sumR (map (fun y => exp (y / t)) n) * exp (- m)).
  { rewrite <- sumR_map_scale. apply sumR_map_ext. intros a _.
    rewrite <- exp_plus. reflexivity. }
  apply map_ext_in. intros x Hx. rewrite Hsum.
  replace (x / t - m) with (x / t + - m) by lra. rewrite exp_plus.
  assert (0 < exp (- m)) by apply exp_pos.
  assert (0 < sumR (map (fun y => exp (y / t)) n)).
  { apply sumR_pos.
    - destruct n; [contradiction|discriminate].
    - apply Forall_forall. intros y Hy. apply in_map_iff in Hy as [s [<- _]].
      apply exp_pos. }
  field. split; lra.
Qed.

Lemma softmax_sum t xs : xs <> [] -> sumR (softmax t xs) = 1.
Proof.
  intros Hne. unfold softmax.
  set (S := sumR (map (fun y => exp (y / t)) xs)).
  assert (HS : 0 < S).
  { apply sumR_pos.
    - destruct xs; [congruence|discriminate].
    - apply Forall_forall. intros y Hy. apply in_map_iff in Hy as [s [<- _]].
      apply exp_pos. }
  rewrite <- (map_map (fun x => exp (x / t)) (fun e => e / S)).
  rewrite sumR_map_div. fold S. field. lra.
Qed.

Lemma softmax_positive t xs : Forall (fun p => 0 < p) (softmax t xs).
Proof.
  apply Forall_forall. intros p Hp. unfold softmax in Hp.
  apply in_map_iff in Hp as [x [<- Hx]].
  apply Rdiv_lt_0_compat; [apply exp_pos|].
  apply sumR_pos.
  - destruct xs; [contradiction|discriminate].
  - apply Forall_forall. intros y Hy. apply in_map_iff in Hy as [s [<- _]].
    apply exp_pos.
Qed.

End SoftmaxFormula.


(** ** Lengths *)

Section Lengths.

Import EmbeddingService.
Context {libm : Libm}.

Lemma normalizeSimilarities_length similarities method :
  length (normalizeSimilarities similarities method) = length similarities.
Proof.
  unfold normalizeSimilarities.
  destruct (is_none method || (length similarities <=? 1)%nat); [reflexivity|].
  destruct method; [reflexivity| |].
  - destruct (JS.strict_eq _ _); now rewrite length_map.
  - destruct (JS.strict_eq _ _); now rewrite length_map.
Qed.

Lemma similaritiesToDistribution_length similarities temperature normalization :
  length (similaritiesToDistribution similarities temperature normalization)
  = length similarities.
Proof.
  unfold similaritiesToDistribution.
  now rewrite !length_map, normalizeSimilarities_length.
Qed.

Lemma computeSimilarities_length responseVec anchorVecs :
  length (computeSimilarities responseVec anchorVecs) = length anchorVecs.
Proof. unfold computeSimilarities. apply length_map. Qed.

End Lengths.
(** ** Binary64 rounding: error, monotonicity, fixed points *)

Unset Implicit Arguments.

Section DoubleFacts.

Import Double.
Local Open Scope R_scope.

Lemma floorZ_bounds x : IZR (floorZ x) <= x < IZR (floorZ x) + 1.
Proof.
  unfold floorZ. rewrite minus_IZR.
  destruct (archimed x) as [H1 H2]. split; lra.
Qed.

Lemma floorZ_spec x z : IZR z <= x -> x < IZR z + 1 -> floorZ x = z.
Proof.
  intros Hlo Hhi. unfold floorZ.
  assert (H : (z + 1)%Z = up x).
  { apply up_tech; [exact Hlo|]. rewrite plus_IZR. exact Hhi. }
  lia.
Qed.

Lemma floorZ_IZR k : floorZ (IZR k) = k.
Proof. apply floorZ_spec; lra. Qed.

Lemma floorZ_ge x k : IZR k <= x -> (k <= floorZ x)%Z.
Proof.
  intros H. destruct (floorZ_bounds x) as [_ Hhi].
  apply Z.lt_succ_r. apply lt_IZR. rewrite succ_IZR. lra.
Qed.

Lemma floorZ_le x y : x <= y -> (floorZ x <= floorZ y)%Z.
Proof.
  intros H. apply floorZ_ge. destruct (floorZ_bounds x). lra.
Qed.

Lemma ln2_pos : 0 < ln 2.
Proof. rewrite <- ln_1. apply ln_increasing; lra. Qed.

Lemma bpow_pos e : 0 < bpow e.
Proof. apply exp_pos. Qed.

Lemma bpow_add a b : bpow (a + b) = bpow a * bpow b.
Proof. unfold bpow. rewrite plus_IZR, Rmult_plus_distr_r. apply exp_plus. Qed.

Lemma bpow_0 : bpow 0 = 1.
Proof. unfold bpow. rewrite Rmult_0_l. apply exp_0. Qed.

Lemma bpow_1 : bpow 1 = 2.
Proof. unfold bpow. rewrite Rmult_1_l. apply exp_ln. lra. Qed.

Lemma bpow_opp e : bpow (- e) = / bpow e.
Proof.
  pose proof (bpow_pos e) as Hp.
  apply Rmult_eq_reg_l with (bpow e); [|lra].
  rewrite <- bpow_add, Z.add_opp_diag_r, bpow_0. field. lra.
Qed.

Lemma bpow_lt a b : (a < b)%Z -> bpow a < bpow b.
Proof.
  intros H. unfold bpow. apply exp_increasing.
  apply Rmult_lt_compat_r; [apply ln2_pos|now apply IZR_lt].
Qed.

Lemma bpow_le a b : (a <= b)%Z -> bpow a <= bpow b.
Proof.
  intros H. destruct (Z.eq_dec a b) as [->|Hne]; [lra|].
  left. apply bpow_lt. lia.
Qed.

Lemma bpow_lt_inv a b : bpow a < bpow b -> (a < b)%Z.
Proof.
  intros H. destruct (Z.lt_ge_cases a b) as [Hlt|Hge]; [exact Hlt|].
  pose proof (bpow_le _ _ Hge). lra.
Qed.

Lemma bpow_nonneg_IZR e : (0 <= e)%Z -> bpow e = IZR (2 ^ e).
Proof.
  intros He. pattern e. apply natlike_ind; [| |exact He].
  - now rewrite bpow_0.
  - intros x Hx IH. unfold Z.succ. rewrite bpow_add, IH, bpow_1.
    rewrite Z.pow_add_r by lia. rewrite mult_IZR. reflexivity.
Qed.

Lemma bpow_neg_IZR e : (0 <= e)%Z -> bpow (- e) = / IZR (2 ^ e).
Proof. intros He. now rewrite bpow_opp, bpow_nonneg_IZR. Qed.

(** [mag] *)
Lemma mag_spec x : x <> 0 -> bpow (mag x - 1) <= Rabs x < bpow (mag x).
Proof.
  intros Hx. unfold mag, bpow.
  assert (Habs : 0 < Rabs x) by now apply Rabs_pos_lt.
  pose proof ln2_pos as H2.
  destruct (floorZ_bounds (ln (Rabs x) / ln 2)) as [Hlo Hhi].
  set (f := floorZ (ln (Rabs x) / ln 2)) in *.
  replace (f + 1 - 1)%Z with f by lia.
  assert (Hl : ln (Rabs x) = ln (Rabs x) / ln 2 * ln 2) by (field; lra).
  assert (He : Rabs x = exp (ln (Rabs x))) by (symmetry; now apply exp_ln).
  set (q := ln (Rabs x) / ln 2) in *.
  split.
  - rewrite He. destruct (Req_dec (IZR f * ln 2) (ln (Rabs x))) as [->|Hne]; [lra|].
    left. apply exp_increasing. rewrite Hl. nra.
  - rewrite He at 1. apply exp_increasing. rewrite plus_IZR, Hl. nra.
Qed.

Lemma mag_unique x e : bpow (e - 1) <= Rabs x < bpow e -> mag x = e.
Proof.
  intros [Hlo Hhi]. unfold mag.
  assert (Habs : 0 < Rabs x) by (pose proof (bpow_pos (e - 1)); lra).
  pose proof ln2_pos as H2.
  assert (Hf : floorZ (ln (Rabs x) / ln 2) = (e - 1)%Z).
  { apply floorZ_spec.
    - apply Rmult_le_reg_r with (ln 2); [exact H2|].
      replace (ln (Rabs x) / ln 2 * ln 2) with (ln (Rabs x)) by (field; lra).
      rewrite <- (ln_exp (IZR (e - 1) * ln 2)).
      destruct Hlo as [Hlo|Hlo].
      + left. apply ln_increasing; [apply exp_pos|exact Hlo].
      + unfold bpow in Hlo. rewrite Hlo. lra.
    - apply Rmult_lt_reg_r with (ln 2); [exact H2|].
      replace (ln (Rabs x) / ln 2 * ln 2) with (ln (Rabs x)) by (field; lra).
      replace ((IZR (e - 1) + 1) * ln 2) with (IZR e * ln 2)
        by (rewrite minus_IZR; ring).
      rewrite <- (ln_exp (IZR e * ln 2)).
      apply ln_increasing; [exact Habs|exact Hhi]. }
  rewrite Hf. lia.
Qed.

Lemma mag_le_bpow x e : x <> 0 -> Rabs x < bpow e -> (mag x <= e)%Z.
Proof.
  intros Hx H. destruct (mag_spec x Hx) as [Hlo _].
  assert (bpow (mag x - 1) < bpow e) by lra.
  apply bpow_lt_inv in H0. lia.
Qed.

Lemma mag_ge_bpow x e : bpow (e - 1) <= Rabs x -> (e <= mag x)%Z.
Proof.
  intros H.
  assert (Hx : x <> 0).
  { intros ->. rewrite Rabs_R0 in H. pose proof (bpow_pos (e - 1)). lra. }
  destruct (mag_spec x Hx) as [_ Hhi].
  assert (bpow (e - 1) < bpow (mag x)) by lra.
  apply bpow_lt_inv in H0. lia.
Qed.

Lemma mag_mono x y : x <> 0 -> Rabs x <= Rabs y -> (mag x <= mag y)%Z.
Proof.
  intros Hx H. apply mag_ge_bpow. destruct (mag_spec x Hx). lra.
Qed.

Lemma ln_0 : ln 0 = 0.
Proof. unfold ln. destruct (Rlt_dec 0 0) as [r|_]; [destruct (Rlt_irrefl _ r)|reflexivity]. Qed.

Lemma mag_0 : mag 0 = 1%Z.
Proof.
  unfold mag. rewrite Rabs_R0, ln_0. unfold Rdiv. rewrite Rmult_0_l.
  now rewrite (floorZ_IZR 0).
Qed.

Lemma cexp_mono x y : x <> 0 -> Rabs x <= Rabs y -> (cexp x <= cexp y)%Z.
Proof. intros Hx H. unfold cexp. pose proof (mag_mono x y Hx H). lia. Qed.

Lemma ulp_pos x : 0 < ulp x.
Proof. apply bpow_pos. Qed.

(** [rne] *)
Lemma rne_floor y : (floorZ y <= rne y <= floorZ y + 1)%Z.
Proof.
  unfold rne. destruct (Rlt_dec _ _); [lia|].
  destruct (Rlt_dec _ _); [lia|]. destruct (Z.even _); lia.
Qed.

Lemma rne_IZR k : rne (IZR k) = k.
Proof.
  unfold rne. rewrite floorZ_IZR.
  destruct (Rlt_dec (IZR k - IZR k) (/ 2)); [reflexivity|lra].
Qed.

Lemma rne_error y : Rabs (IZR (rne y) - y) <= / 2.
Proof.
  unfold rne. destruct (floorZ_bounds y) as [Hlo Hhi].
  set (f := floorZ y) in *.
  destruct (Rlt_dec (y - IZR f) (/ 2)).
  - apply Rabs_le. lra.
  - destruct (Rlt_dec (/ 2) (y - IZR f)).
    + rewrite plus_IZR. apply Rabs_le. lra.
    + destruct (Z.even f); [|rewrite plus_IZR]; apply Rabs_le; lra.
Qed.

Lemma rne_unique y k : Rabs (y - IZR k) < / 2 -> rne y = k.
Proof.
  intros H. apply Rabs_def2 in H. destruct H as [H1 H2].
  unfold rne. destruct (floorZ_bounds y) as [Hlo Hhi].
  set (f := floorZ y) in *.
  assert (Hf : (f = k \/ f = k - 1)%Z).
  { assert (IZR f < IZR k + 1) by lra. assert (IZR k - 2 < IZR f) by lra.
    rewrite <- plus_IZR in H. apply lt_IZR in H.
    rewrite <- minus_IZR in H0. apply lt_IZR in H0. lia. }
  destruct Hf as [Hf|Hf]; rewrite Hf in *.
  - destruct (Rlt_dec (y - IZR k) (/ 2)); [reflexivity|lra].
  - rewrite minus_IZR in *.
    destruct (Rlt_dec (y - (IZR k - 1)) (/ 2)); [lra|].
    destruct (Rlt_dec (/ 2) (y - (IZR k - 1))); [lia|lra].
Qed.

Lemma rne_tie_even y k : y = IZR k + / 2 -> Z.even k = true -> rne y = k.
Proof.
  intros Hy He. unfold rne.
  assert (Hf : floorZ y = k) by (apply floorZ_spec; lra).
  rewrite Hf. destruct (Rlt_dec (y - IZR k) (/ 2)); [lra|].
  destruct (Rlt_dec (/ 2) (y - IZR k)); [lra|]. now rewrite He.
Qed.

Lemma rne_tie_odd y k : y = IZR k + / 2 -> Z.even k = false -> rne y = (k + 1)%Z.
Proof.
  intros Hy He. unfold rne.
  assert (Hf : floorZ y = k) by (apply floorZ_spec; lra).
  rewrite Hf. destruct (Rlt_dec (y - IZR k) (/ 2)); [lra|].
  destruct (Rlt_dec (/ 2) (y - IZR k)); [lra|]. now rewrite He.
Qed.

Lemma rne_ge y k : IZR k <= y -> (k <= rne y)%Z.
Proof.
  intros H. pose proof (floorZ_ge _ _ H). pose proof (rne_floor y). lia.
Qed.

Lemma rne_le y k : y <= IZR k -> (rne y <= k)%Z.
Proof.
  intros H. destruct (floorZ_bounds y) as [Hlo Hhi].
  pose proof (rne_floor y) as Hr.
  assert (Hf : (floorZ y <= k)%Z) by (apply le_IZR; lra).
  destruct (Z.eq_dec (floorZ y) k) as [E|E]; [|lia].
  assert (Hy : y = IZR k) by (rewrite E in Hlo; lra).
  rewrite Hy, rne_IZR. lia.
Qed.

Lemma rne_mono y y' : y <= y' -> (rne y <= rne y')%Z.
Proof.
  intros H. pose proof (floorZ_le _ _ H) as Hf.
  pose proof (rne_floor y) as Hr. pose proof (rne_floor y') as Hr'.
  destruct (Z.eq_dec (floorZ y) (floorZ y')) as [E|E]; [|lia].
  unfold rne. rewrite <- E.
  set (f := floorZ y).
  destruct (Rlt_dec (y - IZR f) (/ 2)).
  - destruct (Rlt_dec (y' - IZR f) (/ 2)); [lia|].
    destruct (Rlt_dec (/ 2) (y' - IZR f)); [lia|]. destruct (Z.even f); lia.
  - destruct (Rlt_dec (/ 2) (y - IZR f)).
    + destruct (Rlt_dec (y' - IZR f) (/ 2)); [lra|].
      destruct (Rlt_dec (/ 2) (y' - IZR f)); [lia|lra].
    + destruct (Rlt_dec (y' - IZR f) (/ 2)); [lra|].
      destruct (Rlt_dec (/ 2) (y' - IZR f)); [destruct (Z.even f); lia|].
      destruct (Z.even f); lia.
Qed.

(** [round] *)
Lemma round_0 : round 0 = 0.
Proof. unfold round. unfold Rdiv. rewrite Rmult_0_l, rne_IZR. lra. Qed.

Lemma round_ge_multiple x j : IZR j * ulp x <= x -> IZR j * ulp x <= round x.
Proof.
  intros H. unfold round. pose proof (ulp_pos x) as Hu.
  apply Rmult_le_compat_r; [lra|]. apply IZR_le. apply rne_ge.
  apply Rmult_le_reg_r with (ulp x); [exact Hu|].
  replace (x / ulp x * ulp x) with x by (field; lra). exact H.
Qed.

Lemma round_le_multiple x j : x <= IZR j * ulp x -> round x <= IZR j * ulp x.
Proof.
  intros H. unfold round. pose proof (ulp_pos x) as Hu.
  apply Rmult_le_compat_r; [lra|]. apply IZR_le. apply rne_le.
  apply Rmult_le_reg_r with (ulp x); [exact Hu|].
  replace (x / ulp x * ulp x) with x by (field; lra). exact H.
Qed.

Lemma round_error_ulp x : Rabs (round x - x) <= ulp x / 2.
Proof.
  unfold round. pose proof (ulp_pos x) as Hu.
  replace (IZR (rne (x / ulp x)) * ulp x - x)
    with ((IZR (rne (x / ulp x)) - x / ulp x) * ulp x) by (field; lra).
  rewrite Rabs_mult, (Rabs_pos_eq (ulp x)) by lra.
  pose proof (rne_error (x / ulp x)). nra.
Qed.

Lemma ulp_bound x : x <> 0 -> ulp x <= 2 * eps * Rabs x + 2 * eta.
Proof.
  intros Hne. unfold ulp, cexp, eps, eta.
  pose proof (Rabs_pos x) as Hx.
  assert (H1075 : 2 * bpow (-1075) = bpow (-1074)).
  { replace (-1074)%Z with (1 + -1075)%Z by lia. now rewrite bpow_add, bpow_1. }
  assert (H53 : forall e, 2 * bpow (-53) * bpow (e - 1) = bpow (e - 53)).
  { intros e. replace (e - 53)%Z with (1 + (-53 + (e - 1)))%Z by lia.
    rewrite !bpow_add, bpow_1. ring. }
  pose proof (bpow_pos (-53)). pose proof (bpow_pos (-1075)).
  destruct (Z.max_spec (mag x - 53) (-1074)) as [[_ ->]|[_ ->]].
  - rewrite H1075. nra.
  - destruct (mag_spec x Hne) as [Hlo _]. rewrite <- H53. nra.
Qed.

Lemma round_error x : Rabs (round x - x) <= eps * Rabs x + eta.
Proof.
  destruct (Req_dec x 0) as [->|Hne].
  - rewrite round_0, Rminus_0_r, Rabs_R0.
    pose proof (bpow_pos (-1075)). unfold eta. lra.
  - pose proof (round_error_ulp x). pose proof (ulp_bound x Hne). lra.
Qed.

(** Above the subnormal range the error is purely relative. *)
Lemma round_error_normal x :
  bpow (-1022) <= Rabs x -> Rabs (round x - x) <= eps * Rabs x.
Proof.
  intros Hx. pose proof (round_error_ulp x) as He.
  assert (Hm : (-1021 <= mag x)%Z) by (apply mag_ge_bpow; exact Hx).
  assert (Hne : x <> 0).
  { intros ->. rewrite Rabs_R0 in Hx. pose proof (bpow_pos (-1022)). lra. }
  destruct (mag_spec x Hne) as [Hlo _].
  unfold ulp, cexp in He. rewrite Z.max_l in He by lia.
  replace (mag x - 53)%Z with (1 + (-53 + (mag x - 1)))%Z in He by lia.
  rewrite !bpow_add, bpow_1 in He. unfold eps.
  pose proof (bpow_pos (-53)). nra.
Qed.

(** Binary64 numbers are fixed points, and rounding never crosses one. *)
Lemma format_0 : format 0.
Proof. exists 0%Z, 0%Z. split; [lra|]. split; [reflexivity|lia]. Qed.

Lemma format_bpow e : (-1074 <= e)%Z -> format (bpow e).
Proof. intros He. exists 1%Z, e. split; [lra|]. split; [reflexivity|exact He]. Qed.

Lemma format_opp f : format f -> format (- f).
Proof.
  intros (m & e & Hf & Hm & He). exists (- m)%Z, e.
  split; [rewrite opp_IZR, Hf; ring|]. split; [lia|exact He].
Qed.

Lemma format_abs_lt f m e :
  f = IZR m * bpow e -> (Z.abs m < 2 ^ 53)%Z -> Rabs f < bpow (53 + e).
Proof.
  intros Hf Hm. rewrite Hf, Rabs_mult, (Rabs_pos_eq (bpow e)), bpow_add
    by (left; apply bpow_pos).
  rewrite <- abs_IZR. rewrite (bpow_nonneg_IZR 53) by lia.
  apply Rmult_lt_compat_r; [apply bpow_pos|]. now apply IZR_lt.
Qed.

Lemma multiple_of_ulp m e c :
  (c <= e)%Z -> IZR m * bpow e = IZR (m * 2 ^ (e - c)) * bpow c.
Proof.
  intros H. rewrite mult_IZR, <- (bpow_nonneg_IZR (e - c)) by lia.
  rewrite Rmult_assoc, <- bpow_add. f_equal. f_equal. lia.
Qed.

Lemma round_format f : format f -> round f = f.
Proof.
  intros (m & e & Hf & Hm & He).
  destruct (Req_dec f 0) as [->|Hne]; [apply round_0|].
  assert (Hc : (cexp f <= e)%Z).
  { unfold cexp. pose proof (mag_le_bpow f (53 + e) Hne (format_abs_lt f m e Hf Hm)).
    lia. }
  pose proof (ulp_pos f) as Hu.
  unfold round. rewrite Hf at 1. unfold ulp in *.
  rewrite (multiple_of_ulp m e (cexp f) Hc).
  replace (IZR (m * 2 ^ (e - cexp f)) * bpow (cexp f) / bpow (cexp f))
    with (IZR (m * 2 ^ (e - cexp f))) by (field; lra).
  rewrite rne_IZR, <- multiple_of_ulp by exact Hc. now symmetry.
Qed.

Lemma round_ge_format x f : format f -> f <= x -> f <= round x.
Proof.
  intros (m & e & Hf & Hm & He) Hle.
  destruct (Req_dec x 0) as [->|Hne]; [now rewrite round_0|].
  destruct (Z.le_gt_cases (cexp x) e) as [Hc|Hc].
  - rewrite Hf in *. rewrite (multiple_of_ulp m e (cexp x) Hc) in *.
    now apply round_ge_multiple.
  - assert (Hcx : cexp x = (mag x - 53)%Z) by (unfold cexp in *; lia).
    destruct (mag_spec x Hne) as [Hlo _].
    assert (Hfa : Rabs f < bpow (mag x - 1)).
    { apply Rlt_le_trans with (bpow (53 + e)); [now apply format_abs_lt with m|].
      apply bpow_le. lia. }
    assert (HB : bpow (mag x - 1) = IZR (2 ^ 52) * ulp x).
    { unfold ulp. rewrite Hcx, <- (bpow_nonneg_IZR 52), <- bpow_add by lia.
      f_equal. lia. }
    destruct (Rle_or_lt 0 x) as [Hpos|Hneg].
    + rewrite Rabs_pos_eq in Hlo by exact Hpos.
      rewrite HB in Hlo. apply round_ge_multiple in Hlo. rewrite <- HB in Hlo.
      pose proof (Rle_abs f). lra.
    + rewrite Rabs_left in Hlo by exact Hneg.
      assert (f < 0) by lra. rewrite Rabs_left in Hfa by assumption. lra.
Qed.

Lemma round_le_format x f : format f -> x <= f -> round x <= f.
Proof.
  intros (m & e & Hf & Hm & He) Hle.
  destruct (Req_dec x 0) as [->|Hne]; [now rewrite round_0|].
  destruct (Z.le_gt_cases (cexp x) e) as [Hc|Hc].
  - rewrite Hf in *. rewrite (multiple_of_ulp m e (cexp x) Hc) in *.
    now apply round_le_multiple.
  - assert (Hcx : cexp x = (mag x - 53)%Z) by (unfold cexp in *; lia).
    destruct (mag_spec x Hne) as [Hlo _].
    assert (Hfa : Rabs f < bpow (mag x - 1)).
    { apply Rlt_le_trans with (bpow (53 + e)); [now apply format_abs_lt with m|].
      apply bpow_le. lia. }
    assert (HB : - bpow (mag x - 1) = IZR (- 2 ^ 52) * ulp x).
    { unfold ulp. rewrite opp_IZR, Hcx, <- (bpow_nonneg_IZR 52) by lia.
      rewrite <- Ropp_mult_distr_l, <- bpow_add. f_equal. f_equal. lia. }
    destruct (Rle_or_lt 0 x) as [Hpos|Hneg].
    + rewrite Rabs_pos_eq in Hlo by exact Hpos.
      pose proof (Rle_abs f). lra.
    + rewrite Rabs_left in Hlo by exact Hneg.
      assert (Hx : x <= - bpow (mag x - 1)) by lra.
      rewrite HB in Hx. apply round_le_multiple in Hx. rewrite <- HB in Hx.
      pose proof (Rle_abs (- f)). rewrite Rabs_Ropp in H. lra.
Qed.

Lemma round_nonneg x : 0 <= x -> 0 <= round x.
Proof. apply round_ge_format, format_0. Qed.

Lemma round_nonpos x : x <= 0 -> round x <= 0.
Proof. apply round_le_format, format_0. Qed.

Lemma round_mono x y : x <= y -> round x <= round y.
Proof.
  intros Hxy.
  destruct (Req_dec x 0) as [->|Hx0];
    [rewrite round_0; now apply round_nonneg|].
  destruct (Req_dec y 0) as [->|Hy0];
    [rewrite round_0; now apply round_nonpos|].
  destruct (Rle_or_lt 0 x) as [Hx|Hx]; destruct (Rle_or_lt 0 y) as [Hy|Hy];
    try lra.
  - (* 0 < x <= y *)
    assert (Hc : (cexp x <= cexp y)%Z)
      by (apply cexp_mono; [exact Hx0|rewrite !Rabs_pos_eq; lra]).
    destruct (Z.eq_dec (cexp x) (cexp y)) as [E|E].
    + unfold round, ulp. rewrite E. pose proof (bpow_pos (cexp y)).
      apply Rmult_le_compat_r; [lra|]. apply IZR_le, rne_mono.
      apply Rmult_le_compat_r; [left; now apply Rinv_0_lt_compat|exact Hxy].
    + assert (Hcy : cexp y = (mag y - 53)%Z) by (unfold cexp in *; lia).
      assert (Hm : (mag x <= mag y - 1)%Z) by (unfold cexp in *; lia).
      destruct (mag_spec x Hx0) as [_ Hxhi]. destruct (mag_spec y Hy0) as [Hylo _].
      rewrite Rabs_pos_eq in Hxhi, Hylo by lra.
      pose proof (bpow_le _ _ Hm) as Hb.
      assert (HF : format (bpow (mag y - 1))).
      { apply format_bpow. unfold cexp in *. lia. }
      apply Rle_trans with (bpow (mag y - 1)).
      * apply round_le_format; [exact HF|lra].
      * apply round_ge_format; [exact HF|lra].
  - (* x < 0 <= y *)
    apply Rle_trans with 0; [apply round_nonpos; lra|now apply round_nonneg].
  - (* x <= y < 0 *)
    assert (Hc : (cexp y <= cexp x)%Z)
      by (apply cexp_mono; [exact Hy0|rewrite !Rabs_left; lra]).
    destruct (Z.eq_dec (cexp x) (cexp y)) as [E|E].
    + unfold round, ulp. rewrite E. pose proof (bpow_pos (cexp y)).
      apply Rmult_le_compat_r; [lra|]. apply IZR_le, rne_mono.
      apply Rmult_le_compat_r; [left; now apply Rinv_0_lt_compat|exact Hxy].
    + assert (Hcx : cexp x = (mag x - 53)%Z) by (unfold cexp in *; lia).
      assert (Hm : (mag y <= mag x - 1)%Z) by (unfold cexp in *; lia).
      destruct (mag_spec x Hx0) as [Hxlo _]. destruct (mag_spec y Hy0) as [_ Hyhi].
      rewrite Rabs_left in Hxlo, Hyhi by lra.
      pose proof (bpow_le _ _ Hm) as Hb.
      assert (HF : format (- bpow (mag x - 1))).
      { apply format_opp, format_bpow. unfold cexp in *. lia. }
      apply Rle_trans with (- bpow (mag x - 1)).
      * apply round_le_format; [exact HF|lra].
      * apply round_ge_format; [exact HF|lra].
Qed.


Lemma Rabs_le_inv x a : Rabs x <= a -> - a <= x <= a.
Proof.
  intros H. pose proof (Rle_abs x). pose proof (Rle_abs (- x)) as H1.
  rewrite Rabs_Ropp in H1. lra.
Qed.

(** The rounded value is a binary64 number. *)
Lemma rne_abs_le y k : Rabs y <= IZR k -> (Z.abs (rne y) <= k)%Z.
Proof.
  intros H. apply Rabs_le_inv in H. destruct H as [H1 H2].
  rewrite <- opp_IZR in H1.
  pose proof (rne_ge _ _ H1). pose proof (rne_le _ _ H2). lia.
Qed.

Lemma format_round x : format (round x).
Proof.
  destruct (Req_dec x 0) as [->|Hne]; [rewrite round_0; apply format_0|].
  pose proof (ulp_pos x) as Hu.
  assert (Hk : (Z.abs (rne (x / ulp x)) <= 2 ^ 53)%Z).
  { apply rne_abs_le. unfold Rdiv.
    rewrite Rabs_mult, (Rabs_pos_eq (/ ulp x)) by (left; now apply Rinv_0_lt_compat).
    apply Rmult_le_reg_r with (ulp x); [exact Hu|].
    rewrite Rmult_assoc, Rinv_l, Rmult_1_r by lra.
    destruct (mag_spec x Hne) as [_ Hhi].
    apply Rle_trans with (bpow (mag x)); [lra|].
    rewrite <- (bpow_nonneg_IZR 53) by lia.
    unfold ulp. rewrite <- bpow_add. apply bpow_le. unfold cexp. lia. }
  unfold round. set (k := rne (x / ulp x)) in *.
  assert (Hc : (-1074 <= cexp x)%Z) by (unfold cexp; lia).
  destruct (Z.eq_dec (Z.abs k) (2 ^ 53)) as [E|E].
  - exists (Z.sgn k * 2 ^ 52)%Z, (cexp x + 1)%Z. split; [|split].
    + assert (Hk2 : IZR k = IZR (Z.sgn k) * (IZR (2 ^ 52) * 2)).
      { rewrite <- !mult_IZR. f_equal. clearbody k. lia. }
      unfold ulp. rewrite bpow_add, bpow_1, mult_IZR, Hk2. ring.
    + clearbody k. lia.
    + lia.
  - exists k, (cexp x). split; [reflexivity|]. split; [lia|exact Hc].
Qed.

Lemma format_IZR k : (Z.abs k <= 2 ^ 53)%Z -> format (IZR k).
Proof.
  intros H. destruct (Z.eq_dec (Z.abs k) (2 ^ 53)) as [E|E].
  - exists (Z.sgn k * 2 ^ 52)%Z, 1%Z. split; [|split].
    + rewrite bpow_1, <- mult_IZR. f_equal. lia.
    + lia.
    + lia.
  - exists k, 0%Z. split; [rewrite bpow_0; ring|]. split; lia.
Qed.

Lemma round_IZR k : (Z.abs k <= 2 ^ 53)%Z -> round (IZR k) = IZR k.
Proof. intros H. apply round_format, format_IZR, H. Qed.

Lemma round_INR n : (Z.of_nat n <= 2 ^ 53)%Z -> round (INR n) = INR n.
Proof. intros H. rewrite INR_IZR_INZ. apply round_IZR. lia. Qed.

Lemma format_MAX : format MAX.
Proof. exists (2 ^ 53 - 1)%Z, 971%Z. split; [reflexivity|]. split; lia. Qed.

Lemma MAX_pos : 0 < MAX.
Proof.
  unfold MAX. apply Rmult_lt_0_compat; [apply IZR_lt; reflexivity|apply bpow_pos].
Qed.

Lemma MAX_lt : MAX < bpow 1024.
Proof.
  unfold MAX. replace 1024%Z with (53 + 971)%Z by reflexivity.
  rewrite bpow_add, (bpow_nonneg_IZR 53) by lia.
  apply Rmult_lt_compat_r; [apply bpow_pos|]. apply IZR_lt. reflexivity.
Qed.

Lemma MAX_ge : bpow 1023 <= MAX.
Proof.
  unfold MAX. replace 1023%Z with (52 + 971)%Z by reflexivity.
  rewrite bpow_add, (bpow_nonneg_IZR 52) by lia.
  apply Rmult_le_compat_r; [left; apply bpow_pos|]. apply IZR_le. lia.
Qed.

Lemma round_abs_le_format x f : format f -> Rabs x <= f -> Rabs (round x) <= f.
Proof.
  intros Hf H. apply Rabs_le_inv in H. destruct H as [H1 H2].
  apply Rabs_le. split.
  - apply round_ge_format; [now apply format_opp|exact H1].
  - now apply round_le_format.
Qed.

Lemma round_abs_bound x : Rabs (round x) <= (1 + eps) * Rabs x + eta.
Proof.
  pose proof (round_error x) as H.
  pose proof (Rabs_triang (round x - x) x) as T.
  replace (round x - x + x) with (round x) in T by ring. lra.
Qed.

Lemma eps_pos : 0 < eps.
Proof. apply bpow_pos. Qed.

Lemma eta_pos : 0 < eta.
Proof. apply bpow_pos. Qed.

(** Evaluation of a rounding: [x] lies in the binade of exponent [e] and
    is nearer to [k * 2^e] than to any other multiple of [2^e]. *)
Lemma cexp_binade x e :
  (-1074 <= e)%Z -> bpow (e + 52) <= Rabs x < bpow (e + 53) -> cexp x = e.
Proof.
  intros He H. unfold cexp. rewrite (mag_unique x (e + 53)).
  - lia.
  - replace (e + 53 - 1)%Z with (e + 52)%Z by lia. exact H.
Qed.

Lemma cexp_subnormal x : x <> 0 -> Rabs x < bpow (-1021) -> cexp x = (-1074)%Z.
Proof.
  intros Hne H. unfold cexp. pose proof (mag_le_bpow x _ Hne H). lia.
Qed.

Lemma round_cexp_near x e k :
  cexp x = e -> Rabs (x - IZR k * bpow e) < bpow e / 2 -> round x = IZR k * bpow e.
Proof.
  intros Hc H. unfold round, ulp. rewrite Hc. f_equal. f_equal.
  apply rne_unique. pose proof (bpow_pos e) as Hb.
  replace (x / bpow e - IZR k) with ((x - IZR k * bpow e) / bpow e) by (field; lra).
  unfold Rdiv at 1. rewrite Rabs_mult, (Rabs_pos_eq (/ bpow e))
    by (left; now apply Rinv_0_lt_compat).
  apply Rmult_lt_reg_r with (bpow e); [exact Hb|].
  rewrite Rmult_assoc, Rinv_l, Rmult_1_r by lra. lra.
Qed.

Lemma round_cexp_tie x e k :
  cexp x = e -> x = (IZR k + / 2) * bpow e ->
  round x = IZR (if Z.even k then k else k + 1) * bpow e.
Proof.
  intros Hc H. unfold round, ulp. rewrite Hc. f_equal. f_equal.
  pose proof (bpow_pos e) as Hb.
  assert (Hy : x / bpow e = IZR k + / 2) by (rewrite H; field; lra).
  destruct (Z.even k) eqn:E.
  - now apply rne_tie_even.
  - now apply rne_tie_odd.
Qed.


Lemma bpow_Zneg p : bpow (Z.neg p) = / IZR (Z.pow_pos 2 p).
Proof. exact (bpow_neg_IZR (Z.pos p) ltac:(lia)). Qed.

Lemma bpow_Zpos p : bpow (Z.pos p) = IZR (Z.pow_pos 2 p).
Proof. exact (bpow_nonneg_IZR (Z.pos p) ltac:(lia)). Qed.

Lemma round_pos_eval x e k :
  (-1074 <= e)%Z -> bpow (e + 52) <= x < bpow (e + 53) ->
  - (bpow e / 2) < x - IZR k * bpow e < bpow e / 2 ->
  round x = IZR k * bpow e.
Proof.
  intros He Hx Hk. pose proof (bpow_pos (e + 52)).
  apply round_cexp_near.
  - apply cexp_binade; [exact He|]. rewrite Rabs_pos_eq by lra. exact Hx.
  - apply Rabs_def1; lra.
Qed.

Lemma round_pos_tie x e k :
  (-1074 <= e)%Z -> bpow (e + 52) <= x < bpow (e + 53) ->
  x = (IZR k + / 2) * bpow e ->
  round x = IZR (if Z.even k then k else k + 1) * bpow e.
Proof.
  intros He Hx Hk. pose proof (bpow_pos (e + 52)).
  apply round_cexp_tie; [|exact Hk].
  apply cexp_binade; [exact He|]. rewrite Rabs_pos_eq by lra. exact Hx.
Qed.

Lemma round_pos_tie_to x e k k' :
  (-1074 <= e)%Z -> bpow (e + 52) <= x < bpow (e + 53) ->
  x = (IZR k + / 2) * bpow e ->
  k' = (if Z.even k then k else k + 1)%Z ->
  round x = IZR k' * bpow e.
Proof. intros He Hx Hk ->. now apply round_pos_tie. Qed.

End DoubleFacts.

(** Powers of two as numerals, and the evaluation of a rounding whose
    result [k * 2^e] is known. *)
Ltac bpow_eval :=
  rewrite ?bpow_Zneg, ?bpow_Zpos, ?bpow_0;
  repeat match goal with
  | |- context [Z.pow_pos 2 ?p] =>
      let v := eval vm_compute in (Z.pow_pos 2 p) in change (Z.pow_pos 2 p) with v
  end.

Ltac binade e :=
  let v := eval vm_compute in (e + 52)%Z in change (e + 52)%Z with v;
  let w := eval vm_compute in (e + 53)%Z in change (e + 53)%Z with w.

Ltac round_eval k e :=
  apply (round_pos_eval _ e k); [lia|binade e; bpow_eval; lra|bpow_eval; lra].

Ltac round_tie k e :=
  apply (round_pos_tie_to _ e k);
  [lia|binade e; bpow_eval; lra|bpow_eval; lra|reflexivity].


(** ** Arithmetic on numbers that hold real values *)

Section NumberFacts.

Import Double.
Local Open Scope R_scope.

Lemma overflow_fin y : Rabs y <= MAX -> JS.overflow y = Fin y.
Proof.
  intros H. apply Rabs_le_inv in H. unfold JS.overflow.
  destruct (Rlt_dec MAX y); [lra|]. destruct (Rlt_dec y (- MAX)); [lra|reflexivity].
Qed.

Lemma rnd_fin x : Rabs x <= MAX -> JS.rnd x = Fin (round x).
Proof.
  intros H. unfold JS.rnd. apply overflow_fin.
  apply round_abs_le_format; [apply format_MAX|exact H].
Qed.

Lemma rnd_format f : format f -> Rabs f <= MAX -> JS.rnd f = Fin f.
Proof. intros Hf H. rewrite rnd_fin by exact H. now rewrite round_format. Qed.

Lemma rnd_IZR k : (Z.abs k <= 2 ^ 53)%Z -> JS.rnd (IZR k) = Fin (IZR k).
Proof.
  intros H. apply rnd_format; [now apply format_IZR|].
  apply Rle_trans with (bpow 1023); [|apply MAX_ge].
  rewrite <- abs_IZR. apply Rle_trans with (IZR (2 ^ 53)); [now apply IZR_le|].
  rewrite <- (bpow_nonneg_IZR 53) by lia. apply bpow_le. lia.
Qed.

Lemma rnd_0 : JS.rnd 0 = Fin 0.
Proof. exact (rnd_IZR 0 ltac:(lia)). Qed.

(** The rounding of a value of known sign is finite with that sign, or
    the infinity of that sign. *)
Lemma rnd_nonpos x :
  x <= 0 -> JS.rnd x = NegInf \/ (JS.rnd x = Fin (round x) /\ round x <= 0).
Proof.
  intros H. pose proof (round_nonpos x H) as Hr. pose proof MAX_pos.
  unfold JS.rnd, JS.overflow.
  destruct (Rlt_dec MAX (round x)); [lra|].
  destruct (Rlt_dec (round x) (- MAX)); [now left|right; now split].
Qed.

Lemma rnd_nonneg x :
  0 <= x -> JS.rnd x = PosInf \/ (JS.rnd x = Fin (round x) /\ 0 <= round x).
Proof.
  intros H. pose proof (round_nonneg x H) as Hr. pose proof MAX_pos.
  unfold JS.rnd, JS.overflow.
  destruct (Rlt_dec MAX (round x)); [now left|].
  destruct (Rlt_dec (round x) (- MAX)); [lra|right; now split].
Qed.

(** Beyond [2^1024] the result is infinite; an infinite result comes from
    a value of magnitude above [2^1023]. *)
Lemma rnd_overflow x : bpow 1024 <= x -> JS.rnd x = PosInf.
Proof.
  intros H. pose proof MAX_lt.
  assert (bpow 1024 <= round x)
    by (apply round_ge_format; [apply format_bpow; lia|exact H]).
  unfold JS.rnd, JS.overflow. destruct (Rlt_dec MAX (round x)); [reflexivity|lra].
Qed.

Lemma rnd_infinite x : JS.isFinite (JS.rnd x) = false -> bpow 1023 < Rabs x.
Proof.
  intros H. destruct (Rlt_le_dec (bpow 1023) (Rabs x)) as [Hlt|Hle]; [exact Hlt|].
  rewrite rnd_fin in H by (pose proof MAX_ge; lra). discriminate.
Qed.

Lemma add_fin x y : JS.add (Fin x) (Fin y) = JS.rnd (x + y).
Proof. reflexivity. Qed.

Lemma sub_fin x y : JS.sub (Fin x) (Fin y) = JS.rnd (x - y).
Proof. reflexivity. Qed.

Lemma mul_fin x y : JS.mul (Fin x) (Fin y) = JS.rnd (x * y).
Proof. reflexivity. Qed.

Lemma div_fin x y : y <> 0 -> JS.div (Fin x) (Fin y) = JS.rnd (x / y).
Proof.
  intros Hy. unfold JS.div, Rzero_dec.
  destruct (Req_dec_T y 0); [contradiction|reflexivity].
Qed.

Lemma sub_self x : JS.sub (Fin x) (Fin x) = Fin 0.
Proof. rewrite sub_fin, Rminus_diag. apply rnd_0. Qed.

(** A list of finite numbers is a list of real values. *)
Lemma finite_values (l : list number) :
  Forall (fun a => JS.isFinite a = true) l -> exists rs, l = map Fin rs.
Proof.
  induction 1 as [|a l Ha _ [rs ->]]; [now exists []|].
  destruct a as [r| | |]; try discriminate. now exists (r :: rs).
Qed.

(** [exp] is 1-Lipschitz on the non-positive reals. *)
Lemma exp_ge_1_plus a : 1 + a <= exp a.
Proof.
  destruct (Req_dec a 0) as [->|Ha]; [rewrite exp_0; lra|].
  left. now apply exp_ineq1.
Qed.

Lemma exp_le_1 a : a <= 0 -> exp a <= 1.
Proof.
  intros [H| ->]; [|rewrite exp_0; lra].
  rewrite <- exp_0. left. now apply exp_increasing.
Qed.

Lemma exp_lipschitz a b : a <= 0 -> b <= 0 -> Rabs (exp a - exp b) <= Rabs (a - b).
Proof.
  assert (H : forall a b, a <= b -> b <= 0 -> 0 <= exp b - exp a <= b - a).
  { intros u v Huv Hv.
    pose proof (exp_ge_1_plus (u - v)) as H1. pose proof (exp_le_1 v Hv) as H2.
    pose proof (exp_pos v) as H3.
    assert (E : exp u = exp v * exp (u - v)) by (rewrite <- exp_plus; f_equal; ring).
    assert (exp (u - v) <= 1) by (apply exp_le_1; lra).
    rewrite E. split; nra. }
  intros Ha Hb. destruct (Rle_or_lt a b) as [Hab|Hab].
  - pose proof (H a b Hab Hb). rewrite Rabs_minus_sym, (Rabs_minus_sym a b).
    rewrite !Rabs_pos_eq by lra. lra.
  - pose proof (H b a (Rlt_le _ _ Hab) Ha). rewrite !Rabs_pos_eq by lra. lra.
Qed.

End NumberFacts.

(** ** The elementary functions *)

Section LibmFacts.

Import Double.
Local Open Scope R_scope.

Lemma bpow_le_1 e : (e <= 0)%Z -> bpow e <= 1.
Proof. intros H. rewrite <- bpow_0. now apply bpow_le. Qed.

(** The correctly rounded library is as accurate as assumed. *)
Lemma correctlyRounded_spec : LibmSpec correctlyRounded.
Proof.
  assert (Heps : eps <= bpow (-52)) by (apply bpow_le; lia).
  assert (Heta : eta <= bpow (-1074)) by (apply bpow_le; lia).
  constructor; cbn [libm_exp libm_log2 correctlyRounded].
  - rewrite exp_0. exact (round_IZR 1 ltac:(lia)).
  - intros x. apply round_nonneg. left. apply exp_pos.
  - intros x _. pose proof (round_error (exp x)) as H.
    pose proof (exp_pos x). rewrite (Rabs_pos_eq (exp x)) in H by lra. nra.
  - rewrite ln_1. unfold Rdiv. rewrite Rmult_0_l. apply round_0.
  - intros x _. pose proof (round_error (ln x / ln 2)) as H.
    pose proof (Rabs_pos (ln x / ln 2)). nra.
Qed.

Context {libm : Libm}.
Hypothesis spec : LibmSpec libm.

Lemma libm_exp_bounds r :
  r <= 0 ->
  0 <= libm_exp r <= 2 /\ Rabs (libm_exp r - exp r) <= bpow (-52) + bpow (-1074).
Proof.
  intros Hr. pose proof (@libm_exp_accurate _ spec r Hr) as Hacc.
  pose proof (@libm_exp_nonneg _ spec r) as Hnn.
  pose proof (exp_le_1 r Hr) as H1. pose proof (exp_pos r) as H0.
  pose proof (bpow_pos (-52)) as Hp. pose proof (bpow_pos (-1074)).
  pose proof (bpow_lt (-52) (-1) ltac:(lia)) as Hb1.
  pose proof (bpow_lt (-1074) (-1) ltac:(lia)) as Hb2.
  assert (Hh : bpow (-1) = / 2).
  { rewrite bpow_Zneg. reflexivity. }
  assert (Hacc' : Rabs (libm_exp r - exp r) <= bpow (-52) + bpow (-1074)) by nra.
  split; [|exact Hacc'].
  apply Rabs_le_inv in Hacc'. lra.
Qed.

Lemma exp_fin_nonpos r : r <= 0 -> Math.exp (Fin r) = Fin (libm_exp r).
Proof.
  intros Hr. destruct (libm_exp_bounds r Hr) as [[H0 H2] _].
  cbn [Math.exp]. apply overflow_fin. rewrite Rabs_pos_eq by exact H0.
  apply Rle_trans with (bpow 1023); [|apply MAX_ge].
  apply Rle_trans with (bpow 1); [rewrite bpow_1; exact H2|].
  apply bpow_le. lia.
Qed.

(** One shifted exponential of the softmax: [Math.exp(s - maxVal)] for a
    scaled similarity [s] not above the largest one. *)
Lemma exp_shift s M :
  s <= M ->
  exists e,
    Math.exp (JS.sub (Fin s) (Fin M)) = Fin e /\
    0 <= e <= 2 /\
    (s = M -> e = 1) /\
    Rabs (e - exp (s - M)) <= bpow (-51) + eps * Rabs (s - M).
Proof.
  intros Hs. rewrite sub_fin.
  assert (Hv : s - M <= 0) by lra.
  assert (Hsmall : bpow (-52) + bpow (-1074) + eta <= bpow (-51)).
  { pose proof (bpow_le (-1074) (-54) ltac:(lia)).
    pose proof (bpow_le (-1075) (-54) ltac:(lia)).
    assert (E1 : bpow (-51) = 2 * bpow (-52)).
    { replace (-51)%Z with (1 + -52)%Z by lia. now rewrite bpow_add, bpow_1. }
    assert (E2 : bpow (-52) = 4 * bpow (-54)).
    { replace (-52)%Z with (1 + (1 + -54))%Z by lia.
      rewrite !bpow_add, bpow_1. ring. }
    pose proof (bpow_pos (-54)). unfold eta. lra. }
  pose proof eps_pos as Heps. pose proof eta_pos as Heta.
  destruct (rnd_nonpos (s - M) Hv) as [Hinf|[Hfin Hr]].
  - (* the difference overflows: the exponential is [+0] *)
    rewrite Hinf. exists 0. split; [reflexivity|]. split; [lra|].
    assert (Hbig : bpow 1023 < Rabs (s - M)).
    { apply rnd_infinite. now rewrite Hinf. }
    split.
    + intros ->. rewrite Rminus_diag, Rabs_R0 in Hbig.
      pose proof (bpow_pos 1023). lra.
    + rewrite Rminus_0_l, Rabs_Ropp, Rabs_pos_eq by (left; apply exp_pos).
      pose proof (exp_le_1 _ Hv). pose proof (bpow_pos (-51)).
      assert (1 <= eps * bpow 1023).
      { unfold eps. rewrite <- bpow_add, <- bpow_0. apply bpow_le. lia. }
      nra.
  - rewrite Hfin, (exp_fin_nonpos _ Hr).
    destruct (libm_exp_bounds _ Hr) as [Hb Hacc].
    exists (libm_exp (round (s - M))). split; [reflexivity|]. split; [exact Hb|].
    split.
    + intros ->. rewrite Rminus_diag, round_0. apply (@libm_exp_zero _ spec).
    + pose proof (exp_lipschitz _ _ Hr Hv) as Hlip.
      pose proof (round_error (s - M)) as Hround.
      pose proof (Rabs_triang (libm_exp (round (s - M)) - exp (round (s - M)))
                    (exp (round (s - M)) - exp (s - M))) as T.
      replace (libm_exp (round (s - M)) - exp (round (s - M))
               + (exp (round (s - M)) - exp (s - M)))
        with (libm_exp (round (s - M)) - exp (s - M)) in T by ring.
      lra.
Qed.

End LibmFacts.

(** ** Sums and shifted exponentials of the softmax *)

Section FloatingSums.

Import Double Ideal EmbeddingService.
Local Open Scope R_scope.

Lemma eps_value : eps = / 9007199254740992.
Proof. unfold eps. bpow_eval. reflexivity. Qed.

Lemma eta_small : eta <= / 1000000000000000000000000000000000000000000000000000000000000.
Proof.
  unfold eta. apply Rle_trans with (bpow (-200)); [apply bpow_le; lia|].
  bpow_eval. lra.
Qed.

(** The constant of the summation error: one rounding of a sum not above
    [(1 + 2^-20) * T]. *)
Lemma sum_loop_error (es : list R) (T : R) :
  1 <= T <= bpow 1000 ->
  forall (a A : R) (k : nat),
  Forall (fun e => 0 <= e) es ->
  0 <= A -> A + sumR es <= T ->
  INR (k + length es) <= 4294967296 ->
  Rabs (a - A) <= INR k * ((1 + / 1048576) * eps * T + eta) ->
  exists S,
    fold_left JS.add (map Fin es) (Fin a) = Fin S /\
    Rabs (S - (A + sumR es)) <= INR (k + length es) * ((1 + / 1048576) * eps * T + eta).
Proof.
  intros HT. set (c := (1 + / 1048576) * eps * T + eta).
  pose proof eps_value as Heps. pose proof eta_small as Heta. pose proof eta_pos as Heta0.
  assert (Hc : 0 <= c /\ 4294967296 * c <= T / 1048576).
  { unfold c. rewrite Heps. split; nra. }
  induction es as [|e es IH]; intros a A k Hnn HA Hsum Hlen Herr.
  - exists a. split; [reflexivity|]. rewrite sumR_nil, Rplus_0_r.
    simpl length. rewrite Nat.add_0_r. exact Herr.
  - inversion Hnn as [|e' es' He Hes]; subst.
    rewrite sumR_cons in Hsum. cbn [map fold_left].
    pose proof (sumR_nonneg Hes) as Hrest.
    cbn [length] in Hlen. rewrite Nat.add_succ_r in Hlen.
    assert (Hk : INR k <= 4294967296).
    { apply Rle_trans with (INR (S (k + length es))); [|exact Hlen].
      apply le_INR. lia. }
    pose proof (pos_INR k) as Hk0.
    assert (Hkc : INR k * c <= T / 1048576) by nra.
    apply Rabs_le_inv in Herr.
    assert (Hae : Rabs (a + e) <= (1 + / 1048576) * T).
    { apply Rabs_le. lra. }
    assert (Hmax : Rabs (a + e) <= MAX).
    { apply Rle_trans with (bpow 1023); [|apply MAX_ge].
      apply Rle_trans with (2 * bpow 1000); [lra|].
      rewrite <- bpow_1, <- bpow_add. apply bpow_le. lia. }
    rewrite add_fin, (rnd_fin _ Hmax).
    destruct (IH (round (a + e)) (A + e) (S k)) as [S0 [HS Hbound]].
    + exact Hes.
    + lra.
    + lra.
    + exact Hlen.
    + pose proof (round_error (a + e)) as Hr. rewrite S_INR.
      apply Rabs_le_inv in Hr. apply Rabs_le. fold c in Herr |- *.
      assert (eps * Rabs (a + e) + eta <= c).
      { unfold c. pose proof eps_pos. nra. }
      lra.
    + exists S0. split; [exact HS|].
      rewrite sumR_cons. cbn [length]. rewrite Nat.add_succ_r.
      replace (A + (e + sumR es)) with (A + e + sumR es) by ring. exact Hbound.
Qed.

Lemma sumR_map_error (A : Type) (f g h : A -> R) (l : list A) :
  (forall x, In x l -> Rabs (f x - g x) <= h x) ->
  Rabs (sumR (map f l) - sumR (map g l)) <= sumR (map h l).
Proof.
  induction l as [|x l IH]; intros H.
  - simpl. rewrite !sumR_nil, Rminus_diag, Rabs_R0. lra.
  - cbn [map]. rewrite !sumR_cons.
    assert (H1 : Rabs (f x - g x) <= h x) by (apply H; now left).
    assert (H2 : Rabs (sumR (map f l) - sumR (map g l)) <= sumR (map h l))
      by (apply IH; intros; apply H; now right).
    apply Rabs_le_inv in H1. apply Rabs_le_inv in H2. apply Rabs_le. lra.
Qed.


Lemma in_le_sumR (l : list R) x : Forall (fun e => 0 <= e) l -> In x l -> x <= sumR l.
Proof.
  induction 1 as [|y l Hy Hl IH]; intros Hin; [contradiction|].
  rewrite sumR_cons. pose proof (sumR_nonneg Hl).
  destruct Hin as [->|Hin]; [lra|]. specialize (IH Hin). lra.
Qed.

Lemma sumR_le_length (l : list R) b :
  Forall (fun e => e <= b) l -> sumR l <= INR (length l) * b.
Proof.
  induction 1 as [|y l Hy Hl IH]; [simpl; rewrite sumR_nil; lra|].
  rewrite sumR_cons. cbn [length]. rewrite S_INR. lra.
Qed.

Context {libm : Libm}.
Hypothesis spec : LibmSpec libm.

Lemma exps_values (ss : list R) (M : R) :
  (forall s, In s ss -> s <= M) ->
  exists es,
    map (fun s => Math.exp (JS.sub s (Fin M))) (map Fin ss) = map Fin es /\
    Forall2 (shifted M) ss es.
Proof.
  induction ss as [|s ss IH]; intros Hle.
  - exists []. split; [reflexivity|constructor].
  - destruct IH as [es [Hes Hall]]; [intros; apply Hle; now right|].
    destruct (exp_shift spec s M (Hle s (or_introl eq_refl))) as [e [He Hprop]].
    exists (e :: es). split.
    + cbn [map]. now rewrite He, Hes.
    + constructor; [exact Hprop|exact Hall].
Qed.

Lemma shifted_nonneg M ss es :
  Forall2 (shifted M) ss es -> Forall (fun e => 0 <= e) es.
Proof.
  induction 1 as [|s e ss es [[H0 _] _] _ IH]; constructor; assumption.
Qed.

Lemma shifted_le_2 M ss es :
  Forall2 (shifted M) ss es -> Forall (fun e => e <= 2) es.
Proof.
  induction 1 as [|s e ss es [[_ H2] _] _ IH]; constructor; assumption.
Qed.

Lemma shifted_max M ss es :
  Forall2 (shifted M) ss es -> In M ss -> In 1 es.
Proof.
  induction 1 as [|s e ss es [_ [H1 _]] _ IH]; intros Hin; [contradiction|].
  destruct Hin as [->|Hin]; [left; now apply H1|right; now apply IH].
Qed.

Lemma Forall2_length_eq (A B : Type) (P : A -> B -> Prop) (l : list A) (l' : list B) :
  Forall2 P l l' -> length l = length l'.
Proof. induction 1; simpl; congruence. Qed.

(** The softmax of the code on finite scaled similarities [ss]: the
    shifted exponentials [es], their rounded sum [S], and the quotients. *)
Lemma softmax_values (ss : list R) :
  ss <> [] -> INR (length ss) <= 4294967296 ->
  exists es S,
    map (fun s => Math.exp (JS.sub s (Math.max (map Fin ss)))) (map Fin ss) = map Fin es /\
    Forall2 (shifted (maxR ss)) ss es /\
    1 <= sumR es <= 2 * INR (length ss) /\
    EmbeddingService.sum (map Fin es) = Fin S /\
    Rabs (S - sumR es) <= INR (length ss) * ((1 + / 1048576) * eps * sumR es + eta) /\
    (1 - / 524288) * sumR es <= S /\
    map (fun e => JS.div e (Fin S)) (map Fin es) = map Fin (map (fun e => round (e / S)) es).
Proof.
  intros Hne Hlen.
  rewrite (max_fin Hne).
  destruct (exps_values ss (maxR ss)) as [es [Hes Hall]];
    [intros s Hs; now apply maxR_ge|].
  pose proof (shifted_nonneg _ _ _ Hall) as Hnn.
  pose proof (shifted_le_2 _ _ _ Hall) as Hle2.
  pose proof (shifted_max _ _ _ Hall (maxR_In Hne)) as H1.
  pose proof (Forall2_length_eq _ _ _ _ _ Hall) as Hlen2.
  assert (HT : 1 <= sumR es <= 2 * INR (length ss)).
  { split; [now apply in_le_sumR|].
    rewrite Hlen2. pose proof (sumR_le_length es 2 Hle2). lra. }
  pose proof eps_value as Heps. pose proof eta_small as Heta. pose proof eta_pos as Heta0.
  destruct (sum_loop_error es (sumR es)) with (a := 0) (A := 0) (k := 0%nat)
    as [S [HS Herr]].
  - split; [tauto|]. apply Rle_trans with (bpow 34).
    + replace (bpow 34) with (2 * 8589934592) by (bpow_eval; lra). lra.
    + apply bpow_le. lia.
  - exact Hnn.
  - lra.
  - lra.
  - cbn [Nat.add]. now rewrite <- Hlen2.
  - rewrite Rminus_diag, Rabs_R0. simpl INR. lra.
  - cbn [Nat.add] in Herr. rewrite Rplus_0_l, <- Hlen2 in Herr.
    assert (HSlow : (1 - / 524288) * sumR es <= S).
    { apply Rabs_le_inv in Herr. pose proof (pos_INR (length ss)).
      assert (INR (length ss) * ((1 + / 1048576) * eps * sumR es + eta)
              <= 4294967296 * ((1 + / 1048576) * eps * sumR es + eta)).
      { apply Rmult_le_compat_r; [rewrite Heps; nra|exact Hlen]. }
      rewrite Heps in *. nra. }
    exists es, S. split; [exact Hes|]. split; [exact Hall|]. split; [exact HT|].
    split; [exact HS|]. split; [exact Herr|]. split; [exact HSlow|].
    assert (HSpos : / 2 <= S) by nra.
    rewrite !map_map. apply map_ext_in. intros e He.
    rewrite div_fin by lra. apply rnd_fin.
    rewrite Forall_forall in Hnn, Hle2.
    pose proof (Hnn e He). pose proof (Hle2 e He).
    apply Rle_trans with (bpow 1023); [|apply MAX_ge].
    apply Rle_trans with 4.
    + rewrite Rabs_pos_eq.
      * apply Rmult_le_reg_r with S; [lra|].
        replace (e / S * S) with e by (field; lra). nra.
      * apply Rmult_le_pos; [lra|]. left. apply Rinv_0_lt_compat. lra.
    + replace 4 with (bpow 2) by (bpow_eval; lra). apply bpow_le. lia.
Qed.

End FloatingSums.

(** ** The distribution is a probability distribution *)

Section Distribution.

Import Double Ideal EmbeddingService.
Local Open Scope R_scope.

Lemma sum_round_div (es : list R) (S : R) :
  0 < S -> Forall (fun e => 0 <= e) es ->
  Rabs (sumR (map (fun e => round (e / S)) es) - sumR es / S)
  <= eps * (sumR es / S) + INR (length es) * eta.
Proof.
  intros HS. induction 1 as [|e es He Hes IH].
  - simpl. rewrite !sumR_nil. unfold Rdiv. rewrite Rmult_0_l, Rminus_diag, Rabs_R0. lra.
  - cbn [map length]. rewrite !sumR_cons, S_INR.
    pose proof (round_error (e / S)) as Hr.
    assert (Hq : 0 <= e / S).
    { apply Rmult_le_pos; [exact He|]. left. now apply Rinv_0_lt_compat. }
    rewrite (Rabs_pos_eq (e / S)) in Hr by exact Hq.
    apply Rabs_le_inv in Hr. apply Rabs_le_inv in IH. apply Rabs_le.
    replace ((e + sumR es) / S) with (e / S + sumR es / S) by (unfold Rdiv; ring).
    lra.
Qed.

Context {libm : Libm}.
Hypothesis spec : LibmSpec libm.

(** The softmax stage on finite scaled similarities: the result is a list
    of non-negative real values whose sum is 1 up to the rounding of the
    additions and divisions. *)
Lemma softmax_is_probability (ss : list R) :
  ss <> [] -> INR (length ss) <= 4294967296 ->
  exists d : list R,
    (let scaled := map Fin ss in
     let maxVal := Math.max scaled in
     let exps := map (fun s => Math.exp (JS.sub s maxVal)) scaled in
     let sumExps := EmbeddingService.sum exps in
     map (fun e => JS.div e sumExps) exps) = map Fin d /\
    length d = length ss /\
    Forall (fun p => 0 <= p) d /\
    Rabs (sumR d - 1) <= 1 / 1000000.
Proof.
  intros Hne Hlen. cbv zeta.
  destruct (softmax_values spec ss Hne Hlen)
    as [es [S [Hes [Hall [[HT1 HT2] [HS [Herr [HSlow Hdiv]]]]]]]].
  pose proof (shifted_nonneg _ _ _ Hall) as Hnn.
  pose proof (Forall2_length_eq _ _ _ _ _ Hall) as Hlen2.
  assert (HSpos : 0 < S) by nra.
  exists (map (fun e => round (e / S)) es).
  split; [rewrite Hes, HS; exact Hdiv|].
  split; [now rewrite length_map|].
  split.
  - apply Forall_forall. intros p Hp. apply in_map_iff in Hp as [e [<- He]].
    apply round_nonneg. rewrite Forall_forall in Hnn.
    apply Rmult_le_pos; [now apply Hnn|]. left. now apply Rinv_0_lt_compat.
  - pose proof (sum_round_div es S HSpos Hnn) as Hsum.
    rewrite <- Hlen2 in Hsum.
    pose proof eps_value as Heps. pose proof eta_small as Heta. pose proof eta_pos as Heta0.
    set (T := sumR es) in *. set (N := INR (length ss)) in *.
    set (u := / S).
    assert (Hu : u * S = 1) by (unfold u; field; lra).
    assert (Hu0 : 0 < u) by (unfold u; now apply Rinv_0_lt_compat).
    assert (HN0 : 0 <= N) by (unfold N; apply pos_INR).
    assert (HTu : T * u <= 1 + / 262144) by nra.
    assert (Hu1 : u <= 1 + / 262144) by nra.
    replace (T / S) with (T * u) in Hsum by reflexivity.
    apply Rabs_le_inv in Hsum. apply Rabs_le_inv in Herr.
    assert (Hgap : - (/ 2000000) <= T * u - 1 <= / 2000000).
    { assert (E : T * u - 1 = (T - S) * u) by nra.
      rewrite E.
      assert (Hc : N * ((1 + / 1048576) * eps * T + eta) * u <= / 2000000).
      { assert (N * ((1 + / 1048576) * eps * T + eta) * u
                <= 4294967296 * ((1 + / 1048576) * eps * (T * u) + eta * u)).
        { replace (N * ((1 + / 1048576) * eps * T + eta) * u)
            with (N * ((1 + / 1048576) * eps * (T * u) + eta * u)) by ring.
          apply Rmult_le_compat_r; [rewrite Heps; nra|exact Hlen]. }
        rewrite Heps in *. nra. }
      destruct Herr as [He1 He2].
      assert ((T - S) * u <= N * ((1 + / 1048576) * eps * T + eta) * u)
        by (apply Rmult_le_compat_r; lra).
      assert (- (N * ((1 + / 1048576) * eps * T + eta)) * u <= (T - S) * u)
        by (apply Rmult_le_compat_r; lra).
      split; lra. }
    apply Rabs_le. rewrite Heps in *.
    assert (N * eta <= / 1000000000) by nra.
    split; lra.
Qed.


(** Min-max normalization of two or more real similarities of magnitude
    at most [2^1000]: the values of [Rounded.normalizeMinmax], all between
    0 and 1. *)
Lemma normalizeMinmax_range (xs : list R) :
  xs <> [] -> Forall (fun n => 0 <= n <= 1) (Rounded.normalizeMinmax xs).
Proof.
  intros Hne. unfold Rounded.normalizeMinmax.
  assert (H1 : format 1) by (exact (format_IZR 1 ltac:(lia))).
  pose proof (minR_le_maxR Hne) as Hmm.
  assert (Hr0 : 0 <= round (maxR xs - minR xs)) by (apply round_nonneg; lra).
  destruct (Req_dec_T (round (maxR xs - minR xs)) 0) as [E|E];
    apply Forall_forall; intros n Hn; apply in_map_iff in Hn as [x [<- Hx]].
  - pose proof (INR_length_pos Hne) as HN.
    assert (1 <= INR (length xs)).
    { destruct xs; [congruence|]. cbn [length]. rewrite S_INR.
      pose proof (pos_INR (length xs)). lra. }
    assert (0 <= 1 / INR (length xs) <= 1).
    { split.
      - apply Rmult_le_pos; [lra|]. left. now apply Rinv_0_lt_compat.
      - apply Rmult_le_reg_r with (INR (length xs)); [exact HN|].
        replace (1 / INR (length xs) * INR (length xs)) with 1 by (field; lra). lra. }
    split; [apply round_nonneg; tauto|apply round_le_format; [exact H1|tauto]].
  - pose proof (minR_le _ _ Hx) as Hlo. pose proof (maxR_ge _ _ Hx) as Hhi.
    assert (Hd0 : 0 <= round (x - minR xs)) by (apply round_nonneg; lra).
    assert (Hd1 : round (x - minR xs) <= round (maxR xs - minR xs))
      by (apply round_mono; lra).
    set (r := round (maxR xs - minR xs)) in *.
    assert (Hr : 0 < r) by lra.
    assert (0 <= round (x - minR xs) / r <= 1).
    { split.
      - apply Rmult_le_pos; [exact Hd0|]. left. now apply Rinv_0_lt_compat.
      - apply Rmult_le_reg_r with r; [exact Hr|].
        replace (round (x - minR xs) / r * r) with (round (x - minR xs)) by (field; lra).
        lra. }
    split; [apply round_nonneg; tauto|apply round_le_format; [exact H1|tauto]].
Qed.

Lemma small_is_finite x : Rabs x <= bpow 1001 -> JS.rnd x = Fin (round x).
Proof.
  intros H. apply rnd_fin. apply Rle_trans with (bpow 1023); [|apply MAX_ge].
  apply Rle_trans with (bpow 1001); [exact H|apply bpow_le; lia].
Qed.

Lemma normalize_minmax_values (xs : list R) :
  (2 <= length xs)%nat -> Forall (fun x => Rabs x <= bpow 1000) xs ->
  normalizeSimilarities (map Fin xs) minmax = map Fin (Rounded.normalizeMinmax xs).
Proof.
  intros Hlen Hb.
  assert (Hne : xs <> []) by (intros ->; simpl in Hlen; lia).
  pose proof (normalizeMinmax_range xs Hne) as Hrange.
  unfold normalizeSimilarities, Rounded.normalizeMinmax in *. rewrite length_map.
  replace (length xs <=? 1)%nat with false by (symmetry; apply Nat.leb_gt; lia).
  cbn [is_none orb]. rewrite (min_fin Hne), (max_fin Hne), sub_fin.
  rewrite Forall_forall in Hb.
  assert (Hdiff : forall x, In x xs -> Rabs (x - minR xs) <= bpow 1001).
  { intros x Hx. pose proof (Hb x Hx) as H1. pose proof (Hb _ (minR_In Hne)) as H2.
    apply Rabs_le_inv in H1. apply Rabs_le_inv in H2.
    replace (bpow 1001) with (2 * bpow 1000)
      by (rewrite <- bpow_1, <- bpow_add; f_equal).
    apply Rabs_le. lra. }
  rewrite (small_is_finite _ (Hdiff _ (maxR_In Hne))).
  unfold JS.strict_eq.
  destruct (Req_dec_T (round (maxR xs - minR xs)) 0) as [E|E].
  - rewrite !map_map. apply map_ext_in. intros x Hx.
    pose proof (INR_length_pos Hne) as HN. unfold JS.of_nat.
    rewrite div_fin by lra. apply small_is_finite.
    rewrite Forall_forall in Hrange.
    assert (Hin : In (round (1 / INR (length xs)))
                    (map (fun _ : R => round (1 / INR (length xs))) xs))
      by (apply in_map_iff; now exists x).
    assert (H1 : 1 <= INR (length xs)).
    { destruct xs; [congruence|]. cbn [length]. rewrite S_INR.
      pose proof (pos_INR (length xs)). lra. }
    apply Rle_trans with 1; [|rewrite <- bpow_0; apply bpow_le; lia].
    rewrite Rabs_pos_eq.
    + apply Rmult_le_reg_r with (INR (length xs)); [exact HN|].
      replace (1 / INR (length xs) * INR (length xs)) with 1 by (field; lra). lra.
    + apply Rmult_le_pos; [lra|]. left. now apply Rinv_0_lt_compat.
  - rewrite !map_map. apply map_ext_in. intros x Hx.
    rewrite sub_fin, (small_is_finite _ (Hdiff x Hx)), div_fin by exact E.
    apply small_is_finite.
    pose proof (minR_le _ _ Hx) as Hlo. pose proof (maxR_ge _ _ Hx) as Hhi.
    assert (Hd0 : 0 <= round (x - minR xs)) by (apply round_nonneg; lra).
    assert (Hd1 : round (x - minR xs) <= round (maxR xs - minR xs))
      by (apply round_mono; lra).
    set (r := round (maxR xs - minR xs)) in *.
    assert (Hr : 0 < r) by lra.
    apply Rle_trans with 1; [|rewrite <- bpow_0; apply bpow_le; lia].
    rewrite Rabs_pos_eq.
    + apply Rmult_le_reg_r with r; [exact Hr|].
      replace (round (x - minR xs) / r * r) with (round (x - minR xs)) by (field; lra).
      lra.
    + apply Rmult_le_pos; [exact Hd0|]. left. now apply Rinv_0_lt_compat.
Qed.

(** Scaling by a temperature of at least [2^-500] keeps values of
    magnitude at most [2^500] finite. *)
Lemma scaled_values (ns : list R) (t : R) :
  Forall (fun n => Rabs n <= bpow 500) ns -> bpow (-500) <= t ->
  map (fun s => JS.div s (Fin t)) (map Fin ns)
  = map Fin (map (fun n => round (n / t)) ns).
Proof.
  intros Hb Ht. pose proof (bpow_pos (-500)) as Hp.
  rewrite !map_map. apply map_ext_in. intros n Hn.
  rewrite Forall_forall in Hb. pose proof (Hb n Hn) as Hnb.
  rewrite div_fin by lra. apply small_is_finite.
  unfold Rdiv. rewrite Rabs_mult.
  assert (Hti : Rabs (/ t) <= bpow 500).
  { rewrite Rabs_pos_eq by (left; apply Rinv_0_lt_compat; lra).
    replace (bpow 500) with (/ bpow (-500)) by (now rewrite <- bpow_opp).
    apply Rinv_le_contravar; lra. }
  pose proof (Rabs_pos n). pose proof (Rabs_pos (/ t)).
  apply Rle_trans with (bpow 500 * bpow 500); [nra|].
  rewrite <- bpow_add. apply bpow_le. lia.
Qed.

(** Without normalization and under min-max normalization, similarities
    of magnitude at most [2^500] and a temperature of at least [2^-500]
    give finite scaled similarities. *)
Lemma scaled_finite (xs : list R) (t : R) (normalization : SimilarityNormalization) :
  normalization <> zscore ->
  Forall (fun x => Rabs x <= bpow 500) xs -> bpow (-500) <= t ->
  Forall (fun s => JS.isFinite s = true)
    (map (fun s => JS.div s (Fin t)) (normalizeSimilarities (map Fin xs) normalization)).
Proof.
  intros Hmode Hb Ht.
  assert (Hfin : forall ns, Forall (fun n => Rabs n <= bpow 500) ns ->
            Forall (fun s => JS.isFinite s = true)
              (map (fun s => JS.div s (Fin t)) (map Fin ns))).
  { intros ns Hns. rewrite (scaled_values ns t Hns Ht).
    apply Forall_forall. intros s Hs. apply in_map_iff in Hs as [r [<- _]]. reflexivity. }
  destruct (le_lt_dec (length xs) 1) as [Hshort|Hlong].
  - unfold normalizeSimilarities. rewrite length_map.
    replace (length xs <=? 1)%nat with true by (symmetry; now apply Nat.leb_le).
    rewrite orb_true_r. now apply Hfin.
  - destruct normalization; [now apply Hfin| |congruence].
    rewrite normalize_minmax_values.
    + apply Hfin.
      assert (Hne : xs <> []) by (intros ->; simpl in Hlong; lia).
      eapply Forall_impl; [|apply (normalizeMinmax_range xs Hne)].
      intros n [H0 H1]. cbv beta. rewrite Rabs_pos_eq by exact H0.
      apply Rle_trans with 1; [exact H1|rewrite <- bpow_0; apply bpow_le; lia].
    + lia.
    + eapply Forall_impl; [|exact Hb]. intros x Hx. cbv beta in *.
      apply Rle_trans with (bpow 500); [exact Hx|apply bpow_le; lia].
Qed.

End Distribution.

(** ** The distribution claim on concrete inputs *)

Section DistributionExamples.

Import Double Ideal EmbeddingService.
Local Open Scope R_scope.

Lemma lit_fin x : Rabs x <= bpow 1001 -> JS.lit x = Fin (round x).
Proof. apply small_is_finite. Qed.

Lemma round_between x lo hi : format lo -> format hi -> lo <= x <= hi -> lo <= round x <= hi.
Proof.
  intros Hlo Hhi [H1 H2]. split; [now apply round_ge_format|now apply round_le_format].
Qed.

Lemma format_half : format (/ 2).
Proof. exists 1%Z, (-1)%Z. split; [bpow_eval; lra|]. split; lia. Qed.

Lemma format_1 : format 1.
Proof. exact (format_IZR 1 ltac:(lia)). Qed.

Lemma MAX_ge_17e307 : 17e307 <= MAX.
Proof.
  unfold MAX. bpow_eval. change (2 ^ 53 - 1)%Z with 9007199254740991%Z. lra.
Qed.

(** A literal between 0 and 1. *)
Lemma lit_unit x : 0 <= x <= 1 -> JS.lit x = Fin (round x) /\ 0 <= round x <= 1.
Proof.
  intros H. split.
  - apply lit_fin. rewrite Rabs_pos_eq by tauto.
    apply Rle_trans with 1; [tauto|rewrite <- bpow_0; apply bpow_le; lia].
  - apply round_between; [apply format_0|apply format_1|exact H].
Qed.

Lemma scenario_literals :
  map JS.lit scenarioSims = map Fin (map round scenarioSims) /\
  Forall (fun x => Rabs x <= bpow 500) (map round scenarioSims).
Proof.
  split.
  - rewrite map_map. apply map_ext_in. intros x Hx. apply lit_unit.
    unfold scenarioSims in Hx. cbn [In] in Hx.
    destruct Hx as [<-|[<-|[<-|[<-|[<-|[]]]]]]; lra.
  - apply Forall_forall. intros r Hr. apply in_map_iff in Hr as [x [<- Hx]].
    assert (H : 0 <= x <= 1).
    { unfold scenarioSims in Hx. cbn [In] in Hx.
      destruct Hx as [<-|[<-|[<-|[<-|[<-|[]]]]]]; lra. }
    destruct (lit_unit x H) as [_ [H0 H1]]. rewrite Rabs_pos_eq by exact H0.
    apply Rle_trans with 1; [exact H1|rewrite <- bpow_0; apply bpow_le; lia].
Qed.

Lemma lit_0_2 : JS.lit 0.2 = Fin (round 0.2) /\ bpow (-500) <= round 0.2.
Proof.
  split; [apply lit_unit; lra|].
  apply Rle_trans with (bpow (-3)); [apply bpow_le; lia|].
  apply round_ge_format; [apply format_bpow; lia|]. bpow_eval. lra.
Qed.



End DistributionExamples.

(** ** Equal similarities *)

Section EqualSimilarities.

Import Double Ideal EmbeddingService.
Local Open Scope R_scope.

Lemma rnd_eval x v : round x = v -> Rabs x <= bpow 1001 -> JS.rnd x = Fin v.
Proof. intros <- H. now apply small_is_finite. Qed.

Lemma bpow_1001_ge : 1000000 <= bpow 1001.
Proof.
  apply Rle_trans with (bpow 20); [bpow_eval; lra|apply bpow_le; lia].
Qed.

Lemma rnd_small x v : round x = v -> -1000000 <= x <= 1000000 -> JS.rnd x = Fin v.
Proof.
  intros Hv Hx. apply rnd_eval; [exact Hv|].
  pose proof bpow_1001_ge. apply Rabs_le. lra.
Qed.

(** The binary64 numbers nearest to 0.7 and 0.2. *)
Lemma round_0_7 : round 0.7 = IZR 6305039478318694 * bpow (-53).
Proof. round_eval 6305039478318694%Z (-53)%Z. Qed.

Lemma round_0_2 : round 0.2 = IZR 7205759403792794 * bpow (-55).
Proof. round_eval 7205759403792794%Z (-55)%Z. Qed.

Lemma lit_0_7 : JS.lit 0.7 = Fin (IZR 6305039478318694 * bpow (-53)).
Proof. apply rnd_small; [apply round_0_7|lra]. Qed.

Lemma lit_0_2_value : JS.lit 0.2 = Fin (IZR 7205759403792794 * bpow (-55)).
Proof. apply rnd_small; [apply round_0_2|lra]. Qed.

(** Adding up ones. *)
Lemma sum_ones (m j : nat) :
  (Z.of_nat (j + m) <= 2 ^ 53)%Z ->
  fold_left JS.add (repeat (Fin 1) m) (Fin (INR j)) = Fin (INR (j + m)).
Proof.
  revert j. induction m as [|m IH]; intros j Hj; cbn [repeat fold_left].
  - now rewrite Nat.add_0_r.
  - rewrite add_fin. replace (INR j + 1) with (INR (S j)) by (rewrite S_INR; ring).
    rewrite INR_IZR_INZ, rnd_IZR by lia. rewrite <- INR_IZR_INZ.
    rewrite IH by lia. f_equal. f_equal. lia.
Qed.

Context {libm : Libm}.
Hypothesis spec : LibmSpec libm.

(** Equal finite scaled similarities give the uniform distribution
    exactly: each entry is the binary64 number nearest to [1 / n]. *)
Lemma softmax_equal (v : R) (n : nat) :
  (1 <= n)%nat -> (Z.of_nat n <= 2 ^ 53)%Z ->
  (let scaled := repeat (Fin v) n in
   let maxVal := Math.max scaled in
   let exps := map (fun s => Math.exp (JS.sub s maxVal)) scaled in
   let sumExps := EmbeddingService.sum exps in
   map (fun e => JS.div e sumExps) exps) = repeat (JS.rnd (1 / INR n)) n.
Proof.
  intros Hn Hn2. cbv zeta.
  assert (Hmax : Math.max (repeat (Fin v) n) = Fin v).
  { destruct n as [|n]; [lia|].
    replace (repeat (Fin v) (S n)) with (map Fin (repeat v (S n)))
      by (now rewrite map_repeat).
    rewrite max_fin by discriminate. f_equal.
    apply maxR_unique; [now left|]. intros y Hy. apply repeat_spec in Hy. lra. }
  rewrite Hmax, map_repeat, sub_self.
  assert (Hexp : Math.exp (Fin 0) = Fin 1).
  { rewrite (exp_fin_nonpos spec 0) by lra. f_equal. apply (@libm_exp_zero _ spec). }
  rewrite Hexp. unfold EmbeddingService.sum.
  change (Fin 0) with (Fin (INR 0)). rewrite sum_ones by (cbn [Nat.add]; lia).
  cbn [Nat.add]. rewrite map_repeat. f_equal.
  apply div_fin. apply Rgt_not_eq. apply lt_0_INR. lia.
Qed.

Lemma repeat_5 (A : Type) (a : A) : [a; a; a; a; a] = repeat a 5.
Proof. reflexivity. Qed.

Lemma maxR_repeat c n : maxR (repeat c (S n)) = c.
Proof.
  apply maxR_unique; [now left|].
  intros y Hy. apply repeat_spec in Hy. lra.
Qed.

Lemma minR_repeat c n : minR (repeat c (S n)) = c.
Proof.
  apply minR_unique; [now left|].
  intros y Hy. apply repeat_spec in Hy. lra.
Qed.

Lemma uniform_5 : JS.div (Fin 1) (JS.of_nat 5) = JS.lit 0.2.
Proof.
  unfold JS.of_nat. rewrite div_fin by (simpl; lra). unfold JS.lit. f_equal. simpl. lra.
Qed.

(** The five similarities after normalization: themselves without
    normalization, and 0.2 each under min-max and z-score normalization
    (the range is zero; the rounded sum of the five numbers is 3.5, so the
    mean is 0.7 again and the standard deviation is zero). *)
Lemma equal_normalized (normalization : SimilarityNormalization) :
  normalizeSimilarities (map JS.lit equalSims) normalization
  = repeat (JS.lit (match normalization with none => 0.7 | _ => 0.2 end)) 5.
Proof.
  unfold equalSims. cbn [map]. rewrite lit_0_7.
  set (c := IZR 6305039478318694 * bpow (-53)).
  unfold normalizeSimilarities. cbn [length Nat.leb orb is_none].
  destruct normalization; cbn [is_none orb].
  - rewrite lit_0_7. reflexivity.
  - change [Fin c; Fin c; Fin c; Fin c; Fin c] with (map Fin (repeat c 5)).
    rewrite min_fin, max_fin by discriminate.
    rewrite maxR_repeat, minR_repeat, sub_self.
    unfold JS.strict_eq. destruct (Req_dec_T 0 0) as [_|E]; [|lra].
    rewrite map_map. cbn [repeat map]. now rewrite uniform_5.
  - assert (Hsum : EmbeddingService.sum [Fin c; Fin c; Fin c; Fin c; Fin c]
                   = Fin (IZR 7881299347898368 * bpow (-51))).
    { unfold EmbeddingService.sum. cbn [fold_left].
      rewrite add_fin, (rnd_small (0 + c) c);
        [|unfold c; round_eval 6305039478318694%Z (-53)%Z|unfold c; bpow_eval; lra].
      rewrite add_fin, (rnd_small (c + c) (IZR 6305039478318694 * bpow (-52)));
        [|unfold c; round_eval 6305039478318694%Z (-52)%Z|unfold c; bpow_eval; lra].
      rewrite add_fin, (rnd_small _ (IZR 4728779608739020 * bpow (-51)));
        [|unfold c; round_tie 4728779608739020%Z (-51)%Z
         |unfold c; bpow_eval; lra].
      rewrite add_fin, (rnd_small _ (IZR 6305039478318694 * bpow (-51)));
        [|unfold c; round_tie 6305039478318693%Z (-51)%Z
         |unfold c; bpow_eval; lra].
      rewrite add_fin, (rnd_small _ (IZR 7881299347898368 * bpow (-51)));
        [|unfold c; round_tie 7881299347898367%Z (-51)%Z
         |unfold c; bpow_eval; lra].
      reflexivity. }
    rewrite Hsum. unfold JS.of_nat.
    assert (Hmean : JS.div (Fin (IZR 7881299347898368 * bpow (-51))) (Fin (INR 5)) = Fin c).
    { rewrite div_fin by (simpl; lra).
      apply rnd_small; [|simpl; bpow_eval; lra].
      simpl INR. unfold c. round_eval 6305039478318694%Z (-53)%Z. }
    rewrite Hmean. cbn [fold_left]. rewrite sub_self. unfold JS.square.
    rewrite mul_fin, Rmult_0_l, rnd_0. repeat (rewrite add_fin, Rplus_0_l, rnd_0).
    assert (Hvar : JS.div (Fin 0) (Fin (INR 5)) = Fin 0).
    { rewrite div_fin by (simpl; lra). unfold Rdiv. rewrite Rmult_0_l. apply rnd_0. }
    rewrite Hvar. cbn [Math.sqrt]. destruct (Rlt_dec 0 0) as [E|_]; [lra|].
    rewrite sqrt_0, rnd_0.
    unfold JS.strict_eq. destruct (Req_dec_T 0 0) as [_|E]; [|lra].
    cbn [map repeat]. fold (JS.of_nat 5). now rewrite uniform_5.
Qed.

(** The scale point [scaleMin + i] of an integer bound is exact. *)
Lemma scale_point (lo : Z) (i : nat) :
  (Z.abs lo + Z.of_nat i <= 2 ^ 53)%Z ->
  JS.add (JS.of_Z lo) (JS.of_nat i) = JS.of_Z (lo + Z.of_nat i).
Proof.
  intros H. unfold JS.of_Z, JS.of_nat. rewrite add_fin, INR_IZR_INZ, <- plus_IZR.
  apply rnd_IZR. lia.
Qed.

(** The rating of the uniform distribution on five points: the products
    0.2, 0.4, 0.6000000000000001, 0.8, 1 and the running sums 0.2,
    0.6000000000000001, 1.2000000000000002, 2, 3. *)
Lemma uniform_rating : distributionToRating (repeat (JS.lit 0.2) 5) (Fin 1) = Fin 3.
Proof.
  rewrite lit_0_2_value. set (p := IZR 7205759403792794 * bpow (-55)).
  unfold distributionToRating. cbn [repeat length seq fold_left JS.get nth].
  change (Fin 1) with (JS.of_Z 1).
  rewrite !scale_point by (cbn; lia).
  cbn [Z.of_nat Pos.of_succ_nat Pos.succ Z.add Pos.add]. unfold JS.of_Z.
  (* i = 0 *)
  rewrite mul_fin, (rnd_small (p * 1) p);
    [|unfold p; round_eval 7205759403792794%Z (-55)%Z|unfold p; bpow_eval; lra].
  rewrite add_fin, (rnd_small (0 + p) p);
    [|unfold p; round_eval 7205759403792794%Z (-55)%Z|unfold p; bpow_eval; lra].
  (* i = 1 *)
  rewrite mul_fin, (rnd_small (p * 2) (IZR 7205759403792794 * bpow (-54)));
    [|unfold p; round_eval 7205759403792794%Z (-54)%Z|unfold p; bpow_eval; lra].
  rewrite add_fin, (rnd_small _ (IZR 5404319552844596 * bpow (-53)));
    [|unfold p; round_tie 5404319552844595%Z (-53)%Z|unfold p; bpow_eval; lra].
  (* i = 2 *)
  rewrite mul_fin, (rnd_small (p * 3) (IZR 5404319552844596 * bpow (-53)));
    [|unfold p; round_tie 5404319552844595%Z (-53)%Z|unfold p; bpow_eval; lra].
  rewrite add_fin, (rnd_small _ (IZR 5404319552844596 * bpow (-52)));
    [|round_eval 5404319552844596%Z (-52)%Z|bpow_eval; lra].
  (* i = 3 *)
  rewrite mul_fin, (rnd_small (p * 4) (IZR 7205759403792794 * bpow (-53)));
    [|unfold p; round_eval 7205759403792794%Z (-53)%Z|unfold p; bpow_eval; lra].
  rewrite add_fin, (rnd_small _ (IZR 4503599627370496 * bpow (-51)));
    [|round_tie 4503599627370496%Z (-51)%Z|bpow_eval; lra].
  (* i = 4 *)
  rewrite mul_fin, (rnd_small (p * 5) (IZR 4503599627370496 * bpow (-52)));
    [|unfold p; round_eval 4503599627370496%Z (-52)%Z|unfold p; bpow_eval; lra].
  rewrite add_fin, (rnd_small _ (IZR 6755399441055744 * bpow (-51)));
    [|round_eval 6755399441055744%Z (-51)%Z|bpow_eval; lra].
  cbn [Math.round]. f_equal.
  replace (IZR 6755399441055744 * bpow (-51)) with (IZR 3) by (bpow_eval; lra).
  now rewrite roundR_IZR.
Qed.

Lemma clamp_3 : clamp (Fin 3) (Fin 1) (Fin 5) = Fin 3.
Proof.
  unfold clamp, Math.min, Math.max. cbn [fold_left Math.max2 Math.min2 JS.lt].
  destruct (Rlt_dec 3 1); [lra|]. cbn [Math.min2 JS.lt].
  destruct (Rlt_dec 5 3); [lra|reflexivity].
Qed.

(** The binary logarithms at hand. *)
Lemma ln_2_ge_half : / 2 <= ln 2.
Proof.
  assert (H : exp (/ 2) <= 2).
  { pose proof (exp_ge_1_plus (- / 2)) as H1. pose proof (exp_pos (/ 2)) as H2.
    assert (E : exp (/ 2) * exp (- / 2) = 1).
    { rewrite <- exp_plus, Rplus_opp_r. apply exp_0. }
    nra. }
  rewrite <- (ln_exp (/ 2)). destruct H as [H|H].
  - left. apply ln_increasing; [apply exp_pos|exact H].
  - rewrite H. lra.
Qed.

Lemma ln_le_mono a b : 0 < a -> a <= b -> ln a <= ln b.
Proof.
  intros Ha [H| ->]; [left; now apply ln_increasing|lra].
Qed.

Lemma log2_5_bounds : 2 <= ln 5 / ln 2 <= 3.
Proof.
  pose proof ln_2_ge_half as H2.
  assert (H4 : ln 4 = 2 * ln 2).
  { replace 4 with (2 * 2) by lra. rewrite ln_mult by lra. lra. }
  assert (H8 : ln 8 = 3 * ln 2).
  { replace 8 with (2 * (2 * 2)) by lra. rewrite !ln_mult by lra. lra. }
  pose proof (ln_le_mono 4 5 ltac:(lra) ltac:(lra)) as Hlo.
  pose proof (ln_le_mono 5 8 ltac:(lra) ltac:(lra)) as Hhi.
  split.
  - apply Rmult_le_reg_r with (ln 2); [lra|].
    replace (ln 5 / ln 2 * ln 2) with (ln 5) by (field; lra). lra.
  - apply Rmult_le_reg_r with (ln 2); [lra|].
    replace (ln 5 / ln 2 * ln 2) with (ln 5) by (field; lra). lra.
Qed.

Lemma ln_1_plus x : 0 <= x -> 0 <= ln (1 + x) <= x.
Proof.
  intros Hx. split.
  - rewrite <- ln_1. apply ln_le_mono; lra.
  - rewrite <- (ln_exp x) at 2. apply ln_le_mono; [lra|apply exp_ge_1_plus].
Qed.

(** The logarithm of the binary64 number nearest to 0.2 is that of 1/5
    up to [2^-53]. *)
Lemma log2_fifth :
  - (ln 5 / ln 2) <= ln (IZR 7205759403792794 * bpow (-55)) / ln 2
  <= - (ln 5 / ln 2) + / 1000000000000000.
Proof.
  pose proof ln_2_ge_half as H2.
  set (p := IZR 7205759403792794 * bpow (-55)).
  assert (Hp : 5 * p = 1 + bpow (-54)) by (unfold p; bpow_eval; lra).
  assert (Hp0 : 0 < p) by (unfold p; bpow_eval; lra).
  assert (Hln : ln p = ln (1 + bpow (-54)) - ln 5).
  { rewrite <- Hp, ln_mult by lra. ring. }
  pose proof (ln_1_plus (bpow (-54)) (Rlt_le _ _ (bpow_pos _))) as [H0 H1].
  assert (Hb : bpow (-54) <= / 4000000000000000) by (bpow_eval; lra).
  assert (E : ln p / ln 2 = - (ln 5 / ln 2) + ln (1 + bpow (-54)) / ln 2).
  { rewrite Hln. field. lra. }
  rewrite E.
  assert (0 <= ln (1 + bpow (-54)) / ln 2 <= / 1000000000000000).
  { split.
    - apply Rmult_le_pos; [exact H0|]. left. apply Rinv_0_lt_compat. lra.
    - apply Rmult_le_reg_r with (ln 2); [lra|].
      replace (ln (1 + bpow (-54)) / ln 2 * ln 2) with (ln (1 + bpow (-54)))
        by (field; lra).
      nra. }
  lra.
Qed.

Lemma round_within x b : Rabs x <= b -> Rabs (round x - x) <= eps * b + eta.
Proof.
  intros H. pose proof (round_error x). pose proof eps_pos. nra.
Qed.

Lemma roundR_zero w : - / 2 <= w < / 2 -> Math.roundR w = 0%Z.
Proof. intros H. unfold Math.roundR. apply floorR_spec; simpl; lra. Qed.

Lemma overflow_small y : Rabs y <= 1000000 -> JS.overflow y = Fin y.
Proof.
  intros H. apply overflow_fin. pose proof bpow_1001_ge.
  apply Rle_trans with (bpow 1023); [|apply MAX_ge].
  apply Rle_trans with (bpow 1001); [lra|apply bpow_le; lia].
Qed.

(** The confidence of the uniform distribution on five points is 0: the
    entropy and the largest entropy agree to 13 digits, and the rounding
    to two decimals gives 0. *)
Lemma uniform_confidence : Ablation.confidence (repeat (JS.lit 0.2) 5) = Fin 0.
Proof.
  rewrite lit_0_2_value. set (p := IZR 7205759403792794 * bpow (-55)).
  assert (Hp : 0.2 <= p <= 0.2000000000000001) by (unfold p; bpow_eval; lra).
  pose proof log2_5_bounds as Hl. pose proof log2_fifth as Hlp. fold p in Hlp.
  set (l := ln 5 / ln 2) in *.
  pose proof eps_value as Heps. pose proof eta_small as Heta. pose proof eta_pos as Heta0.
  pose proof (@libm_log2_accurate _ spec p ltac:(lra)) as HL.
  pose proof (@libm_log2_accurate _ spec 5 ltac:(lra)) as HL5. fold l in HL5.
  assert (Hb52 : bpow (-52) <= / 4000000000000000) by (bpow_eval; lra).
  assert (Hb1074 : bpow (-1074) <= / 1000000000000000000000000000000)
    by (apply Rle_trans with (bpow (-200)); [apply bpow_le; lia|bpow_eval; lra]).
  pose proof (bpow_pos (-52)). pose proof (bpow_pos (-1074)).
  set (L := libm_log2 p) in *. set (L5 := libm_log2 5) in *.
  assert (HLb : - l - / 100000000000000 <= L <= - l + / 100000000000000).
  { assert (Rabs (ln p / ln 2) <= 4) by (apply Rabs_le; lra).
    apply Rabs_le_inv in HL. nra. }
  assert (HL5b : l - / 100000000000000 <= L5 <= l + / 100000000000000).
  { rewrite (Rabs_pos_eq l) in HL5 by lra. apply Rabs_le_inv in HL5. nra. }
  (* the entropy loop *)
  assert (Hlog : Math.log2 (Fin p) = Fin L).
  { cbn [Math.log2]. destruct (Rlt_dec p 0); [lra|].
    unfold Rzero_dec. destruct (Req_dec_T p 0); [lra|].
    apply overflow_small. apply Rabs_le. lra. }
  assert (Hgt : JS.gt (Fin p) (Fin 0) = true).
  { unfold JS.gt, JS.lt. destruct (Rlt_dec 0 p); [reflexivity|lra]. }
  set (q := round (p * L)).
  assert (Hq : JS.mul (Fin p) (Fin L) = Fin q /\ Rabs (q - p * L) <= / 1000000000000000).
  { assert (Hx : Rabs (p * L) <= 1) by (apply Rabs_le; nra).
    split.
    - rewrite mul_fin. apply rnd_small; [reflexivity|]. apply Rabs_le_inv in Hx. lra.
    - pose proof (round_within _ _ Hx). unfold q. rewrite Heps in *. lra. }
  destruct Hq as [Hmul Hq]. apply Rabs_le_inv in Hq.
  assert (Hstep : forall h, -4 <= h <= 0 ->
            JS.add (Fin h) (Fin q) = Fin (round (h + q)) /\
            Rabs (round (h + q) - (h + q)) <= / 1000000000000000).
  { intros h Hh.
    assert (Hx : Rabs (h + q) <= 5) by (apply Rabs_le; nra).
    split.
    - rewrite add_fin. apply rnd_small; [reflexivity|]. apply Rabs_le_inv in Hx. lra.
    - pose proof (round_within _ _ Hx). rewrite Heps in *. lra. }
  assert (Hpl : - (l / 5) - / 200000000000000 <= p * L <= - (l / 5) + / 200000000000000)
    by nra.
  unfold Ablation.confidence, Ablation.maxEntropy, Ablation.entropy.
  rewrite repeat_length. cbn [repeat fold_left]. rewrite Hgt, Hlog, Hmul.
  destruct (Hstep 0 ltac:(lra)) as [-> H1]. apply Rabs_le_inv in H1.
  set (h1 := round (0 + q)) in *.
  destruct (Hstep h1 ltac:(lra)) as [-> H2]. apply Rabs_le_inv in H2.
  set (h2 := round (h1 + q)) in *.
  destruct (Hstep h2 ltac:(lra)) as [-> H3]. apply Rabs_le_inv in H3.
  set (h3 := round (h2 + q)) in *.
  destruct (Hstep h3 ltac:(lra)) as [-> H4]. apply Rabs_le_inv in H4.
  set (h4 := round (h3 + q)) in *.
  destruct (Hstep h4 ltac:(lra)) as [-> H5]. apply Rabs_le_inv in H5.
  set (h5 := round (h4 + q)) in *.
  assert (Hent : l - / 10000000000000 <= - h5 <= l + / 10000000000000) by lra.
  cbn [JS.neg].
  (* the largest entropy *)
  assert (Hlog5 : Math.log2 (JS.of_nat 5) = Fin L5).
  { unfold JS.of_nat. replace (INR 5) with 5 by (simpl; lra).
    cbn [Math.log2]. destruct (Rlt_dec 5 0); [lra|].
    unfold Rzero_dec. destruct (Req_dec_T 5 0); [lra|].
    apply overflow_small. apply Rabs_le. lra. }
  rewrite Hlog5.
  assert (Hgt5 : JS.gt (Fin L5) (Fin 0) = true).
  { unfold JS.gt, JS.lt. destruct (Rlt_dec 0 L5); [reflexivity|lra]. }
  rewrite Hgt5.
  (* the ratio and the rounding to two decimals *)
  assert (Hratio : - / 1000000000000 <= - h5 / L5 - 1 <= / 1000000000000).
  { assert (HL50 : 0 < L5) by lra.
    assert (E : - h5 / L5 - 1 = (- h5 - L5) / L5) by (field; lra).
    rewrite E.
    assert (Hi : 0 < / L5 <= 1).
    { split; [now apply Rinv_0_lt_compat|].
      rewrite <- Rinv_1. apply Rinv_le_contravar; lra. }
    unfold Rdiv. split; nra. }
  rewrite div_fin by lra.
  set (x1 := - h5 / L5) in *.
  rewrite (rnd_small x1 (round x1)) by (try reflexivity; lra).
  pose proof (round_within x1 2 ltac:(apply Rabs_le; lra)) as Hr1.
  apply Rabs_le_inv in Hr1. rewrite Heps in Hr1.
  rewrite sub_fin.
  set (x2 := 1 - round x1).
  assert (Hx2 : - / 100000000000 <= x2 <= / 100000000000) by (unfold x2; lra).
  rewrite (rnd_small x2 (round x2)) by (try reflexivity; lra).
  pose proof (round_within x2 1 ltac:(apply Rabs_le; lra)) as Hr2.
  apply Rabs_le_inv in Hr2. rewrite Heps in Hr2.
  rewrite mul_fin.
  set (x3 := round x2 * 100).
  assert (Hx3 : - / 100000000 <= x3 <= / 100000000) by (unfold x3; lra).
  rewrite (rnd_small x3 (round x3)) by (try reflexivity; lra).
  pose proof (round_within x3 1 ltac:(apply Rabs_le; lra)) as Hr3.
  apply Rabs_le_inv in Hr3. rewrite Heps in Hr3.
  cbn [Math.round]. rewrite roundR_zero by lra.
  rewrite div_fin by lra. unfold Rdiv. rewrite Rmult_0_l. apply rnd_0.
Qed.


(** On NaN entries the rating is NaN and the confidence is 1: no entry
    counts as positive, so the entropy is 0. *)
Lemma NaN_rating lo hi :
  clamp (distributionToRating (repeat NaN 5) (Fin lo)) (Fin lo) (Fin hi) = NaN.
Proof. reflexivity. Qed.

Lemma NaN_confidence : Ablation.confidence (repeat NaN 5) = Fin 1.
Proof.
  pose proof log2_5_bounds as Hl. set (l := ln 5 / ln 2) in *.
  pose proof (@libm_log2_accurate _ spec 5 ltac:(lra)) as HL5. fold l in HL5.
  assert (Hb52 : bpow (-52) <= / 4000000000000000) by (bpow_eval; lra).
  assert (Hb1074 : bpow (-1074) <= / 1000000000000000000000000000000)
    by (apply Rle_trans with (bpow (-200)); [apply bpow_le; lia|bpow_eval; lra]).
  pose proof (bpow_pos (-52)). pose proof (bpow_pos (-1074)).
  set (L5 := libm_log2 5) in *.
  assert (HL5b : 1 <= L5 <= 4).
  { rewrite (Rabs_pos_eq l) in HL5 by lra. apply Rabs_le_inv in HL5. nra. }
  unfold Ablation.confidence, Ablation.maxEntropy, Ablation.entropy.
  rewrite repeat_length.
  assert (Hlog5 : Math.log2 (JS.of_nat 5) = Fin L5).
  { unfold JS.of_nat. replace (INR 5) with 5 by (simpl; lra).
    cbn [Math.log2]. destruct (Rlt_dec 5 0); [lra|].
    unfold Rzero_dec. destruct (Req_dec_T 5 0); [lra|].
    apply overflow_small. apply Rabs_le. lra. }
  rewrite Hlog5.
  assert (Hgt5 : JS.gt (Fin L5) (Fin 0) = true).
  { unfold JS.gt, JS.lt. destruct (Rlt_dec 0 L5); [reflexivity|lra]. }
  rewrite Hgt5. cbn [repeat fold_left JS.gt JS.lt JS.neg].
  rewrite div_fin by lra.
  replace (- 0 / L5) with 0 by (field; lra).
  rewrite rnd_0, sub_fin.
  replace (1 - 0) with (IZR 1) by lra. rewrite rnd_IZR by lia.
  rewrite mul_fin. replace (IZR 1 * 100) with (IZR 100) by lra.
  rewrite rnd_IZR by lia. cbn [Math.round]. rewrite roundR_IZR.
  rewrite div_fin by lra. replace (IZR 100 / 100) with (IZR 1) by lra.
  now rewrite rnd_IZR by lia.
Qed.

End EqualSimilarities.

Section EqualSimilaritiesExamples.

Import Double Ideal EmbeddingService.
Local Open Scope R_scope.



End EqualSimilaritiesExamples.

(** ** Rating reduction and clamping *)

Section Rating.

Import Double Ideal EmbeddingService.
Local Open Scope R_scope.

Lemma expectedValue_bounds (d : list R) (lo : R) :
  Forall (fun p => 0 <= p) d ->
  lo * sumR d <= expectedValue d lo <= (lo + INR (length d) - 1) * sumR d.
Proof.
  intros Hd. revert lo. induction Hd as [|p d Hp Hd IH]; intros lo.
  - simpl. rewrite sumR_nil. lra.
  - cbn [expectedValue]. rewrite sumR_cons.
    change (length (p :: d)) with (S (length d)). rewrite S_INR.
    destruct (IH (lo + 1)) as [IHl IHu].
    pose proof (sumR_nonneg Hd) as Hs.
    pose proof (pos_INR (length d)) as Hn.
    split; nra.
Qed.

Lemma roundR_near x (lo hi : Z) :
  IZR lo - / 2 <= x -> x < IZR hi + / 2 -> (lo <= Math.roundR x <= hi)%Z.
Proof.
  intros Hlo Hhi. unfold Math.roundR.
  destruct (floorR_bounds (x + / 2)) as [H1 H2].
  split.
  - apply Z.lt_succ_r. apply lt_IZR. rewrite succ_IZR. lra.
  - apply Z.lt_succ_r. apply lt_IZR. rewrite succ_IZR. lra.
Qed.

Lemma roundR_unique x (k : Z) :
  IZR k - / 2 <= x -> x < IZR k + / 2 -> Math.roundR x = k.
Proof. intros H1 H2. pose proof (roundR_near x k k H1 H2). lia. Qed.

(** The indexed loop of [distributionToRating] on a list of non-negative
    real values and scale points of magnitude at most 1000: the running
    sum [W] is the expected value up to the rounding of each product and
    each sum. *)
Lemma weightedSum_loop (lo : Z) (d : list R) :
  forall (pre : list R) (a A : R) (k : nat),
  Forall (fun p => 0 <= p) d ->
  (forall i, (i < length pre + length d)%nat -> Rabs (IZR lo + INR i) <= 1000) ->
  Rabs A + 1000 * sumR d <= 1001 ->
  Rabs (a - A) <= INR k * (2004 * eps + 2 * eta) ->
  INR (k + length d) <= 3000 ->
  exists W,
    fold_left
      (fun weightedSum i =>
         JS.add weightedSum
           (JS.mul (JS.get (map Fin (pre ++ d)) i) (JS.add (JS.of_Z lo) (JS.of_nat i))))
      (seq (length pre) (length d)) (Fin a) = Fin W /\
    Rabs (W - (A + expectedValue d (IZR lo + INR (length pre))))
    <= INR (k + length d) * (2004 * eps + 2 * eta).
Proof.
  pose proof eps_value as Heps. pose proof eta_small as Heta. pose proof eta_pos as Heta0.
  induction d as [|x d IH]; intros pre a A k Hnn Hpts HA Herr Hlen.
  - exists a. split; [reflexivity|]. cbn [expectedValue length].
    rewrite Nat.add_0_r, Rplus_0_r. exact Herr.
  - inversion Hnn as [|x' d' Hx Hd]; subst.
    cbn [length seq fold_left]. rewrite sumR_cons in HA.
    pose proof (sumR_nonneg Hd) as Hrest.
    assert (Hget : JS.get (map Fin (pre ++ x :: d)) (length pre) = Fin x).
    { unfold JS.get. rewrite map_app. cbn [map].
      rewrite <- (length_map Fin pre). apply nth_middle. }
    rewrite Hget.
    assert (Hpt : Rabs (IZR lo + INR (length pre)) <= 1000).
    { apply Hpts. cbn [length]. lia. }
    assert (Hscale : JS.add (JS.of_Z lo) (JS.of_nat (length pre))
                     = Fin (IZR lo + INR (length pre))).
    { unfold JS.of_Z, JS.of_nat. rewrite add_fin, INR_IZR_INZ, <- plus_IZR.
      apply rnd_IZR. rewrite INR_IZR_INZ, <- plus_IZR in Hpt.
      rewrite <- abs_IZR in Hpt. apply le_IZR in Hpt. lia. }
    rewrite Hscale. set (s := IZR lo + INR (length pre)) in *.
    pose proof (Rabs_pos A) as HA0.
    assert (Hxs : Rabs (x * s) <= 1000 * x).
    { rewrite Rabs_mult, (Rabs_pos_eq x) by exact Hx. nra. }
    assert (Hx1 : 1000 * x <= 1001) by lra.
    rewrite mul_fin, (rnd_small (x * s) (round (x * s)))
      by (try reflexivity; apply Rabs_le_inv in Hxs; lra).
    pose proof (round_error (x * s)) as Hw.
    set (w := round (x * s)) in *.
    cbn [length] in Hlen. rewrite Nat.add_succ_r in Hlen.
    assert (Hk : 0 <= INR k <= 3000).
    { split; [apply pos_INR|].
      apply Rle_trans with (INR (S (k + length d))); [apply le_INR; lia|exact Hlen]. }
    pose proof Hxs as Hxa.
    apply Rabs_le_inv in Herr. apply Rabs_le_inv in Hw. apply Rabs_le_inv in Hxs.
    apply Rabs_le_inv in Hpt.
    assert (HAb : - 1001 <= A <= 1001).
    { pose proof (Rle_abs A). pose proof (Rle_abs (- A)) as H1.
      rewrite Rabs_Ropp in H1. lra. }
    assert (Hew : eps * Rabs (x * s) <= / 1000).
    { rewrite Heps. nra. }
    assert (Haw : Rabs (a + w) <= 1003).
    { apply Rabs_le. rewrite Heps in *.
      assert (Hke : INR k * (2004 * / 9007199254740992 + 2 * eta) <= / 1000) by nra.
      assert (HA2 : Rabs A + 1000 * x <= 1001) by lra.
      pose proof (Rle_abs A). pose proof (Rle_abs (- A)) as H1.
      rewrite Rabs_Ropp in H1. lra. }
    rewrite add_fin, (rnd_small (a + w) (round (a + w)))
      by (try reflexivity; apply Rabs_le_inv in Haw; lra).
    pose proof (round_within _ _ Haw) as Hr. apply Rabs_le_inv in Hr.
    replace (pre ++ x :: d) with ((pre ++ [x]) ++ d) by (now rewrite <- app_assoc).
    replace (S (length pre)) with (length (pre ++ [x]))
      by (rewrite length_app; simpl; lia).
    destruct (IH (pre ++ [x]) (round (a + w)) (A + x * s) (S k)) as [W [HW Hbound]].
    + exact Hd.
    + intros i Hi. apply Hpts. rewrite length_app in Hi. cbn [length] in *. lia.
    + assert (Rabs (A + x * s) <= Rabs A + 1000 * x).
      { apply Rabs_le. pose proof (Rle_abs A). pose proof (Rle_abs (- A)) as H1.
        rewrite Rabs_Ropp in H1. lra. }
      lra.
    + rewrite S_INR. apply Rabs_le.
      assert (eps * Rabs (x * s) <= eps * 1001).
      { apply Rmult_le_compat_l; [rewrite Heps; lra|lra]. }
      lra.
    + exact Hlen.
    + exists W. split; [exact HW|].
      rewrite length_app, plus_INR in Hbound. cbn [length INR] in Hbound.
      cbn [expectedValue length]. rewrite Nat.add_succ_r.
      assert (E1 : s + 1 = IZR lo + (INR (length pre) + 1)) by (unfold s; ring).
      rewrite E1, <- Rplus_assoc. exact Hbound.
Qed.

Lemma clamp_fin r lo hi :
  clamp (Fin r) (Fin lo) (Fin hi) = Fin (Rmin (Rmax r lo) hi).
Proof.
  unfold clamp.
  change [Fin r; Fin lo] with (map Fin [r; lo]).
  rewrite max_fin by discriminate. cbn [maxR fold_left].
  change [Fin (Rmax r lo); Fin hi] with (map Fin [Rmax r lo; hi]).
  rewrite min_fin by discriminate. reflexivity.
Qed.

(** The clamped rating lies between the bounds, whatever the rating. *)
Lemma clamp_range r lo hi :
  lo <= hi ->
  exists c, clamp (Fin r) (Fin lo) (Fin hi) = Fin c /\ lo <= c <= hi.
Proof.
  intros H. exists (Rmin (Rmax r lo) hi). split; [apply clamp_fin|].
  unfold Rmin, Rmax.
  destruct (Rle_dec r lo); destruct (Rle_dec _ hi); lra.
Qed.

Lemma clamp_id r lo hi : lo <= r -> r <= hi -> clamp (Fin r) (Fin lo) (Fin hi) = Fin r.
Proof.
  intros H1 H2. rewrite clamp_fin. f_equal.
  rewrite (Rmax_left r lo) by lra. apply Rmin_left. lra.
Qed.


(** The rating is the rounded mean, not the most likely point: a
    distribution split between the two ends of a 1-3 scale is rated 2. *)
Lemma rating_not_argmax :
  distributionToRating (map Fin splitDistribution) (Fin 1) = Fin 2.
Proof.
  unfold distributionToRating, splitDistribution.
  cbn [map length seq fold_left JS.get nth].
  change (Fin 1) with (JS.of_Z 1).
  rewrite !scale_point by (cbn; lia).
  cbn [Z.of_nat Pos.of_succ_nat Pos.succ Z.add Pos.add]. unfold JS.of_Z.
  rewrite mul_fin, (rnd_small (/ 2 * 1) (/ 2));
    [|replace (/ 2 * 1) with (/ 2) by lra; apply round_format, format_half|lra].
  rewrite add_fin, (rnd_small (0 + / 2) (/ 2));
    [|replace (0 + / 2) with (/ 2) by lra; apply round_format, format_half|lra].
  rewrite mul_fin, Rmult_0_l, rnd_0.
  rewrite add_fin, (rnd_small (/ 2 + 0) (/ 2));
    [|replace (/ 2 + 0) with (/ 2) by lra; apply round_format, format_half|lra].
  rewrite mul_fin, (rnd_small (/ 2 * 3) (3 * / 2));
    [|replace (/ 2 * 3) with (IZR 3 * bpow (-1)) by (bpow_eval; lra);
      replace (3 * / 2) with (IZR 3 * bpow (-1)) by (bpow_eval; lra);
      apply round_format; exists 3%Z, (-1)%Z; split; [reflexivity|split; lia]
     |lra].
  rewrite add_fin, (rnd_small (/ 2 + 3 * / 2) (IZR 2));
    [|replace (/ 2 + 3 * / 2) with (IZR 2) by lra; apply round_IZR; lia|lra].
  cbn [Math.round]. now rewrite roundR_IZR.
Qed.

(** The rating returned by [mapResponseToScale] is the clamped rating of
    the distribution it returns. *)
Lemma mapResponseToScale_rating {libm : Libm}
  embed normalizedEntropy this text anchorTexts key scaleMin scaleMax t normalization
  result this' :
  mapResponseToScale embed normalizedEntropy this text anchorTexts key
    scaleMin scaleMax t normalization = Normal (result, this') ->
  rating result
  = clamp (distributionToRating (distribution result) scaleMin) scaleMin scaleMax.
Proof.
  unfold mapResponseToScale.
  destruct (getOrComputeAnchorEmbeddings embed this key anchorTexts)
    as [[anchorVecs c]|e]; cbn [bind]; [|discriminate].
  destruct (embed [text] query) as [vecs|e]; cbn [bind]; [|discriminate].
  destruct vecs as [|v vs]; [destruct anchorVecs|]; cbn [bind];
    try discriminate; intros [= <- _]; reflexivity.
Qed.



End Rating.

(** ** Temperature selection *)

Set Implicit Arguments.

Section Selection.

Import EmbeddingService CrossValidation.
Local Open Scope R_scope.

Context {libm : Libm}.

(** A service object, in whatever state. *)
Variable service : VoyageEmbeddingService.

Lemma lt_irrefl a : JS.lt a a = false.
Proof.
  destruct a; simpl; try reflexivity.
  destruct (Rlt_dec r r); [lra|reflexivity].
Qed.

Lemma lt_trans a b c : JS.lt a b = true -> JS.lt b c = true -> JS.lt a c = true.
Proof.
  destruct a as [x| | |], b as [y| | |], c as [z| | |]; simpl;
    try discriminate; try reflexivity.
  destruct (Rlt_dec x y), (Rlt_dec y z), (Rlt_dec x z);
    try discriminate; try reflexivity; lra.
Qed.

Lemma improves_irrefl r : improves r r = false.
Proof.
  unfold improves. rewrite lt_irrefl, andb_false_r, orb_false_r.
  rewrite Z.gtb_ltb. apply Z.ltb_irrefl.
Qed.

(** What it means for a result not to improve on another one. *)
Lemma improves_false r best :
  improves r best = false <->
  (exact r <= exact best)%Z /\
  (exact r = exact best -> JS.lt (mae r) (mae best) = false).
Proof.
  unfold improves. rewrite orb_false_iff, andb_false_iff, Z.gtb_ltb, Z.ltb_ge, Z.eqb_neq.
  split.
  - intros [H1 H2]. split; [exact H1|]. intros E. destruct H2; [contradiction|assumption].
  - intros [H1 H2]. split; [exact H1|].
    destruct (Z.eq_dec (exact r) (exact best)) as [E|E]; [right; auto|left; exact E].
Qed.

Lemma improves_true r best :
  improves r best = true <->
  (exact best < exact r)%Z \/
  (exact r = exact best /\ JS.lt (mae r) (mae best) = true).
Proof.
  unfold improves. rewrite orb_true_iff, andb_true_iff, Z.gtb_ltb, Z.ltb_lt, Z.eqb_eq.
  reflexivity.
Qed.

(** A result that did not improve on the previous best does not improve
    on its replacement either. *)
Lemma improves_chain x r best :
  improves r best = true -> improves x best = false -> improves x r = false.
Proof.
  rewrite improves_true, !improves_false. intros Hr [Hx1 Hx2]. split.
  - destruct Hr as [Hr|[Hr _]]; lia.
  - intros E. destruct Hr as [Hr|[Hr Hlt]]; [lia|].
    destruct (JS.lt (mae x) (mae r)) eqn:Hxr; [|reflexivity].
    rewrite (lt_trans _ _ _ Hxr Hlt) in Hx2. apply Hx2. lia.
Qed.

Lemma foldM_total (A B : Type) (body : B -> A -> completion B) (xs : list A) :
  (forall acc x, exists acc', body acc x = Normal acc') ->
  forall acc, exists r, foldM body xs acc = Normal r.
Proof.
  intros Hbody. induction xs as [|x xs IH]; intros acc; cbn [foldM].
  - now exists acc.
  - destruct (Hbody acc x) as [acc' ->]. cbn [bind]. apply IH.
Qed.

(** A throw of a loop is a throw of its body. *)
Lemma foldM_throw (A B : Type) (body : B -> A -> completion B) (xs : list A) (P : exn -> Prop) :
  (forall acc x e, body acc x = Throw e -> P e) ->
  forall acc e, foldM body xs acc = Throw e -> P e.
Proof.
  intros Hbody. induction xs as [|x xs IH]; intros acc e; cbn [foldM].
  - discriminate.
  - destruct (body acc x) as [acc'|e'] eqn:E; cbn [bind].
    + apply IH.
    + intros [= <-]. eauto.
Qed.

(** With the embedding service at hand, [evaluate] returns. *)
Lemma evaluate_total cases t :
  exists r, evaluate (Some service) cases t = Normal r /\ total r = length cases.
Proof.
  unfold evaluate.
  match goal with
  | |- context [foldM ?body cases ?start] =>
      assert (Hloop : exists r, foldM body cases start = Normal r)
  end.
  { apply foldM_total. intros [[e w] s] tc. cbn [deref bind]. eauto. }
  destruct Hloop as [[[e w] s] ->].
  cbn [bind]. eexists. split; reflexivity.
Qed.

(** [evaluate] can only throw the [TypeError] of a missing service. *)
Lemma evaluate_throw svc cases t e :
  evaluate svc cases t = Throw e -> is_TypeError e.
Proof.
  unfold evaluate.
  match goal with
  | |- context [foldM ?body cases ?acc] =>
      destruct (foldM body cases acc) as [[[ex w] s]|e'] eqn:E
  end; cbn [bind]; [discriminate|].
  intros [= <-]. revert E. apply foldM_throw.
  intros [[ex w] s] tc e0. destruct svc as [s0|]; cbn [deref bind].
  - discriminate.
  - intros [= <-]. eexists. reflexivity.
Qed.

(** Without cases there is nothing to evaluate: the counts are zero and
    the mean absolute error is [0 / 0]. *)
Lemma evaluate_nil svc t : evaluate svc [] t = Normal emptyResult.
Proof.
  unfold evaluate, emptyResult. cbn [foldM bind length].
  assert (Hnan : forall x, JS.div (Fin x) (JS.of_nat 0) = NaN \/ x <> 0).
  { intros x. destruct (Req_dec_T x 0) as [->|]; [left|now right].
    unfold JS.div, JS.of_nat, JS.signed_inf, JS.Rzero_dec. simpl.
    destruct (Req_dec_T 0 0); [reflexivity|lra]. }
  assert (H0 : JS.div (Fin 0) (JS.of_nat 0) = NaN).
  { destruct (Hnan 0); [assumption|lra]. }
  unfold JS.of_Z. rewrite H0. reflexivity.
Qed.

Section Loop.

Variable trainCases : list EmbeddedTestCase.

(** Invariant of the selection loop: the pair it holds is the evaluation
    of a candidate seen so far, and no candidate seen so far improves on
    it. *)
Lemma selection_loop rest best bestResult :
  evaluate (Some service) trainCases best = Normal bestResult ->
  exists t r,
    foldM (selectionStep (Some service) trainCases) rest (best, bestResult) = Normal (t, r) /\
    evaluate (Some service) trainCases t = Normal r /\
    (t = best \/ In t rest) /\
    (forall x, improves x bestResult = false -> improves x r = false) /\
    (forall c, In c rest ->
       exists rc, evaluate (Some service) trainCases c = Normal rc /\ improves rc r = false).
Proof.
  revert best bestResult.
  induction rest as [|c rest IH]; intros best bestResult Hbest; cbn [foldM].
  - exists best, bestResult. repeat split; auto. intros c [].
  - destruct (evaluate_total trainCases c) as [rc [Hrc _]].
    unfold selectionStep at 1. rewrite Hrc. cbn [bind].
    destruct (improves rc bestResult) eqn:Himp; cbn [bind].
    + destruct (IH c rc Hrc) as [t [r [Hfold [Heval [Hin [Hkeep Hrest]]]]]].
      exists t, r. split; [exact Hfold|]. split; [exact Heval|].
      split; [right; destruct Hin as [->|Hin]; [now left|now right]|].
      split.
      * intros x Hx. apply Hkeep. eapply improves_chain; eassumption.
      * intros c' [<-|Hc'].
        -- exists rc. split; [exact Hrc|]. apply Hkeep. apply improves_irrefl.
        -- now apply Hrest.
    + destruct (IH best bestResult Hbest) as [t [r [Hfold [Heval [Hin [Hkeep Hrest]]]]]].
      exists t, r. split; [exact Hfold|]. split; [exact Heval|].
      split; [destruct Hin as [->|Hin]; [now left|right; now right]|].
      split; [exact Hkeep|].
      intros c' [<-|Hc'].
      * exists rc. split; [exact Hrc|]. now apply Hkeep.
      * now apply Hrest.
Qed.

End Loop.


(** The loop of [evaluate] counts the cases that pass each test and adds
    up the errors. *)
Lemma evaluate_loop t cases e w s :
  foldM
    (fun '(exact, withinOne, totalError) (tc : EmbeddedTestCase) =>
       bind (deref (Some service))
         (fun _ =>
            let dist := similaritiesToDistribution (anchorVecs tc) t NORMALIZATION in
            let rating := distributionToRating dist (scaleMin tc) in
            let clamped := clamp rating (scaleMin tc) (scaleMax tc) in
            let err := Math.abs (JS.sub clamped (expected tc)) in
            Normal (if JS.strict_eq err (Fin 0) then (exact + 1)%Z else exact,
                    if JS.le err (Fin 1) then (withinOne + 1)%Z else withinOne,
                    JS.add totalError err)))
    cases (e, w, s)
  = Normal ((e + Z.of_nat (count (isExact t) cases))%Z,
            (w + Z.of_nat (count (isWithinOne t) cases))%Z,
            fold_left JS.add (map (caseError t) cases) s).
Proof.
  revert e w s. induction cases as [|tc cases IH]; intros e w s; cbn [foldM].
  - unfold count. simpl. now rewrite !Z.add_0_r.
  - cbn [deref bind]. rewrite IH. unfold count. cbn [filter map fold_left].
    fold (caseError t tc).
    unfold isExact at 2, isWithinOne at 2.
    destruct (JS.strict_eq (caseError t tc) (Fin 0)),
             (JS.le (caseError t tc) (Fin 1));
      cbn [length]; rewrite ?Nat2Z.inj_succ;
      (apply f_equal; apply f_equal2; [apply f_equal2; lia|reflexivity]).
Qed.

(** What [evaluate] returns: the number of cases whose clamped rating is
    the expected one, the number of cases within one point of it, the mean
    of the absolute errors as the loop accumulates it, and the two
    percentages. *)
Lemma evaluate_counts t cases :
  evaluate (Some service) cases t
  = Normal
      {| exact := Z.of_nat (count (isExact t) cases);
         withinOne := Z.of_nat (count (isWithinOne t) cases);
         mae := meanError t cases;
         total := length cases;
         exactPct := percentage (count (isExact t) cases) (length cases);
         withinOnePct := percentage (count (isWithinOne t) cases) (length cases) |}.
Proof.
  unfold evaluate. rewrite evaluate_loop. cbn [bind Z.add].
  unfold percentage, meanError, JS.of_Z, JS.of_nat.
  rewrite !INR_IZR_INZ. reflexivity.
Qed.

(** The test [err === 0] holds exactly when the clamped rating is the
    expected rating, for binary64 values of both. *)
Lemma sub_zero_iff a b :
  Double.format a -> Double.format b ->
  (JS.strict_eq (Math.abs (JS.sub (Fin a) (Fin b))) (Fin 0) = true <-> a = b).
Proof.
  intros Ha Hb. split.
  - intros H. destruct (Req_dec a b) as [E|E]; [exact E|exfalso].
    assert (Hgrid : forall f, Double.format f ->
              exists j, f = IZR j * Double.bpow (-1074)).
    { intros f (m & e & Hf & _ & He). exists (m * 2 ^ (e - -1074))%Z.
      rewrite Hf. apply multiple_of_ulp. exact He. }
    destruct (Hgrid a Ha) as [ja Hja]. destruct (Hgrid b Hb) as [jb Hjb].
    pose proof (bpow_pos (-1074)) as Hp.
    assert (Hj : ja <> jb) by (intros ->; apply E; congruence).
    assert (Hone : Double.format (Double.bpow (-1074)))
      by (apply format_bpow; lia).
    rewrite sub_fin in H.
    assert (Hd : Double.bpow (-1074) <= a - b \/ a - b <= - Double.bpow (-1074)).
    { rewrite Hja, Hjb.
      destruct (Z.lt_ge_cases jb ja) as [Hlt|Hge].
      - left. assert (IZR jb + 1 <= IZR ja) by (rewrite <- plus_IZR; apply IZR_le; lia).
        nra.
      - right. assert (IZR ja + 1 <= IZR jb) by (rewrite <- plus_IZR; apply IZR_le; lia).
        nra. }
    assert (Hr : Double.bpow (-1074) <= Double.round (a - b)
                 \/ Double.round (a - b) <= - Double.bpow (-1074)).
    { destruct Hd as [Hd|Hd]; [left|right].
      - now apply round_ge_format.
      - apply round_le_format; [now apply format_opp|exact Hd]. }
    unfold JS.rnd, JS.overflow in H.
    destruct (Rlt_dec Double.MAX (Double.round (a - b))); [discriminate|].
    destruct (Rlt_dec (Double.round (a - b)) (- Double.MAX)); [discriminate|].
    cbn [Math.abs JS.strict_eq] in H.
    destruct (Req_dec_T (Rabs (Double.round (a - b))) 0) as [E0|]; [|discriminate].
    pose proof (Rabs_pos_lt (Double.round (a - b))) as Hpos.
    destruct Hr; assert (Double.round (a - b) <> 0) by lra; specialize (Hpos H1); lra.
  - intros ->. rewrite sub_self. cbn [Math.abs JS.strict_eq]. rewrite Rabs_R0.
    destruct (Req_dec_T 0 0); [reflexivity|lra].
Qed.


End Selection.


Section SelectionExample.

Import EmbeddingService CrossValidation.
Local Open Scope R_scope.


End SelectionExample.

(** ** Failure paths of the calibration *)

Section CalibrationFailures.

Import EmbeddingService CrossValidation.
Local Open Scope R_scope.

Context {libm : Libm}.

Variable service : VoyageEmbeddingService.

(** On an empty training set every candidate evaluates to the same empty
    result, so the first candidate is kept. *)
Lemma selection_nil svc rest best :
  foldM (selectionStep svc []) rest (best, emptyResult) = Normal (best, emptyResult).
Proof.
  induction rest as [|c rest IH]; cbn [foldM]; [reflexivity|].
  unfold selectionStep at 1. rewrite evaluate_nil. cbn [bind].
  rewrite improves_irrefl. cbn [bind]. exact IH.
Qed.

Lemma findBestTemp_nil candidates svc :
  findBestTemp candidates svc [] = Normal (JS.get candidates 0, emptyResult).
Proof.
  unfold findBestTemp. rewrite evaluate_nil. cbn [bind]. apply selection_nil.
Qed.

Lemma findBestTemp_throw candidates svc trainCases e :
  findBestTemp candidates svc trainCases = Throw e -> is_TypeError e.
Proof.
  unfold findBestTemp.
  destruct (evaluate svc trainCases (JS.get candidates 0)) as [r0|e0] eqn:E0;
    cbn [bind].
  - apply foldM_throw. intros [bt br] c e1. unfold selectionStep.
    destruct (evaluate svc trainCases c) as [rc|ec] eqn:Ec; cbn [bind].
    + destruct (improves rc br); discriminate.
    + intros [= <-]. eapply evaluate_throw. exact Ec.
  - intros [= <-]. eapply evaluate_throw. exact E0.
Qed.

Lemma findBestTemp_total candidates trainCases :
  exists t r, findBestTemp candidates (Some service) trainCases = Normal (t, r).
Proof.
  unfold findBestTemp.
  destruct (evaluate_total service trainCases (JS.get candidates 0)) as [r0 [-> _]].
  cbn [bind].
  destruct (@foldM_total _ _ (selectionStep (Some service) trainCases) (tl candidates))
    with (acc := (JS.get candidates 0, r0)) as [[t r] H].
  - intros [bt br] c. unfold selectionStep.
    destruct (evaluate_total service trainCases c) as [rc [-> _]]. cbn [bind].
    destruct (improves rc br); eauto.
  - eauto.
Qed.

Lemma lodo_loop_total candidates embedded domains results :
  exists out,
    foldM (lodoStep candidates (Some service) embedded) domains results = Normal out /\
    length out = (length results + length domains)%nat.
Proof.
  revert results. induction domains as [|h domains IH]; intros results; cbn [foldM].
  - exists results. split; [reflexivity|simpl; lia].
  - unfold lodoStep at 1.
    match goal with
    | |- context [findBestTemp candidates (Some service) ?train] =>
        destruct (findBestTemp_total candidates train) as [t [r ->]]
    end.
    cbn [bind].
    match goal with
    | |- context [evaluate (Some service) ?test t] =>
        destruct (evaluate_total service test t) as [r' [-> _]]
    end.
    cbn [bind].
    match goal with
    | |- context [foldM _ domains ?acc] => destruct (IH acc) as [out [-> Hlen]]
    end.
    exists out. split; [reflexivity|].
    rewrite Hlen, length_app. simpl. lia.
Qed.

Lemma runLODO_total candidates TEST_CASES embedded :
  exists results,
    runLODO candidates TEST_CASES (Some service) embedded = Normal results /\
    length results = length (getDomains TEST_CASES).
Proof.
  destruct (lodo_loop_total candidates embedded (getDomains TEST_CASES) [])
    as [out [H Hlen]].
  exists out. split; [exact H|exact Hlen].
Qed.

Lemma runLODO_throw candidates TEST_CASES svc embedded e :
  runLODO candidates TEST_CASES svc embedded = Throw e -> is_TypeError e.
Proof.
  unfold runLODO. apply foldM_throw. intros results holdout e0. unfold lodoStep.
  match goal with
  | |- context [findBestTemp candidates svc ?train] =>
      destruct (findBestTemp candidates svc train) as [[t r]|e1] eqn:E1
  end; cbn [bind].
  - match goal with
    | |- context [evaluate svc ?test t] =>
        destruct (evaluate svc test t) as [r'|e2] eqn:E2
    end; cbn [bind]; [discriminate|].
    intros [= <-]. eapply evaluate_throw. exact E2.
  - intros [= <-]. eapply findBestTemp_throw. exact E1.
Qed.

Lemma TypeError_not_InsufficientData e : is_TypeError e -> e <> InsufficientData.
Proof. intros [msg ->]. discriminate. Qed.

(** C6 (as the code has it).  The calibration has no check on the data:
    it never fails with [InsufficientData]; with the embedding service at
    hand the leave-one-domain-out run returns one result per domain,
    whatever the number of domains; and on an empty train split
    [findBestTemp] returns the first candidate together with the empty
    evaluation (no exact match, [NaN] mean absolute error). *)
Theorem calibration_has_no_data_check
  (candidates : list number) (TEST_CASES : list TestCase)
  (svc : option VoyageEmbeddingService)
  (embedded trainCases : list EmbeddedTestCase) :
  runLODO candidates TEST_CASES svc embedded <> Throw InsufficientData /\
  findBestTemp candidates svc trainCases <> Throw InsufficientData /\
  (exists results,
     runLODO candidates TEST_CASES (Some service) embedded = Normal results /\
     length results = length (getDomains TEST_CASES)) /\
  findBestTemp candidates svc [] = Normal (JS.get candidates 0, emptyResult).
Proof.
  split; [|split; [|split]].
  - intros H. apply runLODO_throw in H.
    now apply TypeError_not_InsufficientData in H.
  - intros H. apply findBestTemp_throw in H.
    now apply TypeError_not_InsufficientData in H.
  - apply runLODO_total.
  - apply findBestTemp_nil.
Qed.

End CalibrationFailures.


Section SingleDomain.

Import EmbeddingService CrossValidation.
Local Open Scope R_scope.

(** C6 as stated fails.  A request with a single domain: the only fold
    has an empty train split, and the run returns the first candidate
    temperature instead of failing. *)
Lemma single_domain_calibration_returns :
  length (getDomains (map testCase singleDomainCases)) = 1%nat /\
  forall libm : Libm,
    @runLODO libm CANDIDATE_TEMPS_source (map testCase singleDomainCases)
      (Some sampleService) singleDomainCases <> Throw InsufficientData /\
    exists testResult,
      @runLODO libm CANDIDATE_TEMPS_source (map testCase singleDomainCases)
        (Some sampleService) singleDomainCases
      = Normal [{| heldOutDomain := "satisfaction";
                   calibratedTemp := JS.lit 0.05;
                   trainResult := emptyResult;
                   testResult := testResult |}].
Proof.
  split; [reflexivity|]. intros libm.
  assert (H : exists testResult,
    @runLODO libm CANDIDATE_TEMPS_source (map testCase singleDomainCases)
      (Some sampleService) singleDomainCases
    = Normal [{| heldOutDomain := "satisfaction";
                 calibratedTemp := JS.lit 0.05;
                 trainResult := emptyResult;
                 testResult := testResult |}]).
  { unfold runLODO.
    change (getDomains (map testCase singleDomainCases)) with ["satisfaction"%string].
    cbn [foldM]. unfold lodoStep.
    change (filter (fun tc : EmbeddedTestCase =>
                      negb (String.eqb (domain tc) "satisfaction")) singleDomainCases)
      with (@nil EmbeddedTestCase).
    rewrite findBestTemp_nil. cbn [bind JS.get nth CANDIDATE_TEMPS_source map].
    match goal with
    | |- context [evaluate (Some sampleService) ?test ?t] =>
        destruct (evaluate_total sampleService test t) as [r [-> _]]
    end.
    cbn [bind app]. now exists r. }
  split; [|exact H].
  destruct H as [r ->]. discriminate.
Qed.

End SingleDomain.

(** ** The seeded generator and the bootstrap loop *)

Section Bootstrap.

Import EmbeddingService CrossValidation.

Context {libm : Libm}.

Lemma ToUint32_range x : (0 <= ToUint32 x < 2 ^ 32)%Z.
Proof. unfold ToUint32. apply Z.mod_pos_bound. lia. Qed.

(** The generator returns a 32-bit numerator, so its result lies in
    [0, 1). *)
Lemma rng_range state : (0 <= fst (rng state) < 4294967296)%Z.
Proof.
  unfold rng. cbn [fst]. unfold ushr at 1. rewrite Z.shiftr_0_r.
  apply ToUint32_range.
Qed.

(** Integers below [2^53] in magnitude are binary64 numbers. *)
Lemma roundZ_small z : (Z.abs z < 2 ^ 53)%Z -> Double.roundZ z = z.
Proof.
  intros H. unfold Double.roundZ.
  destruct (Z.abs z <? 2 ^ 53)%Z eqn:E; [reflexivity|].
  apply Z.ltb_ge in E. lia.
Qed.

(** The shuffle swaps position [i] with a position not after it (for an
    index below [2^21] the product is exact). *)
Lemma randomIndex_le r i :
  (0 <= r < 4294967296)%Z -> (Z.of_nat i < 2 ^ 21)%Z -> (randomIndex r i <= i)%nat.
Proof.
  intros Hr Hi. unfold randomIndex.
  rewrite roundZ_small by (rewrite Z.abs_eq by nia; nia).
  assert (r * (Z.of_nat i + 1) / 4294967296 < Z.of_nat i + 1)%Z.
  { apply Z.div_lt_upper_bound; nia. }
  assert (0 <= r * (Z.of_nat i + 1) / 4294967296)%Z.
  { apply Z.div_pos; nia. }
  lia.
Qed.

(** Beyond [2^53] the state of the generator is rounded: 2^53 + 1 is not
    a binary64 number. *)
Example roundZ_large :
  (Double.roundZ (2 ^ 53 + 1), Double.roundZ (2 ^ 53 + 3), Double.roundZ (- (2 ^ 60) - 129))
  = (2 ^ 53, 2 ^ 53 + 4, - (2 ^ 60) - 256)%Z.
Proof. vm_compute. reflexivity. Qed.

(** The first two results of the generator seeded with 42 are
    2581720956 / 2^32 = 0.6011037519... and 1925393290 / 2^32 =
    0.4482905589.... *)
Example rng_seed_42 :
  let '(r1, state1) := rng (mulberry32 42) in
  let '(r2, _) := rng state1 in
  (r1, r2) = (2581720956, 1925393290)%Z.
Proof. vm_compute. reflexivity. Qed.

Example shuffle_seed_42 :
  fst (shuffle [0; 1; 2; 3; 4; 5; 6; 7; 8; 9]%Z (mulberry32 42))
  = [0; 7; 3; 5; 2; 1; 8; 9; 4; 6]%Z.
Proof. vm_compute. reflexivity. Qed.

(** The split index is the binary64 product rounded down: 7 of 10 cases,
    48 of 69, and 62 (not 63) of 90. *)
Example split_indices :
  map (fun n => Binary64.floor_scaled n BOOTSTRAP_TRAIN_RATIO) [10; 69; 90]%nat
  = [7; 48; 62]%nat.
Proof. vm_compute. reflexivity. Qed.

Example percentile_indices :
  (Binary64.floor_scaled BOOTSTRAP_REPEATS_source PERCENTILE_LOW,
   Binary64.floor_scaled BOOTSTRAP_REPEATS_source PERCENTILE_HIGH) = (2, 97)%nat.
Proof. vm_compute. reflexivity. Qed.

Example foldAssignments_seed_42 :
  foldAssignments 2 [0; 1; 2; 3; 4; 5; 6; 7; 8; 9]%Z (mulberry32 42)
  = [([0; 7; 3; 5; 2; 1; 8], [9; 4; 6]); ([9; 6; 3; 8; 0; 1; 5], [7; 2; 4])]%Z.
Proof. vm_compute. reflexivity. Qed.

(** Replacing an entry by [x] and putting the old entry in front is a
    permutation of [x :: l]. *)
Lemma update_permutation (T : Type) (l : list T) (j : nat) (x y : T) :
  nth_error l j = Some y -> Permutation (y :: update l j x) (x :: l).
Proof.
  revert j. induction l as [|z l IH]; intros [|j] H; try discriminate.
  - injection H as ->. cbn [update]. apply perm_swap.
  - cbn [update]. cbn [nth_error] in H.
    apply perm_trans with (z :: y :: update l j x); [apply perm_swap|].
    apply perm_trans with (z :: x :: l); [apply perm_skip; now apply IH|].
    apply perm_swap.
Qed.

Lemma swap_permutation (T : Type) (a : list T) (i j : nat) :
  Permutation (swap a i j) a.
Proof.
  unfold swap.
  destruct (nth_error a i) as [ai|] eqn:Hi; [|reflexivity].
  destruct (nth_error a j) as [aj|] eqn:Hj; [|reflexivity].
  revert i j Hi Hj. induction a as [|x a IH]; intros [|i] [|j] Hi Hj;
    try discriminate; cbn [nth_error] in Hi, Hj; cbn [update].
  - injection Hi as ->. injection Hj as ->. reflexivity.
  - injection Hi as ->. now apply update_permutation.
  - injection Hj as ->. now apply update_permutation.
  - apply perm_skip. now apply IH.
Qed.

(** The shuffle returns a permutation of its argument. *)
Lemma shuffle_permutation (T : Type) (arr : list T) state :
  Permutation (fst (shuffle arr state)) arr.
Proof.
  unfold shuffle.
  set (step := fun '(shuffled, st) i =>
                 let '(r, st') := rng st in
                 (swap shuffled i (randomIndex r i), st')).
  assert (H : forall (idx : list nat) (acc : list T) st,
            Permutation acc arr ->
            Permutation (fst (fold_left step idx (acc, st))) arr).
  { induction idx as [|i idx IH]; intros acc st Hacc; cbn [fold_left]; [exact Hacc|].
    unfold step at 2. destruct (rng st) as [r st'].
    apply IH. apply perm_trans with acc; [apply swap_permutation|exact Hacc]. }
  apply H. reflexivity.
Qed.

(** Every bootstrap repeat splits a permutation of the cases into train
    and test. *)
Lemma foldAssignments_partition (T : Type) repeats (cases : list T) state tr te :
  In (tr, te) (foldAssignments repeats cases state) -> Permutation (tr ++ te) cases.
Proof.
  revert state. induction repeats as [|n IH]; intros state; cbn [foldAssignments];
    [intros []|].
  pose proof (shuffle_permutation cases state) as Hperm.
  destruct (shuffle cases state) as [shuffled state']. cbn [fst] in Hperm.
  intros [H|H]; [|now apply (IH state')].
  injection H as <- <-. now rewrite firstn_skipn.
Qed.

Lemma foldM_ext (A B : Type) (body1 body2 : B -> A -> completion B) (xs : list A) :
  (forall acc x, body1 acc x = body2 acc x) ->
  forall acc, foldM body1 xs acc = foldM body2 xs acc.
Proof.
  intros Hbody. induction xs as [|x xs IH]; intros acc; cbn [foldM]; [reflexivity|].
  rewrite Hbody. destruct (body2 acc x); cbn [bind]; [apply IH|reflexivity].
Qed.

(** The scoring methods do not read the state of the service object: the
    evaluation is the same with any two service objects. *)
Lemma evaluate_any_service (service1 service2 : VoyageEmbeddingService) cases t :
  evaluate (Some service1) cases t = evaluate (Some service2) cases t.
Proof.
  unfold evaluate.
  match goal with
  | |- bind (foldM ?body1 _ _) _ = bind (foldM ?body2 _ _) _ =>
      rewrite (@foldM_ext _ _ body1 body2)
  end; [reflexivity|].
  intros [[e w] s] tc. reflexivity.
Qed.

Lemma findBestTemp_any_service candidates (service1 service2 : VoyageEmbeddingService) cases :
  findBestTemp candidates (Some service1) cases
  = findBestTemp candidates (Some service2) cases.
Proof.
  unfold findBestTemp. rewrite (evaluate_any_service service1 service2).
  destruct (evaluate (Some service2) cases (JS.get candidates 0)); cbn [bind];
    [|reflexivity].
  apply foldM_ext. intros [bt br] c. unfold selectionStep.
  now rewrite (evaluate_any_service service1 service2).
Qed.

Lemma bootstrapLoop_any_service candidates (service1 service2 : VoyageEmbeddingService)
  repeats embedded state :
  bootstrapLoop candidates (Some service1) repeats embedded state
  = bootstrapLoop candidates (Some service2) repeats embedded state.
Proof.
  revert state. induction repeats as [|n IH]; intros state; cbn [bootstrapLoop];
    [reflexivity|].
  unfold bootstrapRepeat. destruct (shuffle embedded state) as [shuffled state'].
  rewrite (findBestTemp_any_service candidates service1 service2).
  destruct (findBestTemp candidates (Some service2) _) as [[tmp res]|e]; cbn [bind];
    [|reflexivity].
  rewrite (evaluate_any_service service1 service2).
  destruct (evaluate (Some service2) _ tmp); cbn [bind]; [|reflexivity].
  now rewrite IH.
Qed.

(** With a service at hand the bootstrap loop returns one record per
    repeat. *)
Lemma bootstrapLoop_total candidates (service : VoyageEmbeddingService) repeats embedded state :
  exists reps,
    bootstrapLoop candidates (Some service) repeats embedded state = Normal reps.
Proof.
  revert state. induction repeats as [|n IH]; intros state; cbn [bootstrapLoop].
  - now exists [].
  - unfold bootstrapRepeat. destruct (shuffle embedded state) as [shuffled state'].
    match goal with
    | |- context [findBestTemp candidates (Some service) ?tr] =>
        destruct (findBestTemp_total service candidates tr) as [t [r ->]]
    end.
    cbn [bind].
    match goal with
    | |- context [evaluate (Some service) ?te t] =>
        destruct (evaluate_total service te t) as [r' [-> _]]
    end.
    cbn [bind]. destruct (IH state') as [rest ->]. cbn [bind]. eauto.
Qed.

(** The splits recorded by the bootstrap loop are the fold assignments
    drawn from the generator. *)
Lemma bootstrapLoop_folds candidates svc repeats embedded state reps :
  bootstrapLoop candidates svc repeats embedded state = Normal reps ->
  map (fun r => (train r, test r)) reps = foldAssignments repeats embedded state.
Proof.
  revert state reps.
  induction repeats as [|n IH]; intros state reps; cbn [bootstrapLoop foldAssignments].
  - now intros [= <-].
  - unfold bootstrapRepeat.
    destruct (shuffle embedded state) as [shuffled state'].
    destruct (findBestTemp candidates svc _) as [[tmp res]|e]; cbn [bind];
      [|discriminate].
    destruct (evaluate svc _ tmp) as [res'|e]; cbn [bind]; [|discriminate].
    destruct (bootstrapLoop candidates svc n embedded state') as [rest|e] eqn:E;
      cbn [bind]; [|discriminate].
    intros [= <-]. cbn [map train test]. f_equal. now apply IH.
Qed.

(** C10.  Two bootstrap runs with the same seed and the same cases, each
    with its own service object, draw the same train/test split in every
    repeat and return the same repeats, the same four metric arrays and the
    same table of intervals; the splits of the run are the fold assignments
    drawn from the seeded generator. *)
Theorem bootstrap_reproducible
  (candidates : list number) (repeats : nat)
  (service1 service2 : VoyageEmbeddingService)
  (seed1 seed2 : Z) (cases1 cases2 : list EmbeddedTestCase) :
  seed1 = seed2 -> cases1 = cases2 ->
  foldAssignments repeats cases1 (mulberry32 seed1)
  = foldAssignments repeats cases2 (mulberry32 seed2)
  /\ runBootstrap candidates repeats seed1 (Some service1) cases1
     = runBootstrap candidates repeats seed2 (Some service2) cases2
  /\ exists runs result report,
       runBootstrap candidates repeats seed1 (Some service1) cases1
       = Normal (runs, result, report) /\
       map (fun r => (train r, test r)) runs
       = foldAssignments repeats cases1 (mulberry32 seed1).
Proof.
  intros -> ->. split; [reflexivity|]. split.
  - unfold runBootstrap.
    now rewrite (bootstrapLoop_any_service candidates service1 service2).
  - unfold runBootstrap.
    destruct (bootstrapLoop_total candidates service1 repeats cases2 (mulberry32 seed2))
      as [reps Hreps].
    rewrite Hreps. cbn [bind]. do 3 eexists. split; [reflexivity|].
    now apply (bootstrapLoop_folds _ _ _ _ _ Hreps).
Qed.

End Bootstrap.

Section BootstrapExample.

Import EmbeddingService CrossValidation.

Lemma bootstrap_reproducible_witness :
  SEED_source = 42%Z /\ sampleCases = sampleCases /\
  foldAssignments BOOTSTRAP_REPEATS_source sampleCases (mulberry32 SEED_source)
  = foldAssignments BOOTSTRAP_REPEATS_source sampleCases (mulberry32 42)
  /\ @runBootstrap correctlyRounded CANDIDATE_TEMPS_source BOOTSTRAP_REPEATS_source
       SEED_source (Some sampleService) sampleCases
     = @runBootstrap correctlyRounded CANDIDATE_TEMPS_source BOOTSTRAP_REPEATS_source 42
         (Some sampleService) sampleCases
  /\ exists runs result report,
       @runBootstrap correctlyRounded CANDIDATE_TEMPS_source BOOTSTRAP_REPEATS_source
         SEED_source (Some sampleService) sampleCases
       = Normal (runs, result, report) /\
       map (fun r => (train r, test r)) runs
       = foldAssignments BOOTSTRAP_REPEATS_source sampleCases (mulberry32 SEED_source).
Proof.
  split; [reflexivity|]. split; [reflexivity|].
  apply (@bootstrap_reproducible correctlyRounded
           CANDIDATE_TEMPS_source BOOTSTRAP_REPEATS_source
           sampleService sampleService SEED_source 42%Z sampleCases sampleCases);
    reflexivity.
Defined.

End BootstrapExample.

(** ** Input validation of the scorer *)

Section ScorerInputs.

Import EmbeddingService.
Local Open Scope R_scope.

Context {libm : Libm}.

(** C1 (as the code has it).  The scorer does not validate its input: for
    every response vector, every list of anchor vectors (empty or not, of
    equal dimensions or not), every temperature and every mode, the call
    returns a list with one entry per anchor vector; it never fails with
    [InvalidInput], and an empty anchor list gives the empty
    distribution. *)
Theorem scorer_accepts_every_input
  (responseVec : list number) (anchorVecs : list (list number))
  (temperature : number) (normalization : SimilarityNormalization) :
  (exists d,
     score responseVec anchorVecs temperature normalization = Normal d /\
     length d = length anchorVecs) /\
  score responseVec anchorVecs temperature normalization <> Throw InvalidInput /\
  score responseVec [] temperature normalization = Normal [].
Proof.
  split; [|split].
  - eexists. split; [reflexivity|].
    now rewrite similaritiesToDistribution_length, computeSimilarities_length.
  - discriminate.
  - destruct normalization; reflexivity.
Qed.

(** The full pipeline adds two failures of its own making to those of the
    embedding provider, none of them a validation of the vectors: whatever
    [mapResponseToScale] throws was thrown by [embed] or is the
    [TypeError] of a missing response vector. *)
Lemma mapResponseToScale_throw
  embed normalizedEntropy this text anchorTexts key scaleMin scaleMax t normalization e :
  mapResponseToScale embed normalizedEntropy this text anchorTexts key
    scaleMin scaleMax t normalization = Throw e ->
  is_TypeError e \/ exists texts inputType, embed texts inputType = Throw e.
Proof.
  unfold mapResponseToScale, getOrComputeAnchorEmbeddings.
  destruct (cache_get (anchorCache this) key) as [cached|]; cbn [bind].
  - destruct (embed [text] query) as [vecs|e'] eqn:E; cbn [bind].
    + destruct vecs as [|v vs]; [destruct cached|]; cbn [bind]; try discriminate.
      intros [= <-]. left. eexists. reflexivity.
    + intros [= <-]. right. eauto.
  - destruct (embed anchorTexts document) as [embeddings|e'] eqn:E1; cbn [bind].
    + destruct (embed [text] query) as [vecs|e''] eqn:E2; cbn [bind].
      * destruct vecs as [|v vs]; [destruct embeddings|]; cbn [bind]; try discriminate.
        intros [= <-]. left. eexists. reflexivity.
      * intros [= <-]. right. eauto.
    + intros [= <-]. right. eauto.
Qed.

Lemma fold_left_ext_in (A B : Type) (f g : A -> B -> A) (l : list B) :
  (forall acc x, In x l -> f acc x = g acc x) ->
  forall a, fold_left f l a = fold_left g l a.
Proof.
  induction l as [|x l IH]; intros H a; cbn [fold_left]; [reflexivity|].
  rewrite H by now left. apply IH. intros acc y Hy. apply H. now right.
Qed.

(** The components of an anchor vector beyond the dimension of the
    response vector are not read. *)
Lemma cosine_ignores_extra_components a b extra :
  (length a <= length b)%nat ->
  cosineSimilarity a (b ++ extra) = cosineSimilarity a b.
Proof.
  intros Hlen. unfold cosineSimilarity.
  rewrite (@fold_left_ext_in _ _
             (fun '(dot, normA, normB) i =>
                (JS.add dot (JS.mul (JS.get a i) (JS.get (b ++ extra) i)),
                 JS.add normA (JS.mul (JS.get a i) (JS.get a i)),
                 JS.add normB (JS.mul (JS.get (b ++ extra) i) (JS.get (b ++ extra) i))))
             (fun '(dot, normA, normB) i =>
                (JS.add dot (JS.mul (JS.get a i) (JS.get b i)),
                 JS.add normA (JS.mul (JS.get a i) (JS.get a i)),
                 JS.add normB (JS.mul (JS.get b i) (JS.get b i))))).
  - reflexivity.
  - intros [[dot normA] normB] i Hi. apply in_seq in Hi.
    unfold JS.get. rewrite app_nth1 by lia. reflexivity.
Qed.

Lemma sqrt_25 : sqrt 25 = 5.
Proof. replace 25 with (5 * 5) by lra. apply sqrt_square. lra. Qed.

Lemma small_integer k : (Z.abs k <= 1000)%Z -> JS.rnd (IZR k) = Fin (IZR k).
Proof. intros H. apply rnd_IZR. lia. Qed.

(** The sums of the cosine loop for the response [3, 4]: 9 + 16 = 25. *)
Lemma cosine_sums (b0 b1 : number) rest :
  fold_left
    (fun '(dot, normA, normB) i =>
       (JS.add dot (JS.mul (JS.get [Fin 3; Fin 4] i) (JS.get (b0 :: b1 :: rest) i)),
        JS.add normA (JS.mul (JS.get [Fin 3; Fin 4] i) (JS.get [Fin 3; Fin 4] i)),
        JS.add normB (JS.mul (JS.get (b0 :: b1 :: rest) i) (JS.get (b0 :: b1 :: rest) i))))
    (seq 0 (length [Fin 3; Fin 4])) (Fin 0, Fin 0, Fin 0)
  = (JS.add (JS.add (Fin 0) (JS.mul (Fin 3) b0)) (JS.mul (Fin 4) b1),
     Fin 25,
     JS.add (JS.add (Fin 0) (JS.mul b0 b0)) (JS.mul b1 b1)).
Proof.
  cbn [length seq fold_left JS.get nth]. f_equal. f_equal.
  rewrite !mul_fin.
  replace (3 * 3) with (IZR 9) by lra. replace (4 * 4) with (IZR 16) by lra.
  rewrite !small_integer by lia. rewrite add_fin.
  replace (0 + IZR 9) with (IZR 9) by lra. rewrite small_integer by lia.
  rewrite add_fin. replace (IZR 9 + IZR 16) with (IZR 25) by lra.
  now rewrite small_integer by lia.
Qed.

(** The cosine loop runs over the indices of the response vector: a
    longer anchor vector is read in part, a shorter one yields NaN. *)
Lemma cosine_longer_anchor :
  cosineSimilarity [Fin 3; Fin 4] [Fin 3; Fin 4; Fin 5] = Fin 1.
Proof.
  unfold cosineSimilarity. rewrite cosine_sums.
  rewrite !mul_fin.
  replace (3 * 3) with (IZR 9) by lra. replace (4 * 4) with (IZR 16) by lra.
  rewrite !small_integer by lia. rewrite !add_fin.
  replace (0 + IZR 9) with (IZR 9) by lra. rewrite small_integer by lia.
  rewrite add_fin. replace (IZR 9 + IZR 16) with (IZR 25) by lra.
  rewrite small_integer by lia.
  cbn [Math.sqrt]. destruct (Rlt_dec (IZR 25) 0) as [E|_]; [lra|].
  destruct (Rlt_dec 25 0) as [E|_]; [lra|].
  rewrite sqrt_25. replace 5 with (IZR 5) by reflexivity.
  rewrite small_integer by lia. rewrite mul_fin.
  replace (IZR 5 * IZR 5) with (IZR 25) by lra. rewrite small_integer by lia.
  unfold JS.strict_eq. destruct (Req_dec_T (IZR 25) 0) as [E|_]; [lra|].
  rewrite div_fin by lra.
  replace (IZR 25 / IZR 25) with (IZR 1) by lra. now rewrite small_integer by lia.
Qed.

Lemma cosine_shorter_anchor :
  cosineSimilarity [Fin 3; Fin 4] [Fin 3] = NaN.
Proof.
  unfold cosineSimilarity. cbn [length seq fold_left JS.get nth].
  rewrite !mul_fin.
  replace (3 * 3) with (IZR 9) by lra. replace (4 * 4) with (IZR 16) by lra.
  rewrite !small_integer by lia. rewrite !add_fin.
  replace (0 + IZR 9) with (IZR 9) by lra. rewrite small_integer by lia.
  rewrite add_fin. replace (IZR 9 + IZR 16) with (IZR 25) by lra.
  rewrite small_integer by lia.
  cbn [JS.mul JS.add]. destruct (Math.sqrt (Fin (IZR 25))); reflexivity.
Qed.

End ScorerInputs.

Section ScorerExample.

Import EmbeddingService.
Local Open Scope R_scope.

(** C1 as stated fails.  A response vector of dimension 2 scored against
    one anchor vector of dimension 3, and against no anchor vector at all:
    both calls return a distribution instead of failing. *)
Lemma mismatched_input_is_scored :
  (forall libm : Libm, LibmSpec libm ->
     @score libm [Fin 3; Fin 4] [[Fin 3; Fin 4; Fin 5]] (JS.lit 0.2) minmax
     = Normal [Fin 1]) /\
  (forall libm : Libm,
     @score libm [Fin 3; Fin 4] [[Fin 3; Fin 4; Fin 5]] (JS.lit 0.2) minmax
     <> Throw InvalidInput /\
     @score libm [Fin 3; Fin 4] [] (JS.lit 0.2) minmax = Normal [] /\
     @score libm [Fin 3; Fin 4] [] (JS.lit 0.2) minmax <> Throw InvalidInput).
Proof.
  split.
  - intros libm spec. unfold score, computeSimilarities. cbn [map].
    rewrite cosine_longer_anchor. f_equal.
    unfold similaritiesToDistribution. cbv zeta.
    cbn [normalizeSimilarities length Nat.leb orb is_none map].
    destruct lit_0_2 as [-> Ht].
    pose proof (bpow_pos (-500)) as Hp.
    rewrite div_fin by lra.
    assert (Hscaled : JS.rnd (1 / Double.round 0.2)
                      = Fin (Double.round (1 / Double.round 0.2))).
    { apply small_is_finite. unfold Rdiv. rewrite Rmult_1_l.
      rewrite Rabs_pos_eq by (left; apply Rinv_0_lt_compat; lra).
      apply Rle_trans with (/ Double.bpow (-500)).
      - apply Rinv_le_contravar; lra.
      - rewrite <- bpow_opp. apply bpow_le. lia. }
    rewrite Hscaled.
    etransitivity;
      [exact (@softmax_equal libm spec (Double.round (1 / Double.round 0.2)) 1
                ltac:(lia) ltac:(cbn; lia))|].
    cbn [repeat INR]. f_equal.
    replace (1 / 1) with (IZR 1) by lra. apply rnd_IZR. lia.
  - intros libm. split; [discriminate|]. split; [reflexivity|discriminate].
Qed.

End ScorerExample.
